(** * Genre extraction from wikitext and artist-network cleanup

    A shallow embedding of [assignments/Assignment 2/genre_script.py] and of
    [assignments/Assignment 2/rock_network.py]: the genre extraction with its
    batch loop and summary, and the loaders, the link extraction, the graph
    builder and the cleanup of the network.

    Text is a Python [str]: a list of Unicode code points.  The white space
    of [str.strip], [str.split] and [\s], the case mapping of [str.lower]
    with its rule for the capital sigma, and the case folding of
    [re.IGNORECASE] are those of Python 3.11 (Unicode 14.0); [len] counts
    code points.

    The regular expressions of the program are kept as terms and run by a
    backtracking matcher with the priorities of Python's [re]: leftmost
    match, alternatives in order, greedy and lazy repetition.  Paths are
    POSIX paths, a folder is the list of its files, and console output is
    left out.  Graphs of [networkx] are records in a heap, so that a change
    made through one reference is seen through every other. *)

From Stdlib Require Import List Ascii String ZArith NArith Lia Bool Arith.
From stdpp Require Import base gmap strings.
Import ListNotations.

Open Scope string_scope.
Open Scope list_scope.

(** A character is its code point. *)
Definition char := N.

Definition str := list char.

(** The literals of this file are ASCII: a character literal is its code,
    and a string literal the list of the codes of its characters. *)
Definition ch (a : ascii) : char := N_of_ascii a.

Coercion ch : ascii >-> char.

Arguments ch : simpl never.

Bind Scope char_scope with char.

Fixpoint str_of_string (s : string) : list char :=
  match s with
  | EmptyString => []
  | String a s' => ch a :: str_of_string s'
  end.

Coercion str_of_string : string >-> list.

Definition char_eqb (a b : char) : bool := N.eqb a b.

Arguments char_eqb : simpl never.

Definition char_eqb_spec (a b : char) : reflect (a = b) (char_eqb a b) :=
  N.eqb_spec a b.

(** ** Characters *)

(** [c] lies in one of the ranges, bounds included. *)
Definition in_ranges (rs : list (N * N)) (c : char) : bool :=
  existsb (fun r => (fst r <=? c)%N && (c <=? snd r)%N) rs.

(** The white space of [str.isspace], which is that of [str.strip],
    [str.split] and [\s]. *)
Definition space_ranges : list (N * N) :=
  [ (9, 13); (28, 32); (133, 133); (160, 160); (5760, 5760); (8192, 8202);
    (8232, 8233); (8239, 8239); (8287, 8287); (12288, 12288) ]%N.

Definition is_space (c : char) : bool := in_ranges space_ranges c.

Definition newline : char := 10%N.

(** The simple lowercase mapping, as runs [(first, last, step, target)]: the
    characters [first], [first + step], ... up to [last] map to [target],
    [target + step], ... *)
Definition lower_runs : list (N * N * N * N) :=
  [
    (65, 90, 1, 97); (192, 214, 1, 224); (216, 222, 1, 248);
    (256, 302, 2, 257); (306, 310, 2, 307); (313, 327, 2, 314);
    (330, 374, 2, 331); (376, 376, 1, 255); (377, 381, 2, 378);
    (385, 385, 1, 595); (386, 388, 2, 387); (390, 390, 1, 596);
    (391, 391, 1, 392); (393, 394, 1, 598); (395, 395, 1, 396);
    (398, 398, 1, 477); (399, 399, 1, 601); (400, 400, 1, 603);
    (401, 401, 1, 402); (403, 403, 1, 608); (404, 404, 1, 611);
    (406, 406, 1, 617); (407, 407, 1, 616); (408, 408, 1, 409);
    (412, 412, 1, 623); (413, 413, 1, 626); (415, 415, 1, 629);
    (416, 420, 2, 417); (422, 422, 1, 640); (423, 423, 1, 424);
    (425, 425, 1, 643); (428, 428, 1, 429); (430, 430, 1, 648);
    (431, 431, 1, 432); (433, 434, 1, 650); (435, 437, 2, 436);
    (439, 439, 1, 658); (440, 440, 1, 441); (444, 444, 1, 445);
    (452, 452, 1, 454); (453, 453, 1, 454); (455, 455, 1, 457);
    (456, 456, 1, 457); (458, 458, 1, 460); (459, 475, 2, 460);
    (478, 494, 2, 479); (497, 497, 1, 499); (498, 500, 2, 499);
    (502, 502, 1, 405); (503, 503, 1, 447); (504, 542, 2, 505);
    (544, 544, 1, 414); (546, 562, 2, 547); (570, 570, 1, 11365);
    (571, 571, 1, 572); (573, 573, 1, 410); (574, 574, 1, 11366);
    (577, 577, 1, 578); (579, 579, 1, 384); (580, 580, 1, 649);
    (581, 581, 1, 652); (582, 590, 2, 583); (880, 882, 2, 881);
    (886, 886, 1, 887); (895, 895, 1, 1011); (902, 902, 1, 940);
    (904, 906, 1, 941); (908, 908, 1, 972); (910, 911, 1, 973);
    (913, 929, 1, 945); (931, 939, 1, 963); (975, 975, 1, 983);
    (984, 1006, 2, 985); (1012, 1012, 1, 952); (1015, 1015, 1, 1016);
    (1017, 1017, 1, 1010); (1018, 1018, 1, 1019); (1021, 1023, 1, 891);
    (1024, 1039, 1, 1104); (1040, 1071, 1, 1072); (1120, 1152, 2, 1121);
    (1162, 1214, 2, 1163); (1216, 1216, 1, 1231); (1217, 1229, 2, 1218);
    (1232, 1326, 2, 1233); (1329, 1366, 1, 1377); (4256, 4293, 1, 11520);
    (4295, 4295, 1, 11559); (4301, 4301, 1, 11565); (5024, 5103, 1, 43888);
    (5104, 5109, 1, 5112); (7312, 7354, 1, 4304); (7357, 7359, 1, 4349);
    (7680, 7828, 2, 7681); (7838, 7838, 1, 223); (7840, 7934, 2, 7841);
    (7944, 7951, 1, 7936); (7960, 7965, 1, 7952); (7976, 7983, 1, 7968);
    (7992, 7999, 1, 7984); (8008, 8013, 1, 8000); (8025, 8031, 2, 8017);
    (8040, 8047, 1, 8032); (8072, 8079, 1, 8064); (8088, 8095, 1, 8080);
    (8104, 8111, 1, 8096); (8120, 8121, 1, 8112); (8122, 8123, 1, 8048);
    (8124, 8124, 1, 8115); (8136, 8139, 1, 8050); (8140, 8140, 1, 8131);
    (8152, 8153, 1, 8144); (8154, 8155, 1, 8054); (8168, 8169, 1, 8160);
    (8170, 8171, 1, 8058); (8172, 8172, 1, 8165); (8184, 8185, 1, 8056);
    (8186, 8187, 1, 8060); (8188, 8188, 1, 8179); (8486, 8486, 1, 969);
    (8490, 8490, 1, 107); (8491, 8491, 1, 229); (8498, 8498, 1, 8526);
    (8544, 8559, 1, 8560); (8579, 8579, 1, 8580); (9398, 9423, 1, 9424);
    (11264, 11311, 1, 11312); (11360, 11360, 1, 11361); (11362, 11362, 1, 619);
    (11363, 11363, 1, 7549); (11364, 11364, 1, 637); (11367, 11371, 2, 11368);
    (11373, 11373, 1, 593); (11374, 11374, 1, 625); (11375, 11375, 1, 592);
    (11376, 11376, 1, 594); (11378, 11378, 1, 11379); (11381, 11381, 1, 11382);
    (11390, 11391, 1, 575); (11392, 11490, 2, 11393); (11499, 11501, 2, 11500);
    (11506, 11506, 1, 11507); (42560, 42604, 2, 42561); (42624, 42650, 2, 42625);
    (42786, 42798, 2, 42787); (42802, 42862, 2, 42803); (42873, 42875, 2, 42874);
    (42877, 42877, 1, 7545); (42878, 42886, 2, 42879); (42891, 42891, 1, 42892);
    (42893, 42893, 1, 613); (42896, 42898, 2, 42897); (42902, 42920, 2, 42903);
    (42922, 42922, 1, 614); (42923, 42923, 1, 604); (42924, 42924, 1, 609);
    (42925, 42925, 1, 620); (42926, 42926, 1, 618); (42928, 42928, 1, 670);
    (42929, 42929, 1, 647); (42930, 42930, 1, 669); (42931, 42931, 1, 43859);
    (42932, 42946, 2, 42933); (42948, 42948, 1, 42900); (42949, 42949, 1, 642);
    (42950, 42950, 1, 7566); (42951, 42953, 2, 42952); (42960, 42960, 1, 42961);
    (42966, 42968, 2, 42967); (42997, 42997, 1, 42998); (65313, 65338, 1, 65345);
    (66560, 66599, 1, 66600); (66736, 66771, 1, 66776); (66928, 66938, 1, 66967);
    (66940, 66954, 1, 66979); (66956, 66962, 1, 66995); (66964, 66965, 1, 67003);
    (68736, 68786, 1, 68800); (71840, 71871, 1, 71872); (93760, 93791, 1, 93792);
    (125184, 125217, 1, 125218) ]%N.

Definition covers (r : N * N * N * N) (c : char) : bool :=
  let '(first, last, step, _) := r in
  if (first <=? c)%N
  then if (c <=? last)%N then ((c - first) mod step =? 0)%N else false
  else false.

Definition simple_lower (c : char) : char :=
  match List.find (fun r => covers r c) lower_runs with
  | Some (first, _, _, target) => (target + (c - first))%N
  | None => c
  end.

(** The capital I with a dot above is the one character whose lowercase is
    two characters. *)
Definition lower_char (c : char) : str :=
  if (c =? 304)%N then [105; 775]%N else [simple_lower c].

(** The cased characters that are not case-ignorable, and the
    case-ignorable characters: the two classes that the rule for the capital
    sigma looks at. *)
Definition cased_ranges : list (N * N) :=
  [
    (65, 90); (97, 122); (170, 170); (181, 181); (186, 186);
    (192, 214); (216, 246); (248, 442); (444, 447); (452, 659);
    (661, 687); (880, 883); (886, 887); (891, 893); (895, 895);
    (902, 902); (904, 906); (908, 908); (910, 929); (931, 1013);
    (1015, 1153); (1162, 1327); (1329, 1366); (1376, 1416); (4256, 4293);
    (4295, 4295); (4301, 4301); (4304, 4346); (4349, 4351); (5024, 5109);
    (5112, 5117); (7296, 7304); (7312, 7354); (7357, 7359); (7424, 7467);
    (7531, 7543); (7545, 7578); (7680, 7957); (7960, 7965); (7968, 8005);
    (8008, 8013); (8016, 8023); (8025, 8025); (8027, 8027); (8029, 8029);
    (8031, 8061); (8064, 8116); (8118, 8124); (8126, 8126); (8130, 8132);
    (8134, 8140); (8144, 8147); (8150, 8155); (8160, 8172); (8178, 8180);
    (8182, 8188); (8450, 8450); (8455, 8455); (8458, 8467); (8469, 8469);
    (8473, 8477); (8484, 8484); (8486, 8486); (8488, 8488); (8490, 8493);
    (8495, 8500); (8505, 8505); (8508, 8511); (8517, 8521); (8526, 8526);
    (8544, 8575); (8579, 8580); (9398, 9449); (11264, 11387); (11390, 11492);
    (11499, 11502); (11506, 11507); (11520, 11557); (11559, 11559); (11565, 11565);
    (42560, 42605); (42624, 42651); (42786, 42863); (42865, 42887); (42891, 42894);
    (42896, 42954); (42960, 42961); (42963, 42963); (42965, 42969); (42997, 42998);
    (43002, 43002); (43824, 43866); (43872, 43880); (43888, 43967); (64256, 64262);
    (64275, 64279); (65313, 65338); (65345, 65370); (66560, 66639); (66736, 66771);
    (66776, 66811); (66928, 66938); (66940, 66954); (66956, 66962); (66964, 66965);
    (66967, 66977); (66979, 66993); (66995, 67001); (67003, 67004); (68736, 68786);
    (68800, 68850); (71840, 71903); (93760, 93823); (119808, 119892); (119894, 119964);
    (119966, 119967); (119970, 119970); (119973, 119974); (119977, 119980); (119982, 119993);
    (119995, 119995); (119997, 120003); (120005, 120069); (120071, 120074); (120077, 120084);
    (120086, 120092); (120094, 120121); (120123, 120126); (120128, 120132); (120134, 120134);
    (120138, 120144); (120146, 120485); (120488, 120512); (120514, 120538); (120540, 120570);
    (120572, 120596); (120598, 120628); (120630, 120654); (120656, 120686); (120688, 120712);
    (120714, 120744); (120746, 120770); (120772, 120779); (122624, 122633); (122635, 122654);
    (125184, 125251); (127280, 127305); (127312, 127337); (127344, 127369) ]%N.

Definition ignorable_ranges : list (N * N) :=
  [
    (39, 39); (46, 46); (58, 58); (94, 94); (96, 96);
    (168, 168); (173, 173); (175, 175); (180, 180); (183, 184);
    (688, 879); (884, 885); (890, 890); (900, 901); (903, 903);
    (1155, 1161); (1369, 1369); (1375, 1375); (1425, 1469); (1471, 1471);
    (1473, 1474); (1476, 1477); (1479, 1479); (1524, 1524); (1536, 1541);
    (1552, 1562); (1564, 1564); (1600, 1600); (1611, 1631); (1648, 1648);
    (1750, 1757); (1759, 1768); (1770, 1773); (1807, 1807); (1809, 1809);
    (1840, 1866); (1958, 1968); (2027, 2037); (2042, 2042); (2045, 2045);
    (2070, 2093); (2137, 2139); (2184, 2184); (2192, 2193); (2200, 2207);
    (2249, 2306); (2362, 2362); (2364, 2364); (2369, 2376); (2381, 2381);
    (2385, 2391); (2402, 2403); (2417, 2417); (2433, 2433); (2492, 2492);
    (2497, 2500); (2509, 2509); (2530, 2531); (2558, 2558); (2561, 2562);
    (2620, 2620); (2625, 2626); (2631, 2632); (2635, 2637); (2641, 2641);
    (2672, 2673); (2677, 2677); (2689, 2690); (2748, 2748); (2753, 2757);
    (2759, 2760); (2765, 2765); (2786, 2787); (2810, 2815); (2817, 2817);
    (2876, 2876); (2879, 2879); (2881, 2884); (2893, 2893); (2901, 2902);
    (2914, 2915); (2946, 2946); (3008, 3008); (3021, 3021); (3072, 3072);
    (3076, 3076); (3132, 3132); (3134, 3136); (3142, 3144); (3146, 3149);
    (3157, 3158); (3170, 3171); (3201, 3201); (3260, 3260); (3263, 3263);
    (3270, 3270); (3276, 3277); (3298, 3299); (3328, 3329); (3387, 3388);
    (3393, 3396); (3405, 3405); (3426, 3427); (3457, 3457); (3530, 3530);
    (3538, 3540); (3542, 3542); (3633, 3633); (3636, 3642); (3654, 3662);
    (3761, 3761); (3764, 3772); (3782, 3782); (3784, 3789); (3864, 3865);
    (3893, 3893); (3895, 3895); (3897, 3897); (3953, 3966); (3968, 3972);
    (3974, 3975); (3981, 3991); (3993, 4028); (4038, 4038); (4141, 4144);
    (4146, 4151); (4153, 4154); (4157, 4158); (4184, 4185); (4190, 4192);
    (4209, 4212); (4226, 4226); (4229, 4230); (4237, 4237); (4253, 4253);
    (4348, 4348); (4957, 4959); (5906, 5908); (5938, 5939); (5970, 5971);
    (6002, 6003); (6068, 6069); (6071, 6077); (6086, 6086); (6089, 6099);
    (6103, 6103); (6109, 6109); (6155, 6159); (6211, 6211); (6277, 6278);
    (6313, 6313); (6432, 6434); (6439, 6440); (6450, 6450); (6457, 6459);
    (6679, 6680); (6683, 6683); (6742, 6742); (6744, 6750); (6752, 6752);
    (6754, 6754); (6757, 6764); (6771, 6780); (6783, 6783); (6823, 6823);
    (6832, 6862); (6912, 6915); (6964, 6964); (6966, 6970); (6972, 6972);
    (6978, 6978); (7019, 7027); (7040, 7041); (7074, 7077); (7080, 7081);
    (7083, 7085); (7142, 7142); (7144, 7145); (7149, 7149); (7151, 7153);
    (7212, 7219); (7222, 7223); (7288, 7293); (7376, 7378); (7380, 7392);
    (7394, 7400); (7405, 7405); (7412, 7412); (7416, 7417); (7468, 7530);
    (7544, 7544); (7579, 7679); (8125, 8125); (8127, 8129); (8141, 8143);
    (8157, 8159); (8173, 8175); (8189, 8190); (8203, 8207); (8216, 8217);
    (8228, 8228); (8231, 8231); (8234, 8238); (8288, 8292); (8294, 8303);
    (8305, 8305); (8319, 8319); (8336, 8348); (8400, 8432); (11388, 11389);
    (11503, 11505); (11631, 11631); (11647, 11647); (11744, 11775); (11823, 11823);
    (12293, 12293); (12330, 12333); (12337, 12341); (12347, 12347); (12441, 12446);
    (12540, 12542); (40981, 40981); (42232, 42237); (42508, 42508); (42607, 42610);
    (42612, 42621); (42623, 42623); (42652, 42655); (42736, 42737); (42752, 42785);
    (42864, 42864); (42888, 42890); (42994, 42996); (43000, 43001); (43010, 43010);
    (43014, 43014); (43019, 43019); (43045, 43046); (43052, 43052); (43204, 43205);
    (43232, 43249); (43263, 43263); (43302, 43309); (43335, 43345); (43392, 43394);
    (43443, 43443); (43446, 43449); (43452, 43453); (43471, 43471); (43493, 43494);
    (43561, 43566); (43569, 43570); (43573, 43574); (43587, 43587); (43596, 43596);
    (43632, 43632); (43644, 43644); (43696, 43696); (43698, 43700); (43703, 43704);
    (43710, 43711); (43713, 43713); (43741, 43741); (43756, 43757); (43763, 43764);
    (43766, 43766); (43867, 43871); (43881, 43883); (44005, 44005); (44008, 44008);
    (44013, 44013); (64286, 64286); (64434, 64450); (65024, 65039); (65043, 65043);
    (65056, 65071); (65106, 65106); (65109, 65109); (65279, 65279); (65287, 65287);
    (65294, 65294); (65306, 65306); (65342, 65342); (65344, 65344); (65392, 65392);
    (65438, 65439); (65507, 65507); (65529, 65531); (66045, 66045); (66272, 66272);
    (66422, 66426); (67456, 67461); (67463, 67504); (67506, 67514); (68097, 68099);
    (68101, 68102); (68108, 68111); (68152, 68154); (68159, 68159); (68325, 68326);
    (68900, 68903); (69291, 69292); (69446, 69456); (69506, 69509); (69633, 69633);
    (69688, 69702); (69744, 69744); (69747, 69748); (69759, 69761); (69811, 69814);
    (69817, 69818); (69821, 69821); (69826, 69826); (69837, 69837); (69888, 69890);
    (69927, 69931); (69933, 69940); (70003, 70003); (70016, 70017); (70070, 70078);
    (70089, 70092); (70095, 70095); (70191, 70193); (70196, 70196); (70198, 70199);
    (70206, 70206); (70367, 70367); (70371, 70378); (70400, 70401); (70459, 70460);
    (70464, 70464); (70502, 70508); (70512, 70516); (70712, 70719); (70722, 70724);
    (70726, 70726); (70750, 70750); (70835, 70840); (70842, 70842); (70847, 70848);
    (70850, 70851); (71090, 71093); (71100, 71101); (71103, 71104); (71132, 71133);
    (71219, 71226); (71229, 71229); (71231, 71232); (71339, 71339); (71341, 71341);
    (71344, 71349); (71351, 71351); (71453, 71455); (71458, 71461); (71463, 71467);
    (71727, 71735); (71737, 71738); (71995, 71996); (71998, 71998); (72003, 72003);
    (72148, 72151); (72154, 72155); (72160, 72160); (72193, 72202); (72243, 72248);
    (72251, 72254); (72263, 72263); (72273, 72278); (72281, 72283); (72330, 72342);
    (72344, 72345); (72752, 72758); (72760, 72765); (72767, 72767); (72850, 72871);
    (72874, 72880); (72882, 72883); (72885, 72886); (73009, 73014); (73018, 73018);
    (73020, 73021); (73023, 73029); (73031, 73031); (73104, 73105); (73109, 73109);
    (73111, 73111); (73459, 73460); (78896, 78904); (92912, 92916); (92976, 92982);
    (92992, 92995); (94031, 94031); (94095, 94111); (94176, 94177); (94179, 94180);
    (110576, 110579); (110581, 110587); (110589, 110590); (113821, 113822); (113824, 113827);
    (118528, 118573); (118576, 118598); (119143, 119145); (119155, 119170); (119173, 119179);
    (119210, 119213); (119362, 119364); (121344, 121398); (121403, 121452); (121461, 121461);
    (121476, 121476); (121499, 121503); (121505, 121519); (122880, 122886); (122888, 122904);
    (122907, 122913); (122915, 122916); (122918, 122922); (123184, 123197); (123566, 123566);
    (123628, 123631); (125136, 125142); (125252, 125259); (127995, 127999); (917505, 917505);
    (917536, 917631); (917760, 917999) ]%N.

Definition cased (c : char) : bool := in_ranges cased_ranges c.

Definition case_ignorable (c : char) : bool := in_ranges ignorable_ranges c.

Definition capital_sigma : char := 931%N.
Definition small_sigma : char := 963%N.
Definition final_sigma : char := 962%N.

(** The first character that is not case-ignorable is a cased one. *)
Fixpoint cased_next (s : str) : bool :=
  match s with
  | [] => false
  | c :: s' => if case_ignorable c then cased_next s' else cased c
  end.

(** [re.IGNORECASE] on an ASCII pattern character: a letter matches its two
    cases, and [i], [k] and [s] also the dotted and the dotless I, the
    Kelvin sign and the long s. *)
Definition re_fold (c : char) : char :=
  if (65 <=? c)%N && (c <=? 90)%N then (c + 32)%N
  else if (c =? 304)%N || (c =? 305)%N then 105%N
  else if (c =? 8490)%N then 107%N
  else if (c =? 383)%N then 115%N
  else c.

(** The text as [re.IGNORECASE] compares it with an ASCII pattern. *)
Definition fold_case (s : list char) : list char := List.map re_fold s.

(** ** Python string methods *)

(** [s.lower()]: [before] tells whether a cased character comes before,
    case-ignorable ones skipped.  A capital sigma becomes the final sigma
    when a cased character comes before it and none after it. *)
Fixpoint lower_go (before : bool) (s : str) : str :=
  match s with
  | [] => []
  | c :: s' =>
      (if (c =? capital_sigma)%N
       then [if before && negb (cased_next s') then final_sigma else small_sigma]
       else lower_char c)
      ++ lower_go (if case_ignorable c then before else cased c) s'
  end.

Definition lower (s : str) : str := lower_go false s.

(** What [str.lower] can put for a character. *)
Definition lower_forms (c : char) : str :=
  if (c =? capital_sigma)%N then [small_sigma; final_sigma] else lower_char c.

(** A character that [str.lower] changes. *)
Definition is_upper (c : char) : bool :=
  (c =? 304)%N || negb (simple_lower c =? c)%N.

(** The characters of a run. *)
Definition run_chars (r : N * N * N * N) : list char :=
  let '(first, last, step, _) := r in
  List.map (fun k => (first + step * N.of_nat k)%N)
    (seq 0 (S (N.to_nat ((last - first) / step)))).

(** What [str.lower] puts for a character is not changed by [str.lower]
    again, and is the character itself, a small ASCII letter or a character
    outside ASCII. *)
Definition lower_check (c : char) : bool :=
  forallb
    (fun d => negb (is_upper d)
              && ((d =? c)%N || ((97 <=? d)%N && (d <=? 122)%N) || (128 <=? d)%N))
    (lower_forms c).

(** [s.lstrip()], [s.rstrip()], [s.strip()] *)
Fixpoint lstrip (s : str) : str :=
  match s with
  | c :: s' => if is_space c then lstrip s' else s
  | [] => []
  end.

Definition rstrip (s : str) : str := rev (lstrip (rev s)).

Definition strip (s : str) : str := rstrip (lstrip s).

(** [s.startswith(p)] *)
Fixpoint startswith (p s : str) : bool :=
  match p, s with
  | [], _ => true
  | a :: p', b :: s' => char_eqb a b && startswith p' s'
  | _ :: _, [] => false
  end.

(** [p in s] for strings *)
Fixpoint contains (p s : str) : bool :=
  startswith p s ||
  match s with
  | [] => false
  | _ :: s' => contains p s'
  end.

(** [s.count(c)] for a one-character [c] *)
Definition count (c : char) (s : str) : Z :=
  Z.of_nat (List.length (List.filter (char_eqb c) s)).

(** [s.find(c)] for a one-character [c]; [None] stands for -1 *)
Fixpoint find_char (c : char) (s : str) : option nat :=
  match s with
  | [] => None
  | x :: s' => if char_eqb x c then Some 0%nat else option_map S (find_char c s')
  end.

(** [s.replace(c, '')] for a one-character [c] *)
Definition remove_char (c : char) (s : str) : str :=
  List.filter (fun x => negb (char_eqb x c)) s.

(** [s.replace(a, b)] for one-character [a] and [b] *)
Definition replace_char (a b : char) (s : str) : str :=
  List.map (fun x => if char_eqb x a then b else x) s.

(** [s.split(c)] for a one-character separator: never the empty list *)
Fixpoint split_char (c : char) (s : str) : list str :=
  match s with
  | [] => [[]]
  | x :: s' =>
      if char_eqb x c then [] :: split_char c s'
      else match split_char c s' with
           | w :: ws => (x :: w) :: ws
           | [] => [[x]]
           end
  end.

(** [s.split()]: the maximal runs of characters that are not white space *)
Fixpoint words_go (cur : str) (s : str) : list str :=
  match s with
  | [] => match cur with [] => [] | _ => [rev cur] end
  | c :: s' =>
      if is_space c
      then match cur with [] => words_go [] s' | _ => rev cur :: words_go [] s' end
      else words_go (c :: cur) s'
  end.

Definition words (s : str) : list str := words_go [] s.

(** [sep.join(l)] *)
Fixpoint join (sep : str) (l : list str) : str :=
  match l with
  | [] => []
  | [w] => w
  | w :: ws => w ++ sep ++ join sep ws
  end.

Definition str_eqb (a b : str) : bool := bool_decide (a = b).

(** [x in l] for a list of strings *)
Definition mem (x : str) (l : list str) : bool := existsb (str_eqb x) l.

(** ** Regular expressions: the backtracking matcher of Python's [re]

    Repetition is over a single character class, which is all that the
    patterns of the program use; [Opt] and [Plus] are derived. *)

Inductive cclass :=
| Any                       (* [.] under DOTALL *)
| Dot                       (* [.]: anything but a newline *)
| Space                     (* [\s] *)
| NotSpace                  (* [[^\s]] *)
| OneOf (cs : str)          (* [[abc]] *)
| NoneOf (cs : str).        (* [[^abc]] *)

Inductive regex :=
| Eps
| Chr (c : char)
| Cls (k : cclass)
| Bol                       (* [^] without MULTILINE *)
| Eol                       (* [$] without MULTILINE *)
| Cat (r1 r2 : regex)
| Alt (r1 r2 : regex)
| Star (greedy : bool) (k : cclass)
| Grp (n : nat) (r : regex).

Definition chr_eqb (ic : bool) (p x : char) : bool :=
  if ic then char_eqb (re_fold p) (re_fold x) else char_eqb p x.

Definition in_class (ic : bool) (k : cclass) (x : char) : bool :=
  match k with
  | Any => true
  | Dot => negb (char_eqb x newline)
  | Space => is_space x
  | NotSpace => negb (is_space x)
  | OneOf cs => existsb (fun p => chr_eqb ic p x) cs
  | NoneOf cs => negb (existsb (fun p => chr_eqb ic p x) cs)
  end.

Definition caps := list (nat * str).

Fixpoint star {A} (p : char -> bool) (greedy : bool) (i : nat) (s : str)
    (k : nat -> str -> option A) : option A :=
  match s with
  | x :: s' =>
      if p x then
        if greedy then
          match star p greedy (S i) s' k with
          | Some a => Some a
          | None => k i s
          end
        else
          match k i s with
          | Some a => Some a
          | None => star p greedy (S i) s' k
          end
      else k i s
  | [] => k i s
  end.

(** [rmatch ic r i s g k]: match [r] at index [i], where [s] is the text
    from [i] on and [g] the groups captured so far; [k] is the rest of the
    pattern, and a [None] from it makes the matcher backtrack. *)
Fixpoint rmatch {A} (ic : bool) (r : regex) (i : nat) (s : str) (g : caps)
    (k : nat -> str -> caps -> option A) : option A :=
  match r with
  | Eps => k i s g
  | Chr c =>
      match s with
      | x :: s' => if chr_eqb ic c x then k (S i) s' g else None
      | [] => None
      end
  | Cls cl =>
      match s with
      | x :: s' => if in_class ic cl x then k (S i) s' g else None
      | [] => None
      end
  | Bol => if (i =? 0)%nat then k i s g else None
  | Eol =>
      match s with
      | [] => k i s g
      | [x] => if char_eqb x newline then k i s g else None
      | _ => None
      end
  | Cat r1 r2 => rmatch ic r1 i s g (fun i' s' g' => rmatch ic r2 i' s' g' k)
  | Alt r1 r2 =>
      match rmatch ic r1 i s g k with
      | Some a => Some a
      | None => rmatch ic r2 i s g k
      end
  | Star greedy cl => star (in_class ic cl) greedy i s (fun i' s' => k i' s' g)
  | Grp n r =>
      rmatch ic r i s g (fun i' s' g' => k i' s' ((n, firstn (i' - i) s) :: g'))
  end.

Definition Opt (r : regex) : regex := Alt r Eps.
Definition Plus (greedy : bool) (k : cclass) : regex := Cat (Cls k) (Star greedy k).

Fixpoint Lit (s : str) : regex :=
  match s with
  | [] => Eps
  | [c] => Chr c
  | c :: s' => Cat (Chr c) (Lit s')
  end.

Declare Scope regex_scope.
Delimit Scope regex_scope with re.
Infix "⋅" := Cat (at level 40, left associativity) : regex_scope.
Infix "∣" := Alt (at level 50, left associativity) : regex_scope.

(** A match: the matched text, the text after it, and the groups. *)
Record mtch := { m_text : str; m_rest : str; m_caps : caps }.

(** One attempt at index [i].  [adv] is the engine's must-advance flag, set
    for the attempt that follows an empty match. *)
Definition match_at (ic : bool) (r : regex) (i : nat) (s : str) (adv : bool)
    : option mtch :=
  rmatch ic r i s []
    (fun i' s' g' =>
       if adv && (i' =? i)%nat then None
       else Some {| m_text := firstn (i' - i) s; m_rest := s'; m_caps := g' |}).

(** [re.search] from index [i]: the text skipped and the leftmost match. *)
Fixpoint search_from (ic : bool) (r : regex) (i : nat) (s : str) (adv : bool)
    : option (str * mtch) :=
  match match_at ic r i s adv with
  | Some m => Some ([], m)
  | None =>
      match s with
      | [] => None
      | x :: s' =>
          match search_from ic r (S i) s' false with
          | Some (pre, m) => Some (x :: pre, m)
          | None => None
          end
      end
  end.

Definition re_search (ic : bool) (r : regex) (s : str) : option (str * mtch) :=
  search_from ic r 0 s false.

(** [re.match]: one attempt at index 0 *)
Definition re_match (ic : bool) (r : regex) (s : str) : bool :=
  match match_at ic r 0 s false with Some _ => true | None => false end.

(** Replacement templates: literal text and group references. *)
Inductive titem := TLit (s : str) | TGrp (n : nat).

Fixpoint group (n : nat) (g : caps) : str :=
  match g with
  | [] => []
  | (m, t) :: g' => if (m =? n)%nat then t else group n g'
  end.

Definition expand (t : list titem) (g : caps) : str :=
  List.concat (List.map (fun it => match it with TLit s => s | TGrp n => group n g end) t).

Definition is_nil {A} (l : list A) : bool :=
  match l with [] => true | _ => false end.

(** The loop shared by [re.sub], [re.split] and [re.findall]: the list of
    (text before the match, match), and the text after the last match.  The
    next search starts where the match ended, and must advance when the match
    was empty. *)
Fixpoint scan (fuel : nat) (ic : bool) (r : regex) (i : nat) (s : str) (adv : bool)
    : list (str * mtch) * str :=
  match fuel with
  | O => ([], s)
  | S fuel' =>
      match search_from ic r i s adv with
      | None => ([], s)
      | Some (pre, m) =>
          let i' := (i + List.length pre + List.length (m_text m))%nat in
          let '(ms, tl) := scan fuel' ic r i' (m_rest m) (is_nil (m_text m)) in
          ((pre, m) :: ms, tl)
      end
  end.

Definition matches (ic : bool) (r : regex) (s : str) : list (str * mtch) * str :=
  scan (2 + 2 * List.length s) ic r 0 s false.

(** [re.sub(r, t, s)] *)
Definition re_sub (ic : bool) (r : regex) (t : list titem) (s : str) : str :=
  let '(ms, tl) := matches ic r s in
  List.concat (List.map (fun pm => fst pm ++ expand t (m_caps (snd pm))) ms) ++ tl.

(** [re.split(r, s)] for a pattern without groups *)
Definition re_split (ic : bool) (r : regex) (s : str) : list str :=
  let '(ms, tl) := matches ic r s in
  List.map fst ms ++ [tl].

(** [re.findall(r, s)] for a pattern with one group *)
Definition re_findall (ic : bool) (r : regex) (s : str) : list str :=
  let '(ms, _) := matches ic r s in
  List.map (fun pm => group 1 (m_caps (snd pm))) ms.

(** ** The patterns of [genre_script.py] and [rock_network.py] *)

Module Pat.
Open Scope regex_scope.

Definition dquote : char := 34%N.

(** [\[\[(?:[^|\]]*\|)?([^\]]+)\]\]] *)
Definition wiki_link : regex :=
  Lit "[[" ⋅ Opt (Star true (NoneOf "|]") ⋅ Chr "|") ⋅ Grp 1 (Plus true (NoneOf "]")) ⋅ Lit "]]".

(** [[\[\]]] *)
Definition brackets : regex := Cls (OneOf "[]").

(** [<ref[^>]*>.*?</ref>] with DOTALL *)
Definition ref_pair : regex :=
  Lit "<ref" ⋅ Star true (NoneOf ">") ⋅ Chr ">" ⋅ Star false Any ⋅ Lit "</ref>".

(** [<ref[^>]*/>] *)
Definition ref_self : regex := Lit "<ref" ⋅ Star true (NoneOf ">") ⋅ Lit "/>".

(** [<ref[^>]*>] *)
Definition ref_open : regex := Lit "<ref" ⋅ Star true (NoneOf ">") ⋅ Chr ">".

(** [<!--.*?-->] with DOTALL *)
Definition comment : regex := Lit "<!--" ⋅ Star false Any ⋅ Lit "-->".

(** [https?://[^\s]+] *)
Definition url_http : regex := Lit "http" ⋅ Opt (Chr "s") ⋅ Lit "://" ⋅ Plus true NotSpace.

(** [www\.[^\s]+] *)
Definition url_www : regex := Lit "www." ⋅ Plus true NotSpace.

(** the class of line 31: both braces, the double quote, the quote and the
    backquote *)
Definition braces_quotes : regex :=
  Cls (OneOf ((ch "{") :: (ch "}") :: dquote :: (ch "'") :: (ch "`") :: [])).

(** [^\{\{[^|]*\|?] *)
Definition template_head : regex := Bol ⋅ Lit "{{" ⋅ Star true (NoneOf "|") ⋅ Opt (Chr "|").

(** [\}\}$] *)
Definition template_tail : regex := Lit "}}" ⋅ Eol.

(** [\{\{nowrap\|([^}]+)\}\}] with IGNORECASE *)
Definition nowrap : regex := Lit "{{nowrap|" ⋅ Grp 1 (Plus true (NoneOf "}")) ⋅ Lit "}}".

(** [flatlist|hlist|flat list|unbulleted list|plainlist] *)
Definition list_names : regex :=
  Lit "flatlist" ∣ Lit "hlist" ∣ Lit "flat list" ∣ Lit "unbulleted list" ∣ Lit "plainlist".

(** [\{\{(flatlist|hlist|flat list|unbulleted list|plainlist)] with IGNORECASE *)
Definition list_template : regex := Lit "{{" ⋅ Grp 1 list_names.

(** [\{\{(?:flatlist|hlist|flat list|unbulleted list|plainlist)[^{]*] with IGNORECASE *)
Definition list_template_head : regex := Lit "{{" ⋅ list_names ⋅ Star true (NoneOf "{").

(** [\*+] *)
Definition stars : regex := Plus true (OneOf "*").

(** [\|] *)
Definition bar : regex := Chr "|".

(** [\(.*(?:early|later|late|mid).*\)] with IGNORECASE *)
Definition paren_era : regex :=
  Chr "(" ⋅ Star true Dot ⋅ (Lit "early" ∣ Lit "later" ∣ Lit "late" ∣ Lit "mid")
  ⋅ Star true Dot ⋅ Chr ")".

(** [\([^)]*\)] *)
Definition paren : regex := Chr "(" ⋅ Star true (NoneOf ")") ⋅ Chr ")".

(** [<br\s*/?>] with IGNORECASE *)
Definition br : regex := Lit "<br" ⋅ Star true Space ⋅ Opt (Chr "/") ⋅ Chr ">".

Definition bullet : char := 8226%N.
Definition middle_dot : char := 183%N.

(** [[,;/\n•·|]] *)
Definition delims : regex :=
  Cls (OneOf (ch "," :: ch ";" :: ch "/" :: newline :: bullet :: middle_dot :: ch "|" :: [])).

(** [\{\{Infobox[^{]*] with DOTALL and IGNORECASE *)
Definition infobox : regex := Lit "{{Infobox" ⋅ Star true (NoneOf "{").

(** [\s*\|\s*genres?\s*=] with IGNORECASE *)
Definition genre_start : regex :=
  Star true Space ⋅ Chr "|" ⋅ Star true Space ⋅ Lit "genre" ⋅ Opt (Chr "s")
  ⋅ Star true Space ⋅ Chr "=".

(** [^\s*\|\s*genres?\s*=\s*] with IGNORECASE *)
Definition genre_prefix : regex := Bol ⋅ genre_start ⋅ Star true Space.

(** [\s*\([^)]*\)\s*$] *)
Definition name_suffix : regex :=
  Star true Space ⋅ Chr "(" ⋅ Star true (NoneOf ")") ⋅ Chr ")" ⋅ Star true Space ⋅ Eol.

(** [\[\[([^\[\]|]+?)(?:\|[^\[\]]+)?\]\]] *)
Definition link : regex :=
  Lit "[[" ⋅ Grp 1 (Plus false (NoneOf "[]|")) ⋅ Opt (Chr "|" ⋅ Plus true (NoneOf "[]"))
  ⋅ Lit "]]".

End Pat.

(** ** [genre_script.py] *)

Definition rock_variations : list (str * str) :=
  [ ("rock 'n' roll" : str, "rock and roll" : str);
    ("rock n roll" : str, "rock and roll" : str);
    ("rock'n'roll" : str, "rock and roll" : str);
    ("rock & roll" : str, "rock and roll" : str);
    ("rock n' roll" : str, "rock and roll" : str) ].

(** The loop [for variant, standard in rock_variations.items()]. *)
Definition standardize (genre : str) : str :=
  fold_left (fun g vs => if str_eqb g (fst vs) then snd vs else g) rock_variations genre.

Definition normalize_genre (genre : str) : str :=
  let genre := strip (lower genre) in
  let genre := re_sub false Pat.wiki_link [TGrp 1] genre in
  let genre := re_sub false Pat.brackets [] genre in
  let genre := re_sub false Pat.ref_pair [] genre in
  let genre := re_sub false Pat.ref_self [] genre in
  let genre := re_sub false Pat.ref_open [] genre in
  let genre := re_sub false Pat.comment [] genre in
  let genre := re_sub false Pat.url_http [] genre in
  let genre := re_sub false Pat.url_www [] genre in
  let genre := re_sub false Pat.braces_quotes [] genre in
  let genre := standardize genre in
  let genre := join " " (words genre) in
  strip genre.

(** The depth-counting loops [for i, char in enumerate(...)]: the index at
    which the depth returns to zero and the loop breaks, if it does. *)
Fixpoint brace_scan (open close : char) (s : str) (depth : Z) (i : nat) : option nat :=
  match s with
  | [] => None
  | c :: s' =>
      if char_eqb c open then brace_scan open close s' (depth + 1) (S i)
      else if char_eqb c close then
        if (depth - 1 =? 0)%Z then Some i
        else brace_scan open close s' (depth - 1) (S i)
      else brace_scan open close s' depth (S i)
  end.

(** [text[a:b]] for [0 <= a] *)
Definition slice (s : str) (a b : nat) : str := firstn (b - a) (skipn a s).

Definition extract_nested_content (text : str) (open_char close_char : char) : str :=
  if negb (contains [open_char] text) then text
  else
    match find_char open_char text with
    | None => text
    | Some start_idx =>
        match brace_scan open_char close_char (skipn start_idx text) 0 start_idx with
        | Some i => slice text start_idx (i + 1)
        | None => text
        end
    end.

Definition skip_terms : list str :=
  [ "music" : str; "band" : str; "group" : str; "" : str; "cite web" : str;
    "cite book" : str; "first" : str; "last" : str; "url" : str; "title" : str;
    "ref" : str; "name" : str; "am" : str; "allmusic" : str; "www" : str;
    "com" : str; "http" : str; "https" : str; "ref name" : str; "work" : str;
    "date" : str; "publisher" : str; "website" : str; "access-date" : str;
    "archive-date" : str; "archive-url" : str; "page" : str; "isbn" : str;
    "year" : str; "citation" : str; "url-status" : str; "live" : str;
    "rock music" : str; "rock" : str ].

(** One item of a list template (lines 132-149): the label it contributes. *)
Definition list_item (item : str) : option str :=
  let item := strip item in
  if is_nil item then None
  else
    let item := re_sub false Pat.wiki_link [TGrp 1] item in
    let item := re_sub true Pat.nowrap [TGrp 1] item in
    let item :=
      if contains "(" item then
        match re_search true Pat.paren_era item with
        | Some _ => item
        | None => re_sub false Pat.paren [] item
        end
      else item in
    let item := strip item in
    if negb (is_nil item) && negb (startswith "<!--" item) then Some item else None.

(** The list-template branch (lines 100-149). *)
Definition list_branch (genre_text : str) : list str :=
  match re_search true Pat.list_template_head genre_text with
  | None => []
  | Some (pre, _) =>
      let template_start := List.length pre in
      let template_text := skipn template_start genre_text in
      match brace_scan "{" "}" template_text 0 0 with
      | None => []                                   (* end_pos stays 0 *)
      | Some i =>
          let end_pos := S i in
          let template_content := firstn end_pos template_text in
          let template_content := re_sub false Pat.template_head [] template_content in
          let template_content := re_sub false Pat.template_tail [] template_content in
          let items :=
            if contains "*" template_content
            then re_split false Pat.stars template_content
            else re_split false Pat.bar template_content in
          omap list_item items
      end
  end.

(** One piece of a plain field (lines 158-169). *)
Definition plain_item (genre : str) : option str :=
  let genre := strip genre in
  let genre :=
    if contains "[[" genre then re_sub false Pat.wiki_link [TGrp 1] genre else genre in
  if is_nil genre || startswith "{{" genre || startswith "<!--" genre
     || startswith "<ref" genre
  then None else Some genre.

(** The plain branch (lines 151-169). *)
Definition plain_branch (genre_text : str) : list str :=
  let genre_text := re_sub true Pat.br [TLit ","] genre_text in
  omap plain_item (re_split false Pat.delims genre_text).

(** Lines 83-95: comments, references, the leading template name and the
    trailing braces are removed, [nowrap] is unwrapped. *)
Definition prepare (genre_text : str) : str :=
  let genre_text := re_sub false Pat.comment [] genre_text in
  let genre_text := re_sub false Pat.ref_pair [] genre_text in
  let genre_text := re_sub false Pat.ref_self [] genre_text in
  let genre_text := re_sub false Pat.template_head [] genre_text in
  let genre_text := re_sub false Pat.template_tail [] genre_text in
  re_sub true Pat.nowrap [TGrp 1] genre_text.

(** The test of line 98. *)
Definition is_list_template (genre_text : str) : bool :=
  match re_search true Pat.list_template genre_text with Some _ => true | None => false end.

(** Lines 80-169: the raw labels. *)
Definition raw_genres (genre_text : str) : list str :=
  let genre_text := prepare genre_text in
  if is_list_template genre_text then list_branch genre_text
  else plain_branch genre_text.

(** Lines 176-178. *)
Definition clean_label (genre : str) : str :=
  normalize_genre (strip (remove_char "*" genre)).

(** The tests of lines 191 and 193. *)
Definition keep (normalized : str) : bool :=
  negb (is_nil normalized) && (1 <? List.length normalized)%nat
  && negb (mem normalized skip_terms)
  && negb (contains "ref" normalized) && negb (contains "cite" normalized)
  && negb (contains "." normalized).

(** The body of the loop of lines 173-195 on the accumulator
    [normalized_genres]. *)
Definition add_genre (normalized_genres : list str) (genre : str) : list str :=
  let normalized := clean_label genre in
  if keep normalized && negb (mem normalized normalized_genres)
  then normalized_genres ++ [normalized]
  else normalized_genres.

Definition parse_genre_field (genre_text : str) : list str :=
  fold_left add_genre (raw_genres genre_text) [].

(** The state of the line loop of [extract_genres_from_infobox]. *)
Record field_state := {
  genre_content : list str;
  in_genre_field : bool;
  bracket_depth : Z
}.

Definition brace_delta (line : str) : Z := (count "{" line - count "}" line)%Z.

(** Lines 237-253; the [break] returns the state as it is. *)
Fixpoint field_loop (lines : list str) (st : field_state) : field_state :=
  match lines with
  | [] => st
  | line :: rest =>
      if re_match true Pat.genre_start line then
        let genre_line := re_sub true Pat.genre_prefix [] line in
        field_loop rest
          {| genre_content := genre_content st ++ [genre_line];
             in_genre_field := true;
             bracket_depth := brace_delta genre_line |}
      else if in_genre_field st then
        if startswith "|" (strip line) && (bracket_depth st =? 0)%Z then
          {| genre_content := genre_content st;
             in_genre_field := false;
             bracket_depth := bracket_depth st |}
        else
          field_loop rest
            {| genre_content := genre_content st ++ [line];
               in_genre_field := true;
               bracket_depth := (bracket_depth st + brace_delta line)%Z |}
      else field_loop rest st
  end.

Definition initial_field_state : field_state :=
  {| genre_content := []; in_genre_field := false; bracket_depth := 0 |}.

(** Lines 204-227: the infobox, from its opening braces to the brace that
    closes it, or to the end of the text. *)
Definition infobox_text (text : str) : option str :=
  match re_search true Pat.infobox text with
  | None => None
  | Some (pre, _) =>
      let infobox_start := List.length pre in
      let text_from_start := skipn infobox_start text in
      let infobox_end :=
        match brace_scan "{" "}" text_from_start 0 0 with
        | Some i => S i
        | None => List.length text_from_start
        end in
      Some (firstn infobox_end text_from_start)
  end.

(** Lines 229-253: the lines of the genre field. *)
Definition genre_field_lines (infobox : str) : list str :=
  genre_content (field_loop (split_char newline infobox) initial_field_state).

Definition extract_genres_from_infobox (text : str) : option (list str) :=
  match infobox_text text with
  | None => None
  | Some infobox =>
      let genre_content := genre_field_lines infobox in
      if is_nil genre_content then None
      else
        let genre_text := join [newline] genre_content in
        let genres := parse_genre_field genre_text in
        if is_nil genres then None else Some genres
  end.

(** [s.rfind(c)] as an integer, -1 when [c] is absent *)
Definition rfind_char (c : char) (s : str) : Z :=
  match find_char c (rev s) with
  | Some k => (Z.of_nat (List.length s) - 1 - Z.of_nat k)%Z
  | None => (-1)%Z
  end.

(** [os.path.splitext] of [posixpath]: the extension starts at the last dot
    of the last path component, unless only dots precede it there. *)
Definition splitext (p : str) : str * str :=
  let sepIndex := rfind_char "/" p in
  let dotIndex := rfind_char "." p in
  if (sepIndex <? dotIndex)%Z
     && existsb (fun c => negb (char_eqb c "."))
          (slice p (Z.to_nat (sepIndex + 1)) (Z.to_nat dotIndex))
  then (firstn (Z.to_nat dotIndex) p, skipn (Z.to_nat dotIndex) p)
  else (p, []).

Definition extract_artist_name_from_filename (filename : str) : str :=
  let name := fst (splitext filename) in
  let name := replace_char "_" " " name in
  let name := re_sub false Pat.name_suffix [] name in
  strip name.

(** The accumulators of [process_wiki_files]. *)
Record batch := {
  artist_genres : gmap (list char) (list (list char));
  success_count : nat;
  failure_count : nat
}.

(** One [.txt] file of the folder: its name and what reading it gives,
    [None] when the read raises. *)
Definition file := (str * option str)%type.

(** The body of the loop of lines 301-323. *)
Definition process_file (b : batch) (f : file) : batch :=
  match snd f with
  | None =>
      {| artist_genres := artist_genres b;
         success_count := success_count b;
         failure_count := S (failure_count b) |}
  | Some content =>
      let artist_name := extract_artist_name_from_filename (fst f) in
      match extract_genres_from_infobox content with
      | Some genres =>
          {| artist_genres := <[artist_name := genres]> (artist_genres b);
             success_count := S (success_count b);
             failure_count := failure_count b |}
      | None =>
          {| artist_genres := artist_genres b;
             success_count := success_count b;
             failure_count := S (failure_count b) |}
      end
  end.

Definition process_wiki_files (txt_files : list file) : gmap (list char) (list (list char)) :=
  artist_genres
    (fold_left process_file txt_files
       {| artist_genres := ∅; success_count := 0; failure_count := 0 |}).

(** *** The loop of [process_wiki_files] with its counters *)

(** The state of the loop of [process_wiki_files] when it ends: the mapping
    with the two counters that are printed. *)
Definition run_batch (txt_files : list file) : batch :=
  fold_left process_file txt_files
    {| artist_genres := ∅; success_count := 0; failure_count := 0 |}.

(** *** The summary of the main block (lines 346-362) *)

(** [artist_genre_dict.values()].  What is computed from the values below
    does not depend on their order. *)
Definition dict_values (d : gmap (list char) (list (list char))) : list (list str) :=
  List.map snd (map_to_list d).

(** Lines 347-349: [all_genres.update(genres)] for each value. *)
Definition all_genres (d : gmap (list char) (list (list char))) : gset (list char) :=
  fold_left (fun s genres => s ∪ list_to_set genres) (dict_values d) ∅.

(** A [Counter]: a missing key counts zero. *)
Definition counter_get (c : gmap (list char) nat) (x : str) : nat :=
  default 0%nat (c !! x).

(** [Counter.update(l)]: one more for each element of [l]. *)
Definition counter_update (c : gmap (list char) nat) (l : list str)
    : gmap (list char) nat :=
  fold_left (fun c x => <[x := S (counter_get c x)]> c) l c.

(** Lines 356-358: [genre_counter.update(genres)] for each value. *)
Definition genre_counter (d : gmap (list char) (list (list char)))
    : gmap (list char) nat :=
  fold_left counter_update (dict_values d) ∅.

(** ** [rock_network.py] *)

(** The body of the loop of lines 36-40 of [extract_wiki_links]. *)
Definition clean_link (m : str) : option str :=
  let link := strip (hd [] (split_char "#" m)) in
  if is_nil link then None else Some link.

Definition extract_wiki_links (text : str) : list str :=
  omap clean_link (re_findall false Pat.link text).

(** A [networkx.DiGraph]: the nodes in insertion order, the directed edges
    and the [word_count] attribute of the nodes that have one. *)
Record digraph := {
  g_nodes : list str;
  g_edges : list (str * str);
  g_word_count : gmap (list char) nat
}.

(** [G.degree(n)]: in-degree plus out-degree, a self-loop counting twice. *)
Definition degree (g : digraph) (n : str) : nat :=
  List.length (List.filter (fun e => str_eqb (fst e) n) (g_edges g))
  + List.length (List.filter (fun e => str_eqb (snd e) n) (g_edges g)).

(** [nx.isolates(G)] *)
Definition isolates (g : digraph) : list str :=
  List.filter (fun n => (degree g n =? 0)%nat) (g_nodes g).

(** [G.remove_nodes_from(ns)]: the nodes go with their edges and attributes. *)
Definition remove_nodes_from (ns : list str) (g : digraph) : digraph :=
  {| g_nodes := List.filter (fun n => negb (mem n ns)) (g_nodes g);
     g_edges := List.filter (fun e => negb (mem (fst e) ns) && negb (mem (snd e) ns)) (g_edges g);
     g_word_count := filter (fun kv => mem (fst kv) ns = false) (g_word_count g) |}.

(** [G.subgraph(ns).copy()]: the graph induced on [ns], as a new graph. *)
Definition subgraph (ns : list str) (g : digraph) : digraph :=
  {| g_nodes := List.filter (fun n => mem n ns) (g_nodes g);
     g_edges := List.filter (fun e => mem (fst e) ns && mem (snd e) ns) (g_edges g);
     g_word_count := filter (fun kv => mem (fst kv) ns = true) (g_word_count g) |}.

(** Joining the classes of [u] and [v]: the one that comes first takes the
    nodes of the other. *)
Fixpoint merge (u v : str) (cs : list (list str)) : list (list str) :=
  match cs with
  | [] => []
  | c :: cs' =>
      if mem u c || mem v c then
        if mem u c && mem v c then c :: cs'
        else
          (c ++ List.concat (List.filter (fun d => mem u d || mem v d) cs'))
          :: List.filter (fun d => negb (mem u d || mem v d)) cs'
      else c :: merge u v cs'
  end.

(** [nx.weakly_connected_components(G)]: the classes of the nodes under the
    edges taken without direction, in the order of their first nodes. *)
Definition weakly_connected_components (g : digraph) : list (list str) :=
  fold_left (fun cs e => merge (fst e) (snd e) cs) (g_edges g)
    (List.map (fun n => [n]) (g_nodes g)).

(** [max(components, key=len)]: the first of the longest, [None] for the
    ValueError on an empty sequence. *)
Fixpoint max_by_len (l : list (list str)) : option (list str) :=
  match l with
  | [] => None
  | c :: l' =>
      match max_by_len l' with
      | None => Some c
      | Some d => if (List.length c <? List.length d)%nat then Some d else Some c
      end
  end.

(** Graph objects live in a heap and are passed by reference. *)
Inductive outcome :=
| Returned (G_largest : nat)
| RaisedValueError.

(** [clean_network(G)] on the heap [h]; [None] when [G] is not a graph of
    [h]. *)
Definition clean_network (G : nat) (h : gmap nat digraph)
    : option (outcome * gmap nat digraph) :=
  match h !! G with
  | None => None
  | Some g =>
      let isolated := isolates g in
      let g1 := remove_nodes_from isolated g in
      let h1 := <[G := g1]> h in
      let components := weakly_connected_components g1 in
      match max_by_len components with
      | None => Some (RaisedValueError, h1)
      | Some largest_component =>
          let G_largest := fresh (dom h1) in
          Some (Returned G_largest, <[G_largest := subgraph largest_component g1]> h1)
      end
  end.

(** *** The loaders and the graph builder

    A text file is the text that reading it gives, its line ends already
    turned into newlines; a directory is the list of its entries, each a
    name with the text of the file; a [dict] whose order matters is the list
    of its items, no key twice. *)

(** Iterating over a text file: the lines, each with its newline when it
    has one. *)
Fixpoint file_lines_go (cur : str) (s : str) : list str :=
  match s with
  | [] => match cur with [] => [] | _ => [rev cur] end
  | c :: s' =>
      if char_eqb c newline then rev (c :: cur) :: file_lines_go [] s'
      else file_lines_go (c :: cur) s'
  end.

Definition file_lines (content : str) : list str := file_lines_go [] content.

(** [load_artist_list], on the content of the file. *)
Definition load_artist_list (content : str) : list str :=
  List.map strip
    (List.filter (fun line => negb (is_nil (strip line))) (file_lines content)).

(** [s.endswith(p)] *)
Definition endswith (p s : str) : bool := startswith (rev p) (rev s).

(** A [dict] with its insertion order: [d[k] = v] and [d.get(k)]. *)
Fixpoint dict_set {V} (k : str) (v : V) (d : list (str * V)) : list (str * V) :=
  match d with
  | [] => [(k, v)]
  | (k', v') :: d' =>
      if str_eqb k' k then (k', v) :: d' else (k', v') :: dict_set k v d'
  end.

Fixpoint dict_get {V} (k : str) (d : list (str * V)) : option V :=
  match d with
  | [] => None
  | (k', v') :: d' => if str_eqb k' k then Some v' else dict_get k d'
  end.

(** [load_wiki_pages], on the listing of the directory in the order of
    [os.listdir]. *)
Definition load_wiki_pages (listing : list (str * str)) : list (str * str) :=
  fold_left
    (fun wiki_data fc =>
       if endswith ".txt" (fst fc)
       then dict_set (firstn (List.length (fst fc) - 4) (fst fc)) (snd fc) wiki_data
       else wiki_data)
    listing [].

(** [s.replace(old, new)] for a non-empty [old]: the occurrences of [old]
    from left to right, without overlap.  [skip] counts the characters of an
    occurrence that are still to be passed. *)
Fixpoint replace_go (old new s : str) (skip : nat) : str :=
  match s with
  | [] => []
  | c :: s' =>
      match skip with
      | S k => replace_go old new s' k
      | O =>
          if startswith old s then new ++ replace_go old new s' (List.length old - 1)
          else c :: replace_go old new s' 0
      end
  end.

Definition replace (old new s : str) : str := replace_go old new s 0.

(** The three characters of the second literal of line 58: the a with a
    circumflex, the euro sign and the left double quotation mark. *)
Definition mojibake_dash : str := [226; 8364; 8220]%N.

(** Lines 51-60: the spellings under which an artist is looked up. *)
Definition add_variations (artist_variations : gmap (list char) (list char)) (artist : str)
    : gmap (list char) (list char) :=
  let artist_variations := <[artist := artist]> artist_variations in
  let artist_variations := <[replace_char " " "_" artist := artist]> artist_variations in
  let sanitized := replace mojibake_dash "-" (replace_char "/" "_" artist) in
  let artist_variations := <[sanitized := artist]> artist_variations in
  <[replace_char " " "_" sanitized := artist]> artist_variations.

Definition artist_variations_of (artist_list : list str) : gmap (list char) (list char) :=
  fold_left add_variations artist_list ∅.

(** [G.add_node(n)] *)
Definition add_node (n : str) (g : digraph) : digraph :=
  if mem n (g_nodes g) then g
  else {| g_nodes := g_nodes g ++ [n];
          g_edges := g_edges g;
          g_word_count := g_word_count g |}.

Definition has_edge (g : digraph) (u v : str) : bool :=
  existsb (fun e => str_eqb (fst e) u && str_eqb (snd e) v) (g_edges g).

(** [G.add_edge(u, v)]: the nodes are added when they are new. *)
Definition add_edge (u v : str) (g : digraph) : digraph :=
  let g := add_node v (add_node u g) in
  if has_edge g u v then g
  else {| g_nodes := g_nodes g;
          g_edges := g_edges g ++ [(u, v)];
          g_word_count := g_word_count g |}.

(** [G.nodes[n]['word_count'] = w]: [None] for the KeyError on a node that
    the graph does not have. *)
Definition set_word_count (n : str) (w : nat) (g : digraph) : option digraph :=
  if mem n (g_nodes g)
  then Some {| g_nodes := g_nodes g;
               g_edges := g_edges g;
               g_word_count := <[n := w]> (g_word_count g) |}
  else None.

(** Lines 75-81: the artist of a file name, if one of its spellings is
    known. *)
Definition source_artist_of (artist_variations : gmap (list char) (list char))
    (filename : str) : option str :=
  match artist_variations !! filename with
  | Some a => Some a
  | None => artist_variations !! (replace_char "_" " " filename)
  end.

(** The body of the loop of lines 92-100 on the pair of [artist_links] and
    the graph. *)
Definition add_link (artist_list : list str) (source_artist : str)
    (st : list str * digraph) (link : str) : list str * digraph :=
  if mem link artist_list then
    (fst st ++ [link], add_edge source_artist link (snd st))
  else if mem (replace_char "_" " " link) artist_list then
    let target := replace_char "_" " " link in
    (fst st ++ [target], add_edge source_artist target (snd st))
  else st.

(** The graph and [links_found]. *)
Record network := {
  net_graph : digraph;
  links_found : gmap (list char) (list (list char))
}.

(** The body of the loop of lines 73-108; [None] when the attribute
    assignment raises. *)
Definition add_page (artist_list : list str)
    (artist_variations : gmap (list char) (list char))
    (net : network) (page : str * str) : option network :=
  match source_artist_of artist_variations (fst page) with
  | None => Some net                                  (* the warning, [continue] *)
  | Some source_artist =>
      if is_nil source_artist then Some net           (* an empty name is falsy *)
      else
        let all_links := extract_wiki_links (snd page) in
        let '(artist_links, G) :=
          fold_left (add_link artist_list source_artist) all_links ([], net_graph net) in
        let word_count := List.length (words (snd page)) in
        match set_word_count source_artist word_count G with
        | None => None
        | Some G =>
            Some {| net_graph := G;
                    links_found := <[source_artist := artist_links]> (links_found net) |}
        end
  end.

Fixpoint add_pages (artist_list : list str)
    (artist_variations : gmap (list char) (list char))
    (net : network) (pages : list (str * str)) : option network :=
  match pages with
  | [] => Some net
  | page :: pages' =>
      match add_page artist_list artist_variations net page with
      | None => None
      | Some net' => add_pages artist_list artist_variations net' pages'
      end
  end.

(** [build_artist_network(artist_list, wiki_data)], [wiki_data] given by its
    items in order. *)
Definition build_artist_network (artist_list : list str) (wiki_data : list (str * str))
    : option network :=
  let artist_variations := artist_variations_of artist_list in
  let G :=
    fold_left (fun g artist => add_node artist g) artist_list
      {| g_nodes := []; g_edges := []; g_word_count := ∅ |} in
  add_pages artist_list artist_variations
    {| net_graph := G; links_found := ∅ |} wiki_data.

(** Lines 133-151 of [main]: the artist list and the pages are loaded, the
    network is built and cleaned.  [None] stands for an exception of
    [build_artist_network]; the graph that is built is object 0 of the
    heap. *)
Definition main (artists_file : str) (listing : list (str * str))
    : option (outcome * gmap nat digraph) :=
  let artists := load_artist_list artists_file in
  let wiki_data := load_wiki_pages listing in
  match build_artist_network artists wiki_data with
  | None => None
  | Some net => clean_network 0 {[ 0%nat := net_graph net ]}
  end.

(** ** Reference definitions for the statements *)

(** The field locator as section 4.3 of the specification words it: capture
    starts at the first line that opens the field, and goes on until a line
    begins with a bar at depth zero.  With [restart], a later line that opens
    the field again restarts the capture, as the loop of the program does. *)
Definition opens_genre (line : str) : bool := re_match true Pat.genre_start line.

Definition after_equals (line : str) : str := re_sub true Pat.genre_prefix [] line.

Definition begins_with_bar (line : str) : bool := startswith "|" (strip line).

Fixpoint capture (restart : bool) (depth : Z) (lines : list str) : list str :=
  match lines with
  | [] => []
  | l :: ls =>
      if restart && opens_genre l then
        after_equals l :: capture restart (brace_delta (after_equals l)) ls
      else if begins_with_bar l && (depth =? 0)%Z then []
      else l :: capture restart (depth + brace_delta l) ls
  end.

Fixpoint locate (restart : bool) (lines : list str) : list str :=
  match lines with
  | [] => []
  | l :: ls =>
      if opens_genre l
      then after_equals l :: capture restart (brace_delta (after_equals l)) ls
      else locate restart ls
  end.

(** The entries of [l] at their first occurrence, [seen] being what came
    before. *)
Fixpoint first_occurrences (seen l : list str) : list str :=
  match l with
  | [] => []
  | x :: l' =>
      if mem x seen then first_occurrences seen l'
      else x :: first_occurrences (x :: seen) l'
  end.

(** The depth counter after the characters of [s]. *)
Definition depth_of (open close : char) (s : str) : Z :=
  (count open s - count close s)%Z.

(** The characters that the substitutions of [normalize_genre] look for:
    brackets, the angle that opens a tag, braces, the quotes, and the colon
    and the dot of a URL. *)
Definition residue : str := "[]<{}'`:." ++ [Pat.dquote].

Definition is_plain (s : str) : bool :=
  forallb (fun c => negb (existsb (char_eqb c) residue)) s.

(** The rock-and-roll spellings that are free of quotes. *)
Definition bare_variants : list str := [ "rock n roll" : str; "rock & roll" : str ].

(** The depth counter is not zero after any non-empty prefix of [s]. *)
Definition never_closed (open close : char) (s : str) : bool :=
  forallb (fun n => negb (depth_of open close (firstn n s) =? 0)%Z)
    (seq 1 (List.length s)).

(** The depth counter as the loops count it, from [depth] on through the
    characters of [s]: an opening delimiter adds one, and any other
    character that is the closing delimiter takes one. *)
Fixpoint loop_depth (open close : char) (s : str) (depth : Z) : Z :=
  match s with
  | [] => depth
  | c :: s' =>
      loop_depth open close s'
        (if char_eqb c open then depth + 1
         else if char_eqb c close then depth - 1
         else depth)%Z
  end.

(** The counter of the loops is not zero after any non-empty prefix of
    [s]. *)
Definition never_returns (open close : char) (s : str) : bool :=
  forallb (fun n => negb (loop_depth open close (firstn n s) 0 =? 0)%Z)
    (seq 1 (List.length s)).

(** No line of the text opens the genre field. *)
Definition no_genre_line (s : str) : bool :=
  forallb (fun l => negb (opens_genre l)) (split_char newline s).

(** The pattern has no [^]: what it matches does not depend on the index. *)
Fixpoint bol_free (r : regex) : bool :=
  match r with
  | Bol => false
  | Cat r1 r2 | Alt r1 r2 => bol_free r1 && bol_free r2
  | Grp _ r => bol_free r
  | _ => true
  end.

(** A link target: not empty, without brackets and bars. *)
Definition target_ok (t : str) : bool :=
  negb (is_nil t) && forallb (fun c => negb (existsb (char_eqb c) "[]|")) t.

(** A display text: not empty, without brackets. *)
Definition display_ok (d : str) : bool :=
  negb (is_nil d) && forallb (fun c => negb (existsb (char_eqb c) "[]")) d.

(** The longest prefix of [s] whose characters satisfy [p], and what
    follows it. *)
Fixpoint span (p : char -> bool) (s : str) : str * str :=
  match s with
  | c :: s' => if p c then let '(a, b) := span p s' in (c :: a, b) else ([], s)
  | [] => ([], [])
  end.

(** The two closing brackets at the head of [s], and what follows them. *)
Definition closes (s : str) : option str :=
  match s with
  | a :: b :: rest => if char_eqb a "]" && char_eqb b "]" then Some rest else None
  | _ => None
  end.

(** A link at the head of the text: two opening brackets, a target that is
    not empty and runs up to the first bracket or bar, and then either the
    two closing brackets, or a bar, a display text that is not empty and
    runs up to the first bracket, and the two closing brackets.  The result
    is the target with the text after the link. *)
Definition link_at (s : str) : option (str * str) :=
  match s with
  | a :: b :: s1 =>
      if char_eqb a "[" && char_eqb b "[" then
        let '(t, s2) := span (fun c => negb (existsb (char_eqb c) "[]|")) s1 in
        if is_nil t then None
        else
          match closes s2 with
          | Some rest => Some (t, rest)
          | None =>
              match s2 with
              | c :: s3 =>
                  if char_eqb c "|" then
                    let '(d, s4) := span (fun c => negb (existsb (char_eqb c) "[]")) s3 in
                    if is_nil d then None
                    else match closes s4 with
                         | Some rest => Some (t, rest)
                         | None => None
                         end
                  else None
              | [] => None
              end
          end
      else None
  | _ => None
  end.

(** The targets of the links of a text, from left to right: a link at the
    head gives its target and is passed over whole, and where no link
    stands one character is passed over.  Every step shortens the text, so
    that a fuel above its length is never used up. *)
Fixpoint targets_from (fuel : nat) (s : str) : list str :=
  match fuel with
  | O => []
  | S fuel' =>
      match link_at s with
      | Some (t, rest) => t :: targets_from fuel' rest
      | None =>
          match s with
          | [] => []
          | _ :: s' => targets_from fuel' s'
          end
      end
  end.

Definition wiki_targets (text : str) : list str :=
  targets_from (S (List.length text)) text.

(** The target up to its first [#]. *)
Definition before_hash (t : str) : str :=
  fst (span (fun c => negb (char_eqb c "#")) t).

(** ** Predicates of the statements *)

(** Every captured group is made of characters that satisfy [P]. *)
Definition caps_ok (P : char -> Prop) (g : caps) : Prop :=
  Forall (fun c => Forall P (snd c)) g.

Definition piece_ok (P : char -> Prop) (pm : str * mtch) : Prop :=
  Forall P (fst pm) /\ Forall P (m_text (snd pm)) /\ caps_ok P (m_caps (snd pm)).

Definition titem_ok (P : char -> Prop) (it : titem) : Prop :=
  match it with TLit s => Forall P s | TGrp _ => True end.

Definition no_upper (s : str) : Prop := Forall (fun c => is_upper c = false) s.

(** A word: not empty and free of white space. *)
Definition word (w : str) : Prop := w <> [] /\ Forall (fun c => is_space c = false) w.

(** No white space at either end. *)
Definition trimmed (s : str) : Prop :=
  (forall c s', s = c :: s' -> is_space c = false)
  /\ (forall s' c, s = s' ++ [c] -> is_space c = false).

(** [l] is [s] without the white space at its two ends. *)
Definition stripped_of (s l : str) : Prop :=
  exists a b,
    s = a ++ l ++ b
    /\ Forall (fun c => is_space c = true) a
    /\ Forall (fun c => is_space c = true) b
    /\ trimmed l.

Definition plain (s : str) : Prop := Forall (fun c => ~ In c residue) s.

(** The invariant of a stored genre list. *)
Definition canonical (gs : list str) : Prop :=
  List.NoDup gs /\ Forall (fun g => g <> [] /\ lower g = g /\ ~ In g skip_terms) gs.

(** What the scan loop has left to do: a bound on the fuel it needs. *)
Definition scan_measure (s : str) (adv : bool) : nat :=
  (2 * List.length s + (if adv then 0 else 1))%nat.

(** ** Reference definitions and predicates for the loaders, the batch and
    the network *)

(** An artist name that a file name can carry: not empty, without
    underscore, dot, slash and opening parenthesis. *)
Definition simple_name (s : str) : bool :=
  negb (is_nil s) && forallb (fun c => negb (existsb (char_eqb c) "_./(")) s.

(** The characters that [normalize_genre] removes wherever they stand:
    brackets, braces and the three quotes. *)
Definition markup_chars : str := "[]{}'`" ++ [Pat.dquote].

(** A file that is read and in which genres are found. *)
Definition succeeds (f : file) : bool :=
  match snd f with
  | Some content =>
      match extract_genres_from_infobox content with Some _ => true | None => false end
  | None => false
  end.

(** [l.count(x)] for a list of strings *)
Definition occurrences (x : str) (l : list str) : nat :=
  List.length (List.filter (str_eqb x) l).

(** The entry a [.txt] file gives: its name without the extension, and its
    content. *)
Definition page_of (fc : str * str) : str * str :=
  (firstn (List.length (fst fc) - 4) (fst fc), snd fc).

(** A graph as networkx keeps it: no node twice, and every edge between
    nodes of the graph. *)
Definition graph_ok (g : digraph) : Prop :=
  List.NoDup (g_nodes g)
  /\ Forall (fun e => In (fst e) (g_nodes g) /\ In (snd e) (g_nodes g)) (g_edges g).

(** What the loops of [build_artist_network] keep true of the graph: its
    nodes are the artists of the list, and its edges, each held once, join
    artists of the list. *)
Definition graph_inv (artist_list : list str) (g : digraph) : Prop :=
  g_nodes g = first_occurrences [] artist_list
  /\ Forall (fun e => In (fst e) artist_list /\ In (snd e) artist_list) (g_edges g)
  /\ List.NoDup (g_edges g).

(** What the loop over the pages keeps true of the graph and of
    [links_found]. *)
Definition network_inv (artist_list : list str) (net : network) : Prop :=
  graph_inv artist_list (net_graph net)
  /\ (forall a links, links_found net !! a = Some links ->
        In a artist_list /\ a <> []
        /\ Forall (fun l => In l artist_list /\ In (a, l) (g_edges (net_graph net))) links)
  /\ dom (g_word_count (net_graph net)) = dom (links_found net).

(** Two nodes that one class of [cs] holds. *)
Definition same_class (cs : list (list str)) (x y : str) : Prop :=
  exists c, In c cs /\ In x c /\ In y c.

(** Two nodes joined by a chain of edges taken without direction. *)
Inductive linked (es : list (str * str)) : str -> str -> Prop :=
| linked_refl x : linked es x x
| linked_step x y z :
    In (x, y) es \/ In (y, x) es -> linked es y z -> linked es x z.

(** The pattern has no group: what it matches leaves the captures as they
    are. *)
Fixpoint no_grp (r : regex) : bool :=
  match r with
  | Grp _ _ => false
  | Cat r1 r2 | Alt r1 r2 => no_grp r1 && no_grp r2
  | _ => true
  end.

(** Lines 94-100: the artist a link points to, if any: the link itself when
    it is a name of the list, else the link with spaces for underscores when
    that is one. *)
Definition link_target (artist_list : list str) (link : str) : option str :=
  if mem link artist_list then Some link
  else if mem (replace_char "_" " " link) artist_list
       then Some (replace_char "_" " " link)
       else None.

(** The delimiters of line 156. *)
Definition is_delim (c : char) : bool :=
  existsb (char_eqb c)
    (ch "," :: ch ";" :: ch "/" :: newline :: Pat.bullet :: Pat.middle_dot :: ch "|" :: []).

(** The pieces of [s] between the characters that satisfy [p]: never the
    empty list. *)
Fixpoint split_where (p : char -> bool) (s : str) : list str :=
  match s with
  | [] => [[]]
  | x :: s' =>
      if p x then [] :: split_where p s'
      else match split_where p s' with
           | w :: ws => (x :: w) :: ws
           | [] => [[x]]
           end
  end.

(** What a field must not hold to count as a plain list of labels: the
    angle that opens a tag, braces and the opening bracket. *)
Definition field_markup : str := "<{}[".

Definition simple_field (s : str) : bool :=
  forallb (fun c => negb (existsb (char_eqb c) field_markup)) s.

(** The labels of a plain field: the pieces between delimiters, stripped,
    the blank ones left out. *)
Definition plain_labels (s : str) : list str :=
  List.filter (fun a => negb (is_nil a)) (List.map strip (split_where is_delim s)).

(** A text without the characters of [field_markup]. *)
Definition no_markup (s : str) : Prop := Forall (fun c => ~ In c field_markup) s.

(** ** Example documents *)

(** An infobox that names the genre field twice. *)
Definition punk_then_ska : str :=
  "{{Infobox musical artist
| genre = Punk
| genres = Ska
| born = 1970
}}".

(** An infobox without a genre field, and one whose labels are all skip
    terms. *)
Definition infobox_without_genre : str :=
  "{{Infobox musical artist
| name = The Clash
| born = 1970
}}".

Definition infobox_with_boilerplate : str :=
  "{{Infobox musical artist
| genre = Rock, music, band
}}".

(** Two artists that link, two that do not. *)
Definition small_network : digraph :=
  {| g_nodes := [ "Queen" : str; "Blur" : str; "Oasis" : str; "Abba" : str ];
     g_edges := [ ("Blur" : str, "Oasis" : str) ];
     g_word_count := ∅ |}.

(** A list template as the whole field, at the end of the field, and inside
    the field. *)
Definition flatlist_field : str :=
  "{{flatlist|
* Punk rock (UK)
* Ska
}}".

Definition trailing_hlist_field : str := "Pop, {{hlist|Punk|Ska}}".

Definition embedded_hlist_field : str := "Pop {{hlist|Punk (UK)|Ska (early)}} x".

(** Two documents of this form differ inside the comment only. *)
Definition commented (interior : str) : str :=
  "{{Infobox musical artist
| genre = Punk <!--" ++ interior ++ "-->
| born = 1970
}}".

Definition commented_above (interior : str) : str :=
  "{{Infobox musical artist
<!--" ++ interior ++ "-->
| genre = Punk
}}".

(** The document of the end-to-end scenario. *)
Definition the_clash_document : str :=
  "{{Infobox musical artist
| genre = {{flatlist|
* [[Punk rock]]
* Rock and roll
}}
| born = 1970
}}".

(** ** Tactics *)

Ltac absurd_residue :=
  match goal with
  | H : ~ In ?c residue |- _ => exfalso; apply H; vm_compute; tauto
  end.

Ltac peel :=
  repeat (first
    [ reflexivity
    | absurd_residue
    | match goal with
      | H : Forall _ (_ :: _) |- _ => inversion H; subst; clear H
      | |- context [match ?s with [] => _ | _ :: _ => _ end] => is_var s; destruct s
      | |- context [char_eqb ?a ?b] =>
          destruct (char_eqb_spec a b); subst; cbn [andb orb negb]
      end ]).

Ltac no_match p :=
  intros i s adv Hs; unfold plain in Hs; unfold match_at, p;
  cbn [rmatch Lit str_of_string Opt Plus in_class chr_eqb existsb];
  peel.

(** The head of the text is a character the text does not hold. *)
Ltac absurd_markup :=
  match goal with
  | H : no_markup (?c :: _) |- _ =>
      inversion H as [|? ? Hhead ?]; exfalso; apply Hhead; vm_compute; tauto
  end.

(** A pattern that starts with a literal character of [field_markup] does
    not match a text without markup. *)
Ltac starts_with_markup p :=
  intros i s adv Hs; unfold match_at, p;
  cbn [rmatch Lit str_of_string chr_eqb];
  try (destruct (i =? 0)%nat; [|reflexivity]);
  destruct s as [|x s]; [reflexivity|];
  match goal with
  | |- context [char_eqb ?a x] =>
      destruct (char_eqb_spec a x) as [<- | _]; [absurd_markup | reflexivity]
  end.

(** The cases of [re_fold]. *)
Ltac re_fold_cases :=
  unfold re_fold;
  repeat match goal with
  | |- context [(?a <=? ?b)%N] => destruct (N.leb_spec a b); cbn [andb orb]
  | |- context [(?a =? ?b)%N] => destruct (N.eqb_spec a b); cbn [andb orb]
  end.

(** * Properties of the matcher *)

Section Engine.
Variable P : char -> Prop.

Lemma star_inv {A} p greedy (s : str) : forall i (k : nat -> str -> option A) a,
  star p greedy i s k = Some a ->
  exists n, (n <= List.length s)%nat /\ k (i + n)%nat (skipn n s) = Some a.
Proof.
  induction s as [|x s IH]; intros i k a H; simpl in H.
  - exists 0%nat. rewrite Nat.add_0_r. auto.
  - assert (Hk : k i (x :: s) = Some a ->
              exists n, (n <= List.length (x :: s))%nat /\ k (i + n)%nat (skipn n (x :: s)) = Some a).
    { intros E. exists 0%nat. rewrite Nat.add_0_r. simpl. split; [lia | exact E]. }
    assert (Hs : star p greedy (S i) s k = Some a ->
              exists n, (n <= List.length (x :: s))%nat /\ k (i + n)%nat (skipn n (x :: s)) = Some a).
    { intros E. destruct (IH _ _ _ E) as (n & Hn & Hn').
      exists (S n). simpl. split; [lia |]. replace (i + S n)%nat with (S i + n)%nat by lia. exact Hn'. }
    destruct (p x); [| auto].
    destruct greedy.
    + destruct (star p true (S i) s k) eqn:E; [inversion H; subst; auto | auto].
    + destruct (k i (x :: s)) eqn:E; [inversion H; subst; auto | auto].
Qed.

Lemma rmatch_inv {A} ic r : forall i s g (k : nat -> str -> caps -> option A) a,
  Forall P s -> caps_ok P g ->
  rmatch ic r i s g k = Some a ->
  exists n g', (n <= List.length s)%nat /\ caps_ok P g' /\
               k (i + n)%nat (skipn n s) g' = Some a.
Proof.
  induction r as [|c|cl| | |r1 IH1 r2 IH2|r1 IH1 r2 IH2|gr cl|m r IH];
    intros i s g k a Hs Hg H; simpl in H.
  - exists 0%nat, g. rewrite Nat.add_0_r. simpl. repeat split; auto; lia.
  - destruct s as [|x s]; [discriminate|]. destruct (chr_eqb ic c x); [|discriminate].
    exists 1%nat, g. simpl. replace (i + 1)%nat with (S i) by lia. repeat split; auto; lia.
  - destruct s as [|x s]; [discriminate|]. destruct (in_class ic cl x); [|discriminate].
    exists 1%nat, g. simpl. replace (i + 1)%nat with (S i) by lia. repeat split; auto; lia.
  - destruct (i =? 0)%nat; [|discriminate].
    exists 0%nat, g. rewrite Nat.add_0_r. simpl. repeat split; auto; lia.
  - exists 0%nat, g. rewrite Nat.add_0_r. simpl.
    destruct s as [|x [|y s]]; try discriminate; [repeat split; auto; lia|].
    destruct (char_eqb x newline); [|discriminate]. repeat split; auto; lia.
  - apply IH1 in H; auto. destruct H as (n1 & g1 & Hn1 & Hg1 & H).
    apply IH2 in H; auto using Forall_drop.
    destruct H as (n2 & g2 & Hn2 & Hg2 & H).
    rewrite length_skipn in Hn2.
    exists (n1 + n2)%nat, g2. rewrite skipn_skipn in H.
    replace (n2 + n1)%nat with (n1 + n2)%nat in H by lia.
    rewrite Nat.add_assoc. repeat split; auto; lia.
  - destruct (rmatch ic r1 i s g k) eqn:E.
    + inversion H; subst. eapply IH1; eauto.
    + eapply IH2; eauto.
  - apply star_inv in H. destruct H as (n & Hn & H). exists n, g. auto.
  - apply IH in H; auto. destruct H as (n1 & g1 & Hn1 & Hg1 & H).
    exists n1, ((m, firstn (i + n1 - i) s) :: g1). repeat split; auto.
    constructor; auto. simpl. apply Forall_take. auto.
Qed.

Lemma match_at_inv ic r i s adv m :
  Forall P s -> match_at ic r i s adv = Some m ->
  exists n, (n <= List.length s)%nat /\ m_text m = firstn n s /\ m_rest m = skipn n s
            /\ caps_ok P (m_caps m) /\ (adv = true -> n <> 0%nat).
Proof.
  intros Hs H. unfold match_at in H.
  apply rmatch_inv in H; auto; [|constructor].
  destruct H as (n & g' & Hn & Hg & H). exists n.
  destruct adv; simpl in H.
  - destruct (i + n =? i)%nat eqn:E; [discriminate|]. apply Nat.eqb_neq in E.
    inversion H; subst; simpl. replace (i + n - i)%nat with n by lia.
    split_and!; auto; try (intros _; lia).
  - inversion H; subst; simpl. replace (i + n - i)%nat with n by lia.
    split_and!; auto; try discriminate.
Qed.

Lemma search_from_inv ic r : forall s i adv pre m,
  Forall P s -> search_from ic r i s adv = Some (pre, m) ->
  s = pre ++ m_text m ++ m_rest m /\ caps_ok P (m_caps m)
  /\ (adv = true -> pre <> [] \/ m_text m <> []).
Proof.
  induction s as [|x s IH]; intros i adv pre m Hs H; simpl in H.
  - destruct (match_at ic r i [] adv) eqn:E; [|discriminate].
    inversion H; subst. apply match_at_inv in E; auto.
    destruct E as (n & Hn & Ht & Hr & Hc & Ha). simpl in Hn.
    assert (n = 0%nat) by lia. subst n. rewrite Ht, Hr. simpl. split_and!; auto.
    try (intros Hadv; exfalso; apply Ha; auto).
  - destruct (match_at ic r i (x :: s) adv) eqn:E.
    + inversion H; subst. apply match_at_inv in E; auto.
      destruct E as (n & Hn & Ht & Hr & Hc & Ha).
      rewrite Ht, Hr. simpl app. rewrite firstn_skipn. split_and!; auto.
      try (intros Hadv; right; destruct n; [exfalso; apply Ha; auto | simpl; discriminate]).
    + destruct (search_from ic r (S i) s false) as [[pre' m']|] eqn:E'; [|discriminate].
      inversion H; subst. inversion Hs; subst.
      apply IH in E'; auto. destruct E' as (Hd & Hc & _).
      simpl. rewrite <- Hd. split_and!; auto; try (intros _; left; discriminate).
Qed.

Lemma scan_inv ic r : forall fuel i s adv ms tl,
  Forall P s -> scan fuel ic r i s adv = (ms, tl) ->
  s = List.concat (List.map (fun pm => fst pm ++ m_text (snd pm)) ms) ++ tl
  /\ Forall (piece_ok P) ms /\ Forall P tl.
Proof.
  induction fuel as [|fuel IH]; intros i s adv ms tl Hs H; simpl in H.
  - inversion H; subst. simpl. auto.
  - destruct (search_from ic r i s adv) as [[pre m]|] eqn:E.
    + destruct (scan fuel ic r _ (m_rest m) _) as [ms' tl'] eqn:E'.
      inversion H; subst. apply search_from_inv in E; auto.
      destruct E as (Hd & Hc & _).
      assert (Hall : Forall P (pre ++ m_text m ++ m_rest m)) by (rewrite <- Hd; auto).
      apply Forall_app in Hall. destruct Hall as [Hpre Hall].
      apply Forall_app in Hall. destruct Hall as [Htxt Hrest].
      apply IH in E'; auto. destruct E' as (Hd' & Hms & Htl).
      simpl. split_and!; auto.
      * rewrite <- !app_assoc. rewrite <- Hd'. exact Hd.
      * constructor; auto. repeat split; auto.
    + inversion H; subst. simpl. auto.
Qed.

Lemma group_ok n g : caps_ok P g -> Forall P (group n g).
Proof.
  induction g as [|[m t] g IH]; intros H; simpl; [constructor|].
  inversion H; subst. destruct (m =? n)%nat; auto.
Qed.

Lemma expand_ok t g : Forall (titem_ok P) t -> caps_ok P g -> Forall P (expand t g).
Proof.
  intros Ht Hg. unfold expand. induction Ht as [|it t Hit Ht IH]; simpl; [constructor|].
  apply Forall_app. split; auto. destruct it; simpl in *; auto using group_ok.
Qed.

Lemma re_sub_ok ic r t s : Forall (titem_ok P) t -> Forall P s -> Forall P (re_sub ic r t s).
Proof.
  intros Ht Hs. unfold re_sub, matches.
  destruct (scan _ ic r 0 s false) as [ms tl] eqn:E.
  apply scan_inv in E; auto. destruct E as (_ & Hms & Htl).
  apply Forall_app. split; auto.
  induction Hms as [|pm ms [Hp [_ Hc]] Hms IH]; simpl; [constructor|].
  rewrite <- app_assoc. repeat (apply Forall_app; split); auto using expand_ok.
Qed.

Lemma re_split_ok ic r s : Forall P s -> Forall (Forall P) (re_split ic r s).
Proof.
  intros Hs. unfold re_split, matches.
  destruct (scan _ ic r 0 s false) as [ms tl] eqn:E.
  apply scan_inv in E; auto. destruct E as (_ & Hms & Htl).
  apply Forall_app. split; [|repeat constructor; auto].
  induction Hms as [|pm ms [Hp _] Hms IH]; simpl; constructor; auto.
Qed.

Lemma re_findall_ok ic r s : Forall P s -> Forall (Forall P) (re_findall ic r s).
Proof.
  intros Hs. unfold re_findall, matches.
  destruct (scan _ ic r 0 s false) as [ms tl] eqn:E.
  apply scan_inv in E; auto. destruct E as (_ & Hms & Htl).
  induction Hms as [|pm ms [_ [_ Hc]] Hms IH]; simpl; constructor; auto using group_ok.
Qed.

End Engine.

(** * Properties of the characters *)

Lemma char_eqb_refl a : char_eqb a a = true.
Proof. apply N.eqb_refl. Qed.

Lemma char_eqb_eq a b : char_eqb a b = true <-> a = b.
Proof. apply N.eqb_eq. Qed.

Lemma char_eqb_neq a b : char_eqb a b = false <-> a <> b.
Proof. apply N.eqb_neq. Qed.

Lemma char_eqb_sym a b : char_eqb a b = char_eqb b a.
Proof. apply N.eqb_sym. Qed.

Lemma covers_run_chars r c : covers r c = true -> In c (run_chars r).
Proof.
  destruct r as [[[first last] step] target]. cbn [covers run_chars].
  destruct (N.leb_spec first c) as [Hf|]; [|discriminate].
  destruct (N.leb_spec c last) as [Hl|]; [|discriminate].
  intros H. apply N.eqb_eq in H.
  assert (E := N.div_mod' (c - first) step). rewrite H, N.add_0_r in E.
  apply in_map_iff. exists (N.to_nat ((c - first) / step)). split.
  - rewrite N2Nat.id. lia.
  - assert (Hq : ((c - first) / step <= (last - first) / step)%N).
    { apply N.Div0.div_le_mono. lia. }
    revert Hq. generalize ((c - first) / step)%N, ((last - first) / step)%N.
    intros q1 q2 Hq. apply in_seq. lia.
Qed.

Lemma lower_check_runs :
  forallb (fun r => forallb lower_check (run_chars r)) lower_runs = true.
Proof. vm_compute. reflexivity. Qed.

Lemma lower_check_dotted : lower_check 304%N = true.
Proof. vm_compute. reflexivity. Qed.

Lemma capital_sigma_upper : is_upper capital_sigma = true.
Proof. vm_compute. reflexivity. Qed.

Lemma lower_char_id c : is_upper c = false -> lower_char c = [c].
Proof.
  unfold is_upper, lower_char. intros H. apply orb_false_iff in H. destruct H as [-> H].
  apply negb_false_iff, N.eqb_eq in H. rewrite H. reflexivity.
Qed.

Lemma lower_check_all c : lower_check c = true.
Proof.
  destruct (is_upper c) eqn:U.
  - unfold is_upper in U. apply orb_true_iff in U. destruct U as [U | U].
    + apply N.eqb_eq in U. subst c. exact lower_check_dotted.
    + unfold simple_lower in U.
      destruct (List.find (fun r => covers r c) lower_runs) as [r|] eqn:F.
      * apply find_some in F. destruct F as [Hin Hc].
        assert (H := proj1 (forallb_forall _ _) lower_check_runs r Hin). cbv beta in H.
        exact (proj1 (forallb_forall _ _) H c (covers_run_chars r c Hc)).
      * rewrite N.eqb_refl in U. discriminate U.
  - unfold lower_check, lower_forms. rewrite (lower_char_id c U).
    destruct (N.eqb_spec c capital_sigma) as [-> | _].
    + rewrite capital_sigma_upper in U. discriminate U.
    + cbn [forallb]. rewrite U, N.eqb_refl. reflexivity.
Qed.

(** What lower-casing puts for a character is not changed by lower-casing. *)
Lemma lower_forms_not_upper c : Forall (fun d => is_upper d = false) (lower_forms c).
Proof.
  apply List.Forall_forall. intros d Hd.
  assert (H := proj1 (forallb_forall _ _) (lower_check_all c) d Hd). cbv beta in H.
  apply andb_true_iff in H. destruct H as [H _]. apply negb_true_iff in H. exact H.
Qed.

(** It is the character itself, a small ASCII letter or a character outside
    ASCII. *)
Lemma lower_forms_fresh c d :
  In d (lower_forms c) -> d = c \/ (97 <= d <= 122)%N \/ (128 <= d)%N.
Proof.
  intros Hd.
  assert (H := proj1 (forallb_forall _ _) (lower_check_all c) d Hd). cbv beta in H.
  apply andb_true_iff in H. destruct H as [_ H].
  apply orb_true_iff in H. destruct H as [H | H]; [|right; right; apply N.leb_le, H].
  apply orb_true_iff in H. destruct H as [H | H]; [left; apply N.eqb_eq, H|].
  apply andb_true_iff in H. destruct H as [Ha Hb]. apply N.leb_le in Ha, Hb.
  right. left. lia.
Qed.

(** * Properties of the string methods *)

Lemma lower_go_forms (P : char -> Prop) s :
  (forall c, P c -> Forall P (lower_forms c)) ->
  Forall P s -> forall before, Forall P (lower_go before s).
Proof.
  intros HP. induction 1 as [|c s Hc Hs IH]; intros before; cbn [lower_go]; [constructor|].
  apply Forall_app. split; [|apply IH].
  specialize (HP c Hc). unfold lower_forms in HP.
  destruct (c =? capital_sigma)%N; [|exact HP].
  inversion HP as [|? ? Ha Hb]; subst. inversion Hb as [|? ? Hb' _]; subst.
  constructor; [|constructor]. destruct (before && negb (cased_next s)); assumption.
Qed.

Lemma lower_ok (P : char -> Prop) s :
  (forall c, P c -> Forall P (lower_forms c)) -> Forall P s -> Forall P (lower s).
Proof. intros HP Hs. apply lower_go_forms; assumption. Qed.

Lemma lower_go_no_upper before s : no_upper (lower_go before s).
Proof.
  revert before. unfold no_upper.
  induction s as [|c s IH]; intros before; cbn [lower_go]; [constructor|].
  apply Forall_app. split; [|apply IH].
  assert (H := lower_forms_not_upper c). unfold lower_forms in H.
  destruct (c =? capital_sigma)%N; [|exact H].
  inversion H as [|? ? Ha Hb]; subst. inversion Hb as [|? ? Hb' _]; subst.
  constructor; [|constructor]. destruct (before && negb (cased_next s)); assumption.
Qed.

Lemma lower_no_upper s : no_upper (lower s).
Proof. apply lower_go_no_upper. Qed.

Lemma lower_go_id s : no_upper s -> forall before, lower_go before s = s.
Proof.
  induction 1 as [|c s Hc Hs IH]; intros before; cbn [lower_go]; [reflexivity|].
  rewrite IH, (lower_char_id c Hc).
  destruct (N.eqb_spec c capital_sigma) as [-> | _]; [|reflexivity].
  rewrite capital_sigma_upper in Hc. discriminate Hc.
Qed.

Lemma lower_id s : no_upper s -> lower s = s.
Proof. intros H. apply lower_go_id, H. Qed.

Section Sublists.
Variable P : char -> Prop.

Lemma lstrip_ok s : Forall P s -> Forall P (lstrip s).
Proof.
  induction 1 as [|c s Hc Hs IH]; simpl; [constructor|].
  destruct (is_space c); auto.
Qed.

Lemma rstrip_ok s : Forall P s -> Forall P (rstrip s).
Proof.
  intros H. unfold rstrip. apply Forall_rev, lstrip_ok, Forall_rev, H.
Qed.

Lemma strip_ok s : Forall P s -> Forall P (strip s).
Proof. intros H. apply rstrip_ok, lstrip_ok, H. Qed.

Lemma remove_char_ok c s : Forall P s -> Forall P (remove_char c s).
Proof.
  induction 1 as [|x s Hx Hs IH]; simpl; [constructor|].
  destruct (negb (char_eqb x c)); auto.
Qed.

Lemma words_go_ok s : forall cur,
  Forall P cur -> Forall P s -> Forall (Forall P) (words_go cur s).
Proof.
  induction s as [|c s IH]; intros cur Hcur Hs; simpl.
  - destruct cur; repeat constructor; auto. apply Forall_rev. auto.
  - inversion Hs; subst. destruct (is_space c).
    + destruct cur; [apply IH; auto|]. constructor; [apply Forall_rev; auto|].
      apply IH; auto.
    + apply IH; auto.
Qed.

Lemma join_ok sep ws : Forall P sep -> Forall (Forall P) ws -> Forall P (join sep ws).
Proof.
  intros Hsep. induction 1 as [|w ws Hw Hws IH]; simpl; [constructor|].
  destruct ws; auto. repeat (apply Forall_app; split); auto.
Qed.

End Sublists.

Lemma words_go_words s : forall cur,
  Forall (fun c => is_space c = false) cur -> Forall word (words_go cur s).
Proof.
  induction s as [|c s IH]; intros cur Hcur; simpl.
  - destruct cur as [|a cur]; constructor; [|constructor]. split.
    + simpl. destruct (rev cur); discriminate.
    + apply Forall_rev. auto.
  - destruct (is_space c) eqn:E.
    + destruct cur as [|a cur]; [apply IH; constructor|].
      constructor; [|apply IH; constructor]. split.
      * simpl. destruct (rev cur); discriminate.
      * apply Forall_rev. auto.
    + apply IH. constructor; auto.
Qed.

Lemma words_words s : Forall word (words s).
Proof. apply words_go_words. constructor. Qed.

Lemma words_go_app w : forall cur s,
  Forall (fun c => is_space c = false) w ->
  words_go cur (w ++ s) = words_go (rev w ++ cur) s.
Proof.
  induction w as [|c w IH]; intros cur s H; simpl; [reflexivity|].
  inversion H; subst. rewrite H2. rewrite IH; auto.
  rewrite <- app_assoc. reflexivity.
Qed.

Lemma words_join ws : Forall word ws -> words (join " " ws) = ws.
Proof.
  unfold words. induction 1 as [|w ws [Hne Hw] Hws IH]; simpl; [reflexivity|].
  destruct ws as [|w' ws].
  - replace (words_go [] w) with (words_go [] (w ++ [])) by (rewrite app_nil_r; reflexivity).
    rewrite words_go_app; auto. simpl.
    rewrite app_nil_r. destruct (rev w) eqn:E.
    + apply (f_equal (@rev char)) in E. rewrite rev_involutive in E. contradiction.
    + rewrite <- E, rev_involutive. reflexivity.
  - rewrite words_go_app; auto. rewrite app_nil_r.
    change (str_of_string " " ++ join " " (w' :: ws))
      with ((ch " ") :: join " " (w' :: ws)).
    cbn [words_go]. change (is_space (ch " ")) with true. cbn iota.
    destruct (rev w) eqn:E.
    + apply (f_equal (@rev char)) in E. rewrite rev_involutive in E. contradiction.
    + rewrite <- E, rev_involutive. f_equal. exact IH.
Qed.

Lemma strip_trimmed s : trimmed s -> strip s = s.
Proof.
  intros [Hl Hr]. unfold strip, rstrip.
  assert (El : lstrip s = s).
  { destruct s as [|c s']; [reflexivity|]. simpl. rewrite (Hl c s'); auto. }
  rewrite El.
  assert (Er : lstrip (rev s) = rev s).
  { destruct (rev s) as [|c t] eqn:E; [reflexivity|]. simpl.
    rewrite (Hr (rev t) c); auto.
    apply (f_equal (@rev char)) in E. rewrite rev_involutive in E. exact E. }
  rewrite Er. apply rev_involutive.
Qed.

Lemma word_trimmed w : word w -> trimmed w.
Proof.
  intros [_ H]. split; intros; subst.
  - inversion H; auto.
  - apply Forall_app in H. destruct H as [_ H]. inversion H; auto.
Qed.

Lemma join_trimmed ws : Forall word ws -> trimmed (join " " ws).
Proof.
  induction 1 as [|w ws Hw Hws IH].
  - split; intros; [discriminate | destruct s'; discriminate].
  - destruct ws as [|w' ws]; [apply word_trimmed; auto|].
    change (join " " (w :: w' :: ws)) with (w ++ " " ++ join " " (w' :: ws)).
    destruct Hw as [Hne Hw]. destruct IH as [_ IHr]. split.
    + intros c s' E. destruct w as [|a w]; [contradiction|].
      inversion E; subst. inversion Hw; auto.
    + intros s' c E.
      inversion Hws as [|? ? [Hne' _] _]; subst.
      assert (Hj : join " " (w' :: ws) <> []).
      { simpl. destruct ws; destruct w'; try contradiction; discriminate. }
      destruct (exists_last Hj) as (t & d & Et).
      rewrite Et in E. rewrite !app_assoc in E.
      apply app_inj_tail in E. destruct E as [_ <-]. eapply IHr; eauto.
Qed.

(** * Texts on which a pattern has no match *)

Lemma Forall_True (s : str) : Forall (fun _ => True) s.
Proof. induction s; constructor; auto. Qed.

Lemma re_sub_no_match ic r t s :
  search_from ic r 0 s false = None -> re_sub ic r t s = s.
Proof.
  intros H. unfold re_sub, matches. simpl. rewrite H. reflexivity.
Qed.

Lemma search_from_none ic r (bad : char -> Prop) :
  (forall i s adv, Forall (fun c => ~ bad c) s -> match_at ic r i s adv = None) ->
  forall s i adv, Forall (fun c => ~ bad c) s -> search_from ic r i s adv = None.
Proof.
  intros Hm. induction s as [|x s IH]; intros i adv Hs; simpl; rewrite Hm; auto.
  inversion Hs; subst. rewrite IH; auto.
Qed.

Lemma re_sub_clean ic r t (bad : char -> Prop) :
  (forall i s adv, Forall (fun c => ~ bad c) s -> match_at ic r i s adv = None) ->
  forall s, Forall (fun c => ~ bad c) s -> re_sub ic r t s = s.
Proof.
  intros Hm s Hs. apply re_sub_no_match. eapply search_from_none; eauto.
Qed.

Lemma is_plain_plain s : is_plain s = true -> plain s.
Proof.
  unfold is_plain, plain. rewrite forallb_forall, List.Forall_forall.
  intros H c Hc Hin. specialize (H c Hc). apply negb_true_iff in H.
  assert (E : existsb (char_eqb c) residue = true).
  { apply existsb_exists. exists c. split; auto. apply char_eqb_refl. }
  congruence.
Qed.

Lemma wiki_link_plain i s adv : plain s -> match_at false Pat.wiki_link i s adv = None.
Proof. revert i s adv. no_match Pat.wiki_link. Qed.

Lemma brackets_plain i s adv : plain s -> match_at false Pat.brackets i s adv = None.
Proof. revert i s adv. no_match Pat.brackets. Qed.

Lemma ref_pair_plain i s adv : plain s -> match_at false Pat.ref_pair i s adv = None.
Proof. revert i s adv. no_match Pat.ref_pair. Qed.

Lemma ref_self_plain i s adv : plain s -> match_at false Pat.ref_self i s adv = None.
Proof. revert i s adv. no_match Pat.ref_self. Qed.

Lemma ref_open_plain i s adv : plain s -> match_at false Pat.ref_open i s adv = None.
Proof. revert i s adv. no_match Pat.ref_open. Qed.

Lemma comment_plain i s adv : plain s -> match_at false Pat.comment i s adv = None.
Proof. revert i s adv. no_match Pat.comment. Qed.

Lemma url_http_plain i s adv : plain s -> match_at false Pat.url_http i s adv = None.
Proof. revert i s adv. no_match Pat.url_http. Qed.

Lemma url_www_plain i s adv : plain s -> match_at false Pat.url_www i s adv = None.
Proof. revert i s adv. no_match Pat.url_www. Qed.

Lemma braces_quotes_plain i s adv :
  plain s -> match_at false Pat.braces_quotes i s adv = None.
Proof. revert i s adv. no_match Pat.braces_quotes. Qed.

(** * The label normalizer *)

Lemma str_eqb_eq a b : str_eqb a b = true <-> a = b.
Proof. unfold str_eqb. apply bool_decide_eq_true. Qed.

Lemma mem_In x l : mem x l = true <-> In x l.
Proof.
  unfold mem. rewrite existsb_exists. split.
  - intros (y & Hy & E). apply str_eqb_eq in E. subst. auto.
  - intros H. exists x. split; auto. apply str_eqb_eq. reflexivity.
Qed.

Lemma mem_false x l : mem x l = false <-> ~ In x l.
Proof.
  rewrite <- mem_In. destruct (mem x l); split; intros; auto; try discriminate.
  exfalso. auto.
Qed.

Lemma standardize_cases g :
  standardize g = g \/ standardize g = ("rock and roll" : str).
Proof.
  unfold standardize, rock_variations. cbn [fold_left fst snd].
  destruct (str_eqb g "rock 'n' roll"); [right; vm_compute; reflexivity|].
  destruct (str_eqb g "rock n roll"); [right; vm_compute; reflexivity|].
  destruct (str_eqb g "rock'n'roll"); [right; vm_compute; reflexivity|].
  destruct (str_eqb g "rock & roll"); [right; vm_compute; reflexivity|].
  destruct (str_eqb g "rock n' roll"); [right; vm_compute; reflexivity|].
  left. reflexivity.
Qed.

Lemma plain_no_quote (g : str) : plain g -> ~ In (ch "'") g.
Proof.
  unfold plain. rewrite List.Forall_forall. intros H Hin.
  apply (H _ Hin). vm_compute. tauto.
Qed.

Lemma standardize_plain g :
  plain g -> mem g bare_variants = false -> standardize g = g.
Proof.
  intros Hp Hm. apply plain_no_quote in Hp. apply mem_false in Hm.
  unfold standardize, rock_variations. cbn [fold_left fst snd].
  destruct (str_eqb g "rock 'n' roll") eqn:E1.
  { apply str_eqb_eq in E1. subst. exfalso. apply Hp. vm_compute. tauto. }
  destruct (str_eqb g "rock n roll") eqn:E2.
  { apply str_eqb_eq in E2. subst. exfalso. apply Hm. vm_compute. tauto. }
  destruct (str_eqb g "rock'n'roll") eqn:E3.
  { apply str_eqb_eq in E3. subst. exfalso. apply Hp. vm_compute. tauto. }
  destruct (str_eqb g "rock & roll") eqn:E4.
  { apply str_eqb_eq in E4. subst. exfalso. apply Hm. vm_compute. tauto. }
  destruct (str_eqb g "rock n' roll") eqn:E5.
  { apply str_eqb_eq in E5. subst. exfalso. apply Hp. vm_compute. tauto. }
  reflexivity.
Qed.

Lemma titem_ok_group P n : Forall (titem_ok P) [TGrp n].
Proof. repeat constructor. Qed.

(** What a pass of [normalize_genre] leaves before the white space is
    collapsed keeps every property of characters that its input has. *)
Lemma normalize_genre_shape genre :
  exists z, no_upper z /\ normalize_genre genre = join " " (words z).
Proof.
  unfold normalize_genre.
  match goal with
  | |- context [words ?z] => exists z
  end.
  split.
  - destruct (standardize_cases
               (re_sub false Pat.braces_quotes []
                 (re_sub false Pat.url_www []
                   (re_sub false Pat.url_http []
                     (re_sub false Pat.comment []
                       (re_sub false Pat.ref_open []
                         (re_sub false Pat.ref_self []
                           (re_sub false Pat.ref_pair []
                             (re_sub false Pat.brackets []
                               (re_sub false Pat.wiki_link [TGrp 1]
                                 (strip (lower genre)))))))))))) as [-> | ->].
    + repeat (apply re_sub_ok; [first [apply titem_ok_group | constructor] |]).
      apply strip_ok, lower_no_upper.
    + unfold no_upper. rewrite List.Forall_forall. intros c Hc.
      vm_compute in Hc. intuition (subst; reflexivity).
  - apply strip_trimmed, join_trimmed, words_words.
Qed.

Lemma normalize_genre_no_upper genre : no_upper (normalize_genre genre).
Proof.
  destruct (normalize_genre_shape genre) as (z & Hz & ->).
  apply join_ok; [repeat constructor|].
  apply words_go_ok; [constructor | exact Hz].
Qed.

Lemma normalize_genre_lower genre : lower (normalize_genre genre) = normalize_genre genre.
Proof. apply lower_id, normalize_genre_no_upper. Qed.

Lemma normalize_genre_fixed y :
  no_upper y -> (exists ws, Forall word ws /\ y = join " " ws) ->
  plain y -> mem y bare_variants = false ->
  normalize_genre y = y.
Proof.
  intros Hu (ws & Hws & Hy) Hp Hm. unfold normalize_genre.
  rewrite (lower_id y Hu).
  assert (Ht : strip y = y) by (subst y; apply strip_trimmed, join_trimmed, Hws).
  rewrite Ht.
  rewrite (re_sub_clean false Pat.wiki_link _ (fun c => In c residue)); auto using wiki_link_plain.
  rewrite (re_sub_clean false Pat.brackets _ (fun c => In c residue)); auto using brackets_plain.
  rewrite (re_sub_clean false Pat.ref_pair _ (fun c => In c residue)); auto using ref_pair_plain.
  rewrite (re_sub_clean false Pat.ref_self _ (fun c => In c residue)); auto using ref_self_plain.
  rewrite (re_sub_clean false Pat.ref_open _ (fun c => In c residue)); auto using ref_open_plain.
  rewrite (re_sub_clean false Pat.comment _ (fun c => In c residue)); auto using comment_plain.
  rewrite (re_sub_clean false Pat.url_http _ (fun c => In c residue)); auto using url_http_plain.
  rewrite (re_sub_clean false Pat.url_www _ (fun c => In c residue)); auto using url_www_plain.
  rewrite (re_sub_clean false Pat.braces_quotes _ (fun c => In c residue));
    auto using braces_quotes_plain.
  rewrite standardize_plain; auto.
  rewrite Hy at 1. rewrite words_join; auto. rewrite <- Hy. exact Ht.
Qed.

(** C3, as stated, fails: with two spaces in [rock  n roll] the first pass
    misses the spelling table and only collapses the spaces, and the second
    pass then rewrites the label.  Markup fails it too: a comment whose
    removal brings the two halves of another comment together is removed by
    the second pass only. *)
Lemma normalize_genre_not_idempotent :
  normalize_genre "rock  n roll" = ("rock n roll" : str)
  /\ normalize_genre (normalize_genre "rock  n roll") = ("rock and roll" : str)
  /\ normalize_genre (normalize_genre "rock  n roll") <> normalize_genre "rock  n roll"
  /\ normalize_genre "<!<!---->--x-->" = ("<!--x-->" : str)
  /\ normalize_genre (normalize_genre "<!<!---->--x-->") = [].
Proof.
  split_and!; vm_compute; [reflexivity | reflexivity | discriminate | reflexivity | reflexivity].
Qed.

(** C3, amended: a second pass of [normalize_genre] changes nothing when the
    first pass left a label without any of the characters
    [ ] < { } ' ` : . and the double quote, and other than the spellings
    [rock n roll] and [rock & roll]. *)
Theorem normalize_genre_idempotent_plain (x : str) :
  is_plain (normalize_genre x) = true ->
  mem (normalize_genre x) bare_variants = false ->
  normalize_genre (normalize_genre x) = normalize_genre x.
Proof.
  intros Hp Hm. apply normalize_genre_fixed; auto.
  - apply normalize_genre_no_upper.
  - destruct (normalize_genre_shape x) as (z & _ & E).
    exists (words z). split; [apply words_words | exact E].
  - apply is_plain_plain, Hp.
Qed.

Lemma normalize_genre_idempotent_plain_witness :
  normalize_genre (normalize_genre "Indie  Rock") = normalize_genre "Indie  Rock".
Proof.
  apply (normalize_genre_idempotent_plain "Indie  Rock"); vm_compute; reflexivity.
Defined.

(** * Deduplication in first-seen order *)

Lemma first_occurrences_ext l : forall s1 s2,
  (forall x, mem x s1 = mem x s2) ->
  first_occurrences s1 l = first_occurrences s2 l.
Proof.
  induction l as [|x l IH]; intros s1 s2 H; simpl; [reflexivity|].
  rewrite (H x). destruct (mem x s2); [apply IH; auto|].
  f_equal. apply IH. intros y. unfold mem. simpl. f_equal. apply H.
Qed.

Lemma mem_app x l1 l2 : mem x (l1 ++ l2) = mem x l1 || mem x l2.
Proof. unfold mem. apply existsb_app. Qed.

Lemma mem_snoc_cons x y l : mem x (l ++ [y]) = mem x (y :: l).
Proof.
  rewrite mem_app. unfold mem. simpl. rewrite orb_false_r. apply orb_comm.
Qed.

Lemma fold_snoc_first (f : str -> str) (k : str -> bool) raw : forall acc,
  fold_left (fun acc g => if k (f g) && negb (mem (f g) acc) then acc ++ [f g] else acc)
    raw acc
  = acc ++ first_occurrences acc (List.filter k (List.map f raw)).
Proof.
  induction raw as [|g raw IH]; intros acc; cbn [fold_left List.map List.filter].
  - cbn [first_occurrences]. rewrite app_nil_r. reflexivity.
  - rewrite IH. generalize (f g). intros n.
    destruct (k n); cbn [andb negb first_occurrences]; [|reflexivity].
    destruct (mem n acc); cbn [andb negb]; [reflexivity|].
    rewrite <- app_assoc. cbn [app]. do 2 f_equal.
    apply first_occurrences_ext. intros x. apply mem_snoc_cons.
Qed.

Lemma fold_add_genre raw acc :
  fold_left add_genre raw acc
  = acc ++ first_occurrences acc (List.filter keep (List.map clean_label raw)).
Proof. apply (fold_snoc_first clean_label keep). Qed.

Lemma first_occurrences_In l : forall seen x,
  In x (first_occurrences seen l) -> In x l /\ ~ In x seen.
Proof.
  induction l as [|y l IH]; intros seen x H; simpl in H; [contradiction|].
  destruct (mem y seen) eqn:E.
  - apply IH in H. destruct H. split; auto. right. auto.
  - destruct H as [-> | H].
    + split; [left; reflexivity | apply mem_false; exact E].
    + apply IH in H. destruct H as [H1 H2]. split; [right; auto|].
      intros Hs. apply H2. right. exact Hs.
Qed.

Lemma first_occurrences_complete l : forall seen x,
  In x l -> ~ In x seen -> In x (first_occurrences seen l).
Proof.
  induction l as [|y l IH]; intros seen x Hin Hs; [contradiction|].
  cbn [first_occurrences]. destruct (mem y seen) eqn:E.
  - destruct Hin as [-> | Hin]; [|apply IH; auto].
    apply mem_In in E. contradiction.
  - destruct (decide (y = x)) as [-> | Hne]; [left; reflexivity|].
    right. destruct Hin as [-> | Hin]; [contradiction|].
    apply IH; auto. intros [-> | H]; auto.
Qed.

Lemma first_occurrences_NoDup l : forall seen, List.NoDup (first_occurrences seen l).
Proof.
  induction l as [|y l IH]; intros seen; simpl; [constructor|].
  destruct (mem y seen); [apply IH|].
  apply List.NoDup_cons; [|apply IH].
  intros H. apply first_occurrences_In in H. destruct H as [_ H].
  apply H. left. reflexivity.
Qed.

Lemma mem_single x y : mem x [y] = str_eqb x y.
Proof. unfold mem. simpl. apply orb_false_r. Qed.

Lemma first_occurrences_app pre : forall seen l,
  first_occurrences seen (pre ++ l)
  = first_occurrences seen pre ++ first_occurrences (rev pre ++ seen) l.
Proof.
  induction pre as [|y pre IH]; intros seen l; [reflexivity|].
  cbn [app first_occurrences rev]. destruct (mem y seen) eqn:E.
  - rewrite IH. f_equal. apply first_occurrences_ext. intros x.
    rewrite <- app_assoc. rewrite !mem_app, mem_single.
    destruct (mem x (rev pre)); cbn [orb]; [reflexivity|].
    destruct (str_eqb x y) eqn:Exy; cbn [orb]; [|reflexivity].
    apply str_eqb_eq in Exy. subst. exact E.
  - cbn [app]. f_equal. rewrite IH. f_equal. rewrite <- app_assoc. reflexivity.
Qed.

(** An entry stands after the first occurrences of what precedes its own
    first occurrence. *)
Lemma first_occurrences_position pre x post :
  ~ In x pre ->
  exists rest,
    first_occurrences [] (pre ++ x :: post) = first_occurrences [] pre ++ x :: rest.
Proof.
  intros H. rewrite first_occurrences_app. simpl.
  assert (E : mem x (rev pre ++ []) = false).
  { apply mem_false. rewrite app_nil_r. intros Hin. apply H. apply in_rev. exact Hin. }
  rewrite E. eauto.
Qed.

Lemma keep_facts n : keep n = true -> n <> [] /\ ~ In n skip_terms.
Proof.
  unfold keep. rewrite !andb_true_iff, !negb_true_iff.
  intros [[[[[H1 _] H2] _] _] _]. split.
  - intros ->. discriminate.
  - apply mem_false. exact H2.
Qed.

Lemma parse_genre_field_candidates field_text :
  parse_genre_field field_text
  = first_occurrences []
      (List.filter keep (List.map clean_label (raw_genres field_text))).
Proof. unfold parse_genre_field. rewrite fold_add_genre. reflexivity. Qed.

Lemma parse_genre_field_canonical field_text : canonical (parse_genre_field field_text).
Proof.
  rewrite parse_genre_field_candidates. split; [apply first_occurrences_NoDup|].
  apply List.Forall_forall. intros g Hg.
  apply first_occurrences_In in Hg. destruct Hg as [Hg _].
  apply filter_In in Hg. destruct Hg as [Hg Hk].
  apply keep_facts in Hk. destruct Hk as [Hne Hskip].
  apply in_map_iff in Hg. destruct Hg as (raw & <- & _).
  split_and!; auto. apply normalize_genre_lower.
Qed.

(** C7: the list that parsing and normalization produce from a field text has
    no repeated entry, holds each candidate at the place of its first
    occurrence, and all its entries are non-empty, lower case and outside
    the skip terms; so has every list that [extract_genres_from_infobox]
    hands to the output mapping. *)
Theorem parse_genre_field_invariants (field_text : str) :
  let candidates := List.filter keep (List.map clean_label (raw_genres field_text)) in
  let genres := parse_genre_field field_text in
  List.NoDup genres
  /\ genres = first_occurrences [] candidates
  /\ (forall x, In x genres <-> In x candidates)
  /\ (forall pre x post, candidates = pre ++ x :: post -> ~ In x pre ->
        exists rest, genres = first_occurrences [] pre ++ x :: rest)
  /\ Forall (fun g => g <> [] /\ lower g = g /\ ~ In g skip_terms) genres
  /\ (forall text stored, extract_genres_from_infobox text = Some stored ->
        List.NoDup stored
        /\ Forall (fun g => g <> [] /\ lower g = g /\ ~ In g skip_terms) stored).
Proof.
  intros candidates genres.
  assert (E : genres = first_occurrences [] candidates)
    by apply parse_genre_field_candidates.
  destruct (parse_genre_field_canonical field_text) as [Hnd Hall].
  split_and!; auto.
  - intros x. rewrite E. split.
    + intros H. apply first_occurrences_In in H. tauto.
    + intros H. apply first_occurrences_complete; auto.
  - intros pre x post Hc Hn. rewrite E, Hc. apply first_occurrences_position. exact Hn.
  - intros text stored H. unfold extract_genres_from_infobox in H.
    destruct (infobox_text text); [|discriminate].
    destruct (is_nil (genre_field_lines s)); [discriminate|].
    destruct (is_nil (parse_genre_field _)) eqn:En; [discriminate|].
    inversion H; subst. apply parse_genre_field_canonical.
Qed.

Lemma parse_genre_field_invariants_witness :
  List.NoDup (parse_genre_field "Punk, Ska, [[Punk]]")
  /\ exists rest,
       parse_genre_field "Punk, Ska, [[Punk]]"
       = first_occurrences [] [ "punk" : str ] ++ ("ska" : str) :: rest.
Proof.
  destruct (parse_genre_field_invariants "Punk, Ska, [[Punk]]") as (H1 & _ & _ & H4 & _).
  split; [exact H1|].
  apply (H4 [ "punk" : str ] ("ska" : str) [ "punk" : str ]).
  - vm_compute. reflexivity.
  - vm_compute. intros [H | []]. discriminate H.
Defined.

(** * Unbalanced markup *)

Lemma never_closed_spec open close s :
  never_closed open close s = true ->
  forall n, (0 < n <= List.length s)%nat -> depth_of open close (firstn n s) <> 0%Z.
Proof.
  unfold never_closed. rewrite forallb_forall. intros H n Hn.
  specialize (H n). rewrite in_seq in H.
  assert (Hb : negb (depth_of open close (firstn n s) =? 0)%Z = true) by (apply H; lia).
  apply negb_true_iff, Z.eqb_neq in Hb. exact Hb.
Qed.

Lemma count_cons c x s :
  count c (x :: s) = ((if char_eqb c x then 1 else 0) + count c s)%Z.
Proof. unfold count. simpl. destruct (char_eqb c x); simpl length; lia. Qed.

Lemma brace_scan_unclosed open close (Hne : open <> close) s : forall d i,
  (forall n, (0 < n <= List.length s)%nat ->
             (d + depth_of open close (firstn n s))%Z <> 0%Z) ->
  brace_scan open close s d i = None.
Proof.
  induction s as [|c s IH]; intros d i H; [reflexivity|].
  cbn [brace_scan].
  assert (Hstep : forall n, (0 < n <= List.length s)%nat ->
            (d + ((if char_eqb open c then 1 else 0) - (if char_eqb close c then 1 else 0))
               + depth_of open close (firstn n s))%Z <> 0%Z).
  { intros n Hn. specialize (H (S n)). cbn [firstn List.length] in H.
    unfold depth_of in *. rewrite !count_cons in H. intros E.
    destruct (char_eqb open c), (char_eqb close c); apply H; lia. }
  assert (Hone : (d + ((if char_eqb open c then 1 else 0)
                       - (if char_eqb close c then 1 else 0)))%Z <> 0%Z).
  { specialize (H 1%nat). cbn [firstn List.length] in H.
    unfold depth_of in H. rewrite !count_cons in H.
    unfold count in H. rewrite firstn_O in H. cbn [List.filter List.length] in H. intros E.
    destruct (char_eqb open c), (char_eqb close c); apply H; lia. }
  destruct (char_eqb_spec c open) as [-> | Hco].
  - rewrite char_eqb_refl in *.
    destruct (char_eqb_spec close open) as [E | _]; [congruence|].
    apply IH. intros n Hn. specialize (Hstep n Hn). cbn iota in Hstep. lia.
  - destruct (char_eqb_spec open c) as [E | _]; [congruence|].
    destruct (char_eqb_spec c close) as [-> | Hcc].
    + rewrite char_eqb_refl in *.
      destruct (d - 1 =? 0)%Z eqn:E; [apply Z.eqb_eq in E; lia|].
      apply IH. intros n Hn. specialize (Hstep n Hn). lia.
    + destruct (char_eqb_spec close c) as [E | _]; [congruence|].
      apply IH. intros n Hn. specialize (Hstep n Hn). lia.
Qed.

Lemma brace_scan_never_closed open close s i :
  s <> [] -> never_closed open close s = true -> brace_scan open close s 0 i = None.
Proof.
  intros Hs H.
  assert (Hsp := never_closed_spec _ _ _ H).
  apply brace_scan_unclosed.
  - intros ->. destruct s as [|c s]; [contradiction|].
    specialize (Hsp 1%nat). apply Hsp; [simpl; lia|].
    unfold depth_of. lia.
  - intros n Hn. rewrite Z.add_0_l. auto.
Qed.

Lemma never_returns_spec open close s :
  never_returns open close s = true ->
  forall n, (0 < n <= List.length s)%nat -> loop_depth open close (firstn n s) 0 <> 0%Z.
Proof.
  unfold never_returns. rewrite forallb_forall. intros H n Hn.
  specialize (H n). rewrite in_seq in H.
  assert (Hb : negb (loop_depth open close (firstn n s) 0 =? 0)%Z = true) by (apply H; lia).
  apply negb_true_iff, Z.eqb_neq in Hb. exact Hb.
Qed.

(** The scan finds no closing index when the counter it keeps is never
    zero. *)
Lemma brace_scan_loop_depth open close s : forall d i,
  (forall n, (0 < n <= List.length s)%nat -> loop_depth open close (firstn n s) d <> 0%Z) ->
  brace_scan open close s d i = None.
Proof.
  induction s as [|c s IH]; intros d i H; [reflexivity|].
  cbn [brace_scan].
  assert (Hone := H 1%nat ltac:(cbn [List.length]; lia)).
  cbn [firstn loop_depth] in Hone.
  assert (Hstep : forall n, (0 < n <= List.length s)%nat ->
            loop_depth open close (firstn n s)
              (if char_eqb c open then d + 1
               else if char_eqb c close then d - 1 else d)%Z <> 0%Z).
  { intros n Hn. apply (H (S n)). cbn [List.length]. lia. }
  destruct (char_eqb c open); [apply IH, Hstep|].
  destruct (char_eqb c close); [|apply IH, Hstep].
  destruct (d - 1 =? 0)%Z eqn:E; [apply Z.eqb_eq in E; contradiction|].
  apply IH, Hstep.
Qed.

Lemma brace_scan_never_returns open close s i :
  never_returns open close s = true -> brace_scan open close s 0 i = None.
Proof.
  intros H. apply brace_scan_loop_depth. apply never_returns_spec. exact H.
Qed.

(** With one character for both delimiters the counter only grows. *)
Lemma brace_scan_same c s : forall d i, (0 <= d)%Z -> brace_scan c c s d i = None.
Proof.
  induction s as [|x s IH]; intros d i Hd; [reflexivity|].
  cbn [brace_scan]. destruct (char_eqb x c); apply IH; lia.
Qed.

(** C6, as stated, fails for [extract_nested_content]: on a text whose
    braces stay open the counter never returns to zero, and what comes back
    is not the text from the first opening brace to the end of the input. *)
Lemma extract_nested_content_keeps_prefix :
  find_char "{" "ab{c{d}e" = Some 2%nat
  /\ never_returns "{" "}" (skipn 2 "ab{c{d}e") = true
  /\ extract_nested_content "ab{c{d}e" "{" "}" <> skipn 2 "ab{c{d}e".
Proof. split_and!; vm_compute; [reflexivity | reflexivity | discriminate]. Qed.

(** C6, amended: when the depth counter never returns to zero after the
    first opening delimiter, [extract_nested_content] returns the text it
    was given, whole, with what stands before that delimiter; so it does
    whenever one character is both delimiters.  The scan that delimits the
    infobox returns the text from the opening braces of the infobox to the
    end of the input.  Both are total functions: nothing is raised. *)
Theorem unbalanced_markup_degrades :
  (forall (text : str) (open_char close_char : char) (start_idx : nat),
      find_char open_char text = Some start_idx ->
      never_returns open_char close_char (skipn start_idx text) = true ->
      extract_nested_content text open_char close_char = text)
  /\ (forall (text : str) (c : char), extract_nested_content text c c = text)
  /\ (forall (text pre : str) (m : mtch),
        re_search true Pat.infobox text = Some (pre, m) ->
        never_returns "{" "}" (skipn (List.length pre) text) = true ->
        infobox_text text = Some (skipn (List.length pre) text)).
Proof.
  split_and!.
  - intros text open_char close_char start_idx Hf Hn.
    unfold extract_nested_content. rewrite Hf.
    destruct (negb (contains [open_char] text)); [reflexivity|].
    rewrite brace_scan_never_returns by exact Hn. reflexivity.
  - intros text c. unfold extract_nested_content.
    destruct (negb (contains [c] text)); [reflexivity|].
    destruct (find_char c text) as [start_idx|]; [|reflexivity].
    rewrite brace_scan_same by lia. reflexivity.
  - intros text pre m Hs Hn. unfold infobox_text. rewrite Hs.
    rewrite brace_scan_never_returns by exact Hn.
    rewrite firstn_all. reflexivity.
Qed.

Lemma unbalanced_markup_degrades_witness :
  extract_nested_content "ab{c{d}e" "{" "}" = ("ab{c{d}e" : str)
  /\ infobox_text "x {{Infobox band | genre = Punk }" = Some ("{{Infobox band | genre = Punk }" : str).
Proof.
  destruct unbalanced_markup_degrades as (H1 & _ & H2). split.
  - apply (H1 "ab{c{d}e" (ch "{") (ch "}") 2%nat); reflexivity.
  - apply (H2 "x {{Infobox band | genre = Punk }" "x "
             {| m_text := "{{Infobox band | genre = Punk }"; m_rest := []; m_caps := [] |});
      reflexivity.
Defined.

(** * The field locator *)

Lemma field_loop_capture lines : forall st,
  in_genre_field st = true ->
  genre_content (field_loop lines st)
  = genre_content st ++ capture true (bracket_depth st) lines.
Proof.
  induction lines as [|l lines IH]; intros st Hin; cbn [field_loop capture].
  - rewrite app_nil_r. reflexivity.
  - fold (opens_genre l). fold (after_equals l). fold (begins_with_bar l).
    rewrite Hin. cbn [andb]. destruct (opens_genre l).
    + rewrite IH by reflexivity. cbn [genre_content bracket_depth].
      rewrite <- app_assoc. reflexivity.
    + destruct (begins_with_bar l && (bracket_depth st =? 0)%Z).
      * cbn [genre_content]. rewrite app_nil_r. reflexivity.
      * rewrite IH by reflexivity. cbn [genre_content bracket_depth].
        rewrite <- app_assoc. reflexivity.
Qed.

Lemma field_loop_locate lines : forall st,
  in_genre_field st = false ->
  genre_content (field_loop lines st) = genre_content st ++ locate true lines.
Proof.
  induction lines as [|l lines IH]; intros st Hin; cbn [field_loop locate].
  - rewrite app_nil_r. reflexivity.
  - fold (opens_genre l). fold (after_equals l).
    rewrite Hin. destruct (opens_genre l).
    + rewrite field_loop_capture by reflexivity. cbn [genre_content bracket_depth].
      rewrite <- app_assoc. reflexivity.
    + apply IH. exact Hin.
Qed.

Lemma genre_field_lines_locate infobox :
  genre_field_lines infobox = locate true (split_char newline infobox).
Proof. unfold genre_field_lines. rewrite field_loop_locate; reflexivity. Qed.

Lemma split_char_nonempty c s : split_char c s <> [].
Proof.
  destruct s as [|x s]; simpl; [discriminate|].
  destruct (char_eqb x c); [discriminate|]. destruct (split_char c s); discriminate.
Qed.

Lemma split_char_app c a b :
  split_char c (a ++ c :: b) = split_char c a ++ split_char c b.
Proof.
  induction a as [|x a IH]; cbn [app split_char].
  - rewrite char_eqb_refl. reflexivity.
  - rewrite IH. destruct (char_eqb x c); [reflexivity|].
    destruct (split_char c a) eqn:E; [|reflexivity].
    exfalso. eapply split_char_nonempty; eauto.
Qed.

Lemma split_char_head c s :
  exists l ls, split_char c s = l :: ls /\ exists t, s = l ++ t /\ ~ In c l.
Proof.
  induction s as [|x s (l & ls & E & t & Es & Hl)]; cbn [split_char].
  - exists [], []. split; [reflexivity|]. exists []. split; auto.
  - destruct (char_eqb_spec x c) as [-> | Hne].
    + exists [], (split_char c s). split; [reflexivity|]. exists (c :: s). split; auto.
    + rewrite E. exists (x :: l), ls. split; [reflexivity|].
      exists t. split; [rewrite Es; reflexivity|].
      intros [H | H]; [congruence | contradiction].
Qed.

Lemma split_char_line c l : ~ In c l -> split_char c l = [l].
Proof.
  induction l as [|x l IH]; intros H; cbn [split_char]; [reflexivity|].
  destruct (char_eqb_spec x c) as [-> | Hne]; [exfalso; apply H; left; reflexivity|].
  rewrite IH; [reflexivity|]. intros Hin. apply H. right. exact Hin.
Qed.

Lemma locate_skip restart before lines :
  forallb (fun l => negb (opens_genre l)) before = true ->
  locate restart (before ++ lines) = locate restart lines.
Proof.
  induction before as [|l before IH]; intros H; [reflexivity|].
  cbn [forallb] in H. apply andb_true_iff in H. destruct H as [Hl H].
  apply negb_true_iff in Hl. cbn [app locate]. rewrite Hl. apply IH, H.
Qed.

Lemma star_stop {A} p greedy i s (k : nat -> str -> option A) :
  match s with c :: _ => p c = false | [] => True end ->
  star p greedy i s k = k i s.
Proof. destruct s as [|c s]; intros H; cbn [star]; [reflexivity|]. rewrite H. reflexivity. Qed.

Lemma lstrip_snoc_nonspace l c :
  is_space c = false -> lstrip (l ++ [c]) = lstrip l ++ [c].
Proof.
  intros H. induction l as [|x l IH]; cbn [app lstrip].
  - rewrite H. reflexivity.
  - destruct (is_space x); [exact IH | reflexivity].
Qed.

Lemma strip_cons_nonspace c s :
  is_space c = false -> strip (c :: s) = c :: rstrip s.
Proof.
  intros H. unfold strip. cbn [lstrip]. rewrite H. unfold rstrip.
  cbn [rev]. rewrite lstrip_snoc_nonspace by exact H.
  rewrite rev_app_distr. reflexivity.
Qed.

Lemma count_zero_not_In c s : count c s = 0%Z -> ~ In c s.
Proof.
  induction s as [|x s IH]; intros H; [tauto|].
  rewrite count_cons in H.
  assert (0 <= count c s)%Z by (unfold count; lia).
  destruct (char_eqb_spec c x) as [-> | Hne]; [lia|].
  intros [E | Hin]; [congruence | apply IH; [lia | exact Hin]].
Qed.

Lemma no_genre_line_locate restart before lines :
  no_genre_line before = true ->
  locate restart (split_char newline before ++ lines) = locate restart lines.
Proof. apply locate_skip. Qed.

(** C4: the field locator is to end the capture at the next line that
    begins with a bar at depth zero.  On an infobox that names the genre
    field twice it does not: the second line begins with a bar while the
    counter is zero, and the loop takes its content too, where the capture
    that ends at the next field boundary holds the first value alone. *)
Theorem field_locator_second_opener :
  genre_field_lines punk_then_ska = [ "Punk" : str; "Ska" : str ]
  /\ begins_with_bar "| genres = Ska" = true
  /\ brace_delta "Punk" = 0%Z
  /\ locate false (split_char newline punk_then_ska) = [ "Punk" : str ]
  /\ genre_field_lines punk_then_ska <> locate false (split_char newline punk_then_ska).
Proof.
  split_and!; vm_compute; [reflexivity | reflexivity | reflexivity | reflexivity | discriminate].
Qed.

(** * Documents without genres *)

Lemma no_genre_line_none infobox :
  no_genre_line infobox = true -> genre_field_lines infobox = [].
Proof.
  intros H. rewrite genre_field_lines_locate.
  rewrite <- (app_nil_r (split_char newline infobox)).
  rewrite no_genre_line_locate by exact H. reflexivity.
Qed.

Lemma extract_genres_nonempty text : extract_genres_from_infobox text <> Some [].
Proof.
  unfold extract_genres_from_infobox.
  destruct (infobox_text text) as [infobox|]; [|discriminate].
  destruct (is_nil (genre_field_lines infobox)); [discriminate|].
  destruct (parse_genre_field _) eqn:E; cbn [is_nil]; discriminate.
Qed.

Lemma process_file_lookup b f k :
  (forall content, snd f = Some content ->
     extract_artist_name_from_filename (fst f) = k ->
     extract_genres_from_infobox content = None) ->
  artist_genres (process_file b f) !! k = artist_genres b !! k.
Proof.
  intros H. unfold process_file. destruct (snd f) as [content|]; [|reflexivity].
  destruct (extract_genres_from_infobox content) as [genres|] eqn:E; [|reflexivity].
  cbn [artist_genres].
  destruct (decide (extract_artist_name_from_filename (fst f) = k)) as [Ek | Hne].
  - rewrite (H content eq_refl Ek) in E. discriminate.
  - apply lookup_insert_ne. exact Hne.
Qed.

Lemma fold_process_file_lookup files : forall b k,
  (forall name content, In (name, Some content) files ->
     extract_artist_name_from_filename name = k ->
     extract_genres_from_infobox content = None) ->
  artist_genres (fold_left process_file files b) !! k = artist_genres b !! k.
Proof.
  induction files as [|f files IH]; intros b k H; [reflexivity|].
  cbn [fold_left]. rewrite IH.
  - apply process_file_lookup. intros content Hc Hk.
    apply (H (fst f) content); [|exact Hk]. left. destruct f as [n c].
    cbn in *. rewrite Hc. reflexivity.
  - intros name content Hin. apply H. right. exact Hin.
Qed.

Lemma process_file_nonempty b f :
  (forall k v, artist_genres b !! k = Some v -> v <> []) ->
  forall k v, artist_genres (process_file b f) !! k = Some v -> v <> [].
Proof.
  intros Hb k v. unfold process_file. destruct (snd f) as [content|]; [|apply Hb].
  destruct (extract_genres_from_infobox content) as [genres|] eqn:E; [|apply Hb].
  cbn [artist_genres]. rewrite lookup_insert.
  case_decide; [|apply Hb].
  intros Hv. inversion Hv; subst. intros ->.
  apply (extract_genres_nonempty content). exact E.
Qed.

Lemma fold_process_file_nonempty files : forall b,
  (forall k v, artist_genres b !! k = Some v -> v <> []) ->
  forall k v, artist_genres (fold_left process_file files b) !! k = Some v -> v <> [].
Proof.
  induction files as [|f files IH]; intros b Hb; [exact Hb|].
  cbn [fold_left]. apply IH. apply process_file_nonempty. exact Hb.
Qed.

(** C8: [extract_genres_from_infobox] gives [None], and never an empty list,
    for a document whose infobox has no line that opens the genre field and
    for a document whose labels are all filtered out; [process_wiki_files]
    leaves the mapping as it is on such a document, so an artist key all of
    whose documents are of this kind is absent from the output mapping, and
    no key of the output mapping holds an empty list. *)
Theorem no_genres_no_entry :
  (forall text infobox : str,
      infobox_text text = Some infobox -> no_genre_line infobox = true ->
      extract_genres_from_infobox text = None)
  /\ (forall text infobox : str,
        infobox_text text = Some infobox ->
        parse_genre_field (join [newline] (genre_field_lines infobox)) = [] ->
        extract_genres_from_infobox text = None)
  /\ (forall text : str, extract_genres_from_infobox text <> Some [])
  /\ (forall (b : batch) (name content : str),
        extract_genres_from_infobox content = None ->
        artist_genres (process_file b (name, Some content)) = artist_genres b)
  /\ (forall (txt_files : list file) (artist : str),
        (forall name content, In (name, Some content) txt_files ->
           extract_artist_name_from_filename name = artist ->
           extract_genres_from_infobox content = None) ->
        process_wiki_files txt_files !! artist = None)
  /\ (forall (txt_files : list file) (artist : str) (genres : list str),
        process_wiki_files txt_files !! artist = Some genres -> genres <> []).
Proof.
  split_and!.
  - intros text infobox Hi Hn. unfold extract_genres_from_infobox.
    rewrite Hi, (no_genre_line_none infobox Hn). reflexivity.
  - intros text infobox Hi Hp. unfold extract_genres_from_infobox.
    rewrite Hi. destruct (is_nil (genre_field_lines infobox)); [reflexivity|].
    rewrite Hp. reflexivity.
  - apply extract_genres_nonempty.
  - intros b name content H. unfold process_file. cbn [fst snd]. rewrite H. reflexivity.
  - intros txt_files artist H. unfold process_wiki_files.
    rewrite fold_process_file_lookup by exact H. apply lookup_empty.
  - intros txt_files artist genres. unfold process_wiki_files.
    apply fold_process_file_nonempty. intros k v Hkv.
    cbn [artist_genres] in Hkv. rewrite lookup_empty in Hkv. discriminate.
Qed.

Lemma no_genres_no_entry_witness :
  extract_genres_from_infobox infobox_without_genre = None
  /\ extract_genres_from_infobox infobox_with_boilerplate = None
  /\ process_wiki_files
       [ ("The_Clash.txt" : str, Some infobox_without_genre);
         ("Queen.txt" : str, Some infobox_with_boilerplate) ] !! ("The Clash" : str) = None.
Proof.
  destruct no_genres_no_entry as (H1 & H2 & _ & _ & H5 & _). split_and!.
  - apply (H1 infobox_without_genre infobox_without_genre); reflexivity.
  - apply (H2 infobox_with_boilerplate infobox_with_boilerplate); reflexivity.
  - apply H5. intros name content Hin Hname.
    destruct Hin as [E | [E | []]]; inversion E; subst; vm_compute; reflexivity.
Defined.

(** * Cleaning the network *)

Lemma isolates_In g n : In n (isolates g) <-> In n (g_nodes g) /\ degree g n = 0%nat.
Proof.
  unfold isolates. rewrite filter_In, Nat.eqb_eq. reflexivity.
Qed.

Lemma remove_isolates_nodes g n :
  In n (g_nodes (remove_nodes_from (isolates g) g))
  <-> In n (g_nodes g) /\ degree g n <> 0%nat.
Proof.
  cbn [remove_nodes_from g_nodes]. rewrite filter_In, negb_true_iff, mem_false, isolates_In.
  tauto.
Qed.

Lemma degree_edge g e : In e (g_edges g) -> degree g (fst e) <> 0%nat /\ degree g (snd e) <> 0%nat.
Proof.
  intros H. unfold degree. split.
  - assert (Hin : In e (List.filter (fun e' => str_eqb (fst e') (fst e)) (g_edges g))).
    { apply filter_In. split; [exact H | apply str_eqb_eq; reflexivity]. }
    destruct (List.filter _ (g_edges g)); [contradiction | cbn [List.length]; lia].
  - assert (Hin : In e (List.filter (fun e' => str_eqb (snd e') (snd e)) (g_edges g))).
    { apply filter_In. split; [exact H | apply str_eqb_eq; reflexivity]. }
    destruct (List.filter (fun e' => str_eqb (snd e') (snd e)) (g_edges g));
      [contradiction | cbn [List.length]; lia].
Qed.

Lemma filter_all {A} (f : A -> bool) l :
  (forall x, In x l -> f x = true) -> List.filter f l = l.
Proof.
  induction l as [|x l IH]; intros H; [reflexivity|].
  cbn [List.filter]. rewrite (H x) by (left; reflexivity).
  rewrite IH; [reflexivity|]. intros y Hy. apply H. right. exact Hy.
Qed.

Lemma remove_isolates_edges g :
  g_edges (remove_nodes_from (isolates g) g) = g_edges g.
Proof.
  cbn [remove_nodes_from g_edges]. apply filter_all. intros e He.
  destruct (degree_edge g e He) as [H1 H2].
  rewrite andb_true_iff, !negb_true_iff, !mem_false, !isolates_In. tauto.
Qed.

Lemma merge_nonempty u v cs : cs <> [] -> merge u v cs <> [].
Proof.
  destruct cs as [|c cs]; intros H; [contradiction|]. cbn [merge].
  destruct (mem u c || mem v c); [destruct (mem u c && mem v c)|]; discriminate.
Qed.

Lemma components_nonempty g :
  g_nodes g <> [] -> weakly_connected_components g <> [].
Proof.
  intros H. unfold weakly_connected_components.
  assert (H0 : List.map (fun n : str => [n]) (g_nodes g) <> []).
  { destruct (g_nodes g); [contradiction | discriminate]. }
  revert H0. generalize (List.map (fun n : str => [n]) (g_nodes g)).
  induction (g_edges g) as [|e es IH]; intros cs Hcs; cbn [fold_left]; [exact Hcs|].
  apply IH, merge_nonempty, Hcs.
Qed.

Lemma components_empty g :
  g_nodes g = [] -> weakly_connected_components g = [].
Proof.
  intros H. unfold weakly_connected_components. rewrite H. cbn [List.map].
  induction (g_edges g) as [|e es IH]; cbn [fold_left merge]; auto.
Qed.

Lemma max_by_len_some l : l <> [] -> exists c, max_by_len l = Some c /\ In c l.
Proof.
  induction l as [|c l IH]; intros H; [contradiction|]. cbn [max_by_len].
  destruct l as [|d l].
  - exists c. split; [reflexivity | left; reflexivity].
  - destruct IH as (b & Eb & Hb); [discriminate|]. rewrite Eb.
    destruct (List.length c <? List.length b)%nat.
    + exists b. split; [reflexivity | right; exact Hb].
    + exists c. split; [reflexivity | left; reflexivity].
Qed.

(** * The scan loop: fuel and index *)

Lemma star_shift {A} p greedy s : forall i j (k k' : nat -> str -> option A),
  (forall n s', k (i + n)%nat s' = k' (j + n)%nat s') ->
  star p greedy i s k = star p greedy j s k'.
Proof.
  induction s as [|x s IH]; intros i j k k' H; cbn [star].
  - specialize (H 0%nat). rewrite !Nat.add_0_r in H. apply H.
  - assert (H0 : k i (x :: s) = k' j (x :: s)).
    { specialize (H 0%nat). rewrite !Nat.add_0_r in H. apply H. }
    assert (HS : star p greedy (S i) s k = star p greedy (S j) s k').
    { apply IH. intros n s'. specialize (H (S n) s').
      rewrite !Nat.add_succ_r in H. exact H. }
    rewrite H0, HS. reflexivity.
Qed.

Lemma rmatch_shift {A} ic r : bol_free r = true ->
  forall i j s g (k k' : nat -> str -> caps -> option A),
  (forall n s' g', k (i + n)%nat s' g' = k' (j + n)%nat s' g') ->
  rmatch ic r i s g k = rmatch ic r j s g k'.
Proof.
  induction r as [|c|cl| | |r1 IH1 r2 IH2|r1 IH1 r2 IH2|gr cl|m r IH];
    intros Hb i j s g k k' H; cbn [rmatch]; cbn [bol_free] in Hb.
  - specialize (H 0%nat). rewrite !Nat.add_0_r in H. apply H.
  - destruct s as [|x s]; [reflexivity|]. destruct (chr_eqb ic c x); [|reflexivity].
    specialize (H 1%nat). rewrite !Nat.add_1_r in H. apply H.
  - destruct s as [|x s]; [reflexivity|]. destruct (in_class ic cl x); [|reflexivity].
    specialize (H 1%nat). rewrite !Nat.add_1_r in H. apply H.
  - discriminate.
  - specialize (H 0%nat). rewrite !Nat.add_0_r in H. rewrite !H. reflexivity.
  - apply andb_true_iff in Hb. destruct Hb as [Hb1 Hb2].
    apply IH1; [exact Hb1|]. intros n s' g'. apply IH2; [exact Hb2|].
    intros n' s'' g''. rewrite <- !Nat.add_assoc. apply H.
  - apply andb_true_iff in Hb. destruct Hb as [Hb1 Hb2].
    rewrite (IH1 Hb1 i j s g k k' H), (IH2 Hb2 i j s g k k' H). reflexivity.
  - apply star_shift. intros n s'. apply H.
  - apply IH; [exact Hb|]. intros n s' g'.
    replace (i + n - i)%nat with n by lia. replace (j + n - j)%nat with n by lia.
    apply H.
Qed.

Lemma match_at_shift ic r i j s adv :
  bol_free r = true -> match_at ic r i s adv = match_at ic r j s adv.
Proof.
  intros Hb. unfold match_at. apply rmatch_shift; [exact Hb|].
  intros n s' g'.
  replace (i + n - i)%nat with n by lia. replace (j + n - j)%nat with n by lia.
  replace (i + n =? i)%nat with (n =? 0)%nat; [replace (j + n =? j)%nat with (n =? 0)%nat|].
  - reflexivity.
  - destruct n; cbn [Nat.eqb]; [rewrite Nat.add_0_r, Nat.eqb_refl; reflexivity|].
    symmetry. apply Nat.eqb_neq. lia.
  - destruct n; cbn [Nat.eqb]; [rewrite Nat.add_0_r, Nat.eqb_refl; reflexivity|].
    symmetry. apply Nat.eqb_neq. lia.
Qed.

Lemma search_from_shift ic r s : bol_free r = true ->
  forall i j adv, search_from ic r i s adv = search_from ic r j s adv.
Proof.
  intros Hb. induction s as [|x s IH]; intros i j adv; cbn [search_from];
    rewrite (match_at_shift ic r i j _ adv Hb); [reflexivity|].
  rewrite (IH (S i) (S j) false). reflexivity.
Qed.

Lemma search_from_length ic r s i adv pre m :
  search_from ic r i s adv = Some (pre, m) ->
  List.length s = (List.length pre + List.length (m_text m) + List.length (m_rest m))%nat
  /\ (adv = true -> (0 < List.length pre + List.length (m_text m))%nat).
Proof.
  intros H. apply (search_from_inv (fun _ => True)) in H; [|apply Forall_True].
  destruct H as (Hs & _ & Ha). split.
  - rewrite Hs at 1. rewrite !length_app. lia.
  - intros E. destruct (Ha E) as [Hp | Hp].
    + destruct pre; [contradiction | cbn [List.length]; lia].
    + destruct (m_text m); [contradiction | cbn [List.length]; lia].
Qed.

(** With enough fuel the loop stops on its own, and on a pattern without
    [^] its outcome does not depend on the index. *)
Lemma scan_fuel_shift ic r : bol_free r = true ->
  forall f1 f2 i j s adv,
  (scan_measure s adv < f1)%nat -> (scan_measure s adv < f2)%nat ->
  scan f1 ic r i s adv = scan f2 ic r j s adv.
Proof.
  intros Hb. induction f1 as [|f1 IH]; intros f2 i j s adv H1 H2; [lia|].
  destruct f2 as [|f2]; [lia|]. cbn [scan].
  rewrite (search_from_shift ic r s Hb i j adv).
  destruct (search_from ic r j s adv) as [[pre m]|] eqn:E; [|reflexivity].
  apply search_from_length in E. destruct E as [El Ea].
  rewrite (IH f2 _ (j + List.length pre + List.length (m_text m))%nat); [reflexivity| |].
  - unfold scan_measure in *. destruct (m_text m) as [|c t]; cbn [is_nil List.length] in *.
    + destruct adv; [specialize (Ea eq_refl)|]; lia.
    + destruct adv; lia.
  - unfold scan_measure in *. destruct (m_text m) as [|c t]; cbn [is_nil List.length] in *.
    + destruct adv; [specialize (Ea eq_refl)|]; lia.
    + destruct adv; lia.
Qed.

Lemma scan_fuel ic r f1 f2 i s adv :
  (scan_measure s adv < f1)%nat -> (scan_measure s adv < f2)%nat ->
  scan f1 ic r i s adv = scan f2 ic r i s adv.
Proof.
  revert f2 i s adv. induction f1 as [|f1 IH]; intros f2 i s adv H1 H2; [lia|].
  destruct f2 as [|f2]; [lia|]. cbn [scan].
  destruct (search_from ic r i s adv) as [[pre m]|] eqn:E; [|reflexivity].
  apply search_from_length in E. destruct E as [El Ea].
  rewrite (IH f2); [reflexivity| |].
  - unfold scan_measure in *. destruct (m_text m) as [|c t]; cbn [is_nil List.length] in *.
    + destruct adv; [specialize (Ea eq_refl)|]; lia.
    + destruct adv; lia.
  - unfold scan_measure in *. destruct (m_text m) as [|c t]; cbn [is_nil List.length] in *.
    + destruct adv; [specialize (Ea eq_refl)|]; lia.
    + destruct adv; lia.
Qed.

Lemma matches_fuel (s : str) :
  scan_measure s false < 2 + 2 * List.length s.
Proof. unfold scan_measure. lia. Qed.

Lemma scan_S fuel ic r i s adv :
  scan (S fuel) ic r i s adv
  = match search_from ic r i s adv with
    | None => ([], s)
    | Some (pre, m) =>
        let '(ms, tl) :=
          scan fuel ic r (i + List.length pre + List.length (m_text m))%nat (m_rest m)
            (is_nil (m_text m)) in
        ((pre, m) :: ms, tl)
    end.
Proof. reflexivity. Qed.

Lemma matches_unfold ic r s :
  matches ic r s = scan (S (S (2 * List.length s))) ic r 0 s false.
Proof. reflexivity. Qed.

(** One step of the loop, for a match that is not empty. *)
Lemma matches_step ic r s pre m :
  bol_free r = true ->
  search_from ic r 0 s false = Some (pre, m) -> m_text m <> [] ->
  matches ic r s = ((pre, m) :: fst (matches ic r (m_rest m)), snd (matches ic r (m_rest m))).
Proof.
  intros Hb Hs Hne. rewrite (matches_unfold ic r s), scan_S, Hs.
  assert (Ha : is_nil (m_text m) = false) by (destruct (m_text m); [contradiction | reflexivity]).
  rewrite Ha.
  apply search_from_length in Hs. destruct Hs as [El _].
  rewrite (scan_fuel_shift ic r Hb _ (S (S (2 * List.length (m_rest m)))) _ 0%nat).
  - rewrite <- matches_unfold. destruct (matches ic r (m_rest m)). reflexivity.
  - unfold scan_measure. destruct (m_text m); [contradiction|]. cbn [List.length] in El. lia.
  - apply matches_fuel.
Qed.

Lemma matches_none ic r s :
  search_from ic r 0 s false = None -> matches ic r s = ([], s).
Proof. intros H. rewrite matches_unfold, scan_S, H. reflexivity. Qed.

(** A first character at which the pattern cannot start is skipped. *)
Lemma matches_skip ic r c s :
  bol_free r = true -> match_at ic r 0 (c :: s) false = None ->
  matches ic r (c :: s)
  = (List.map (fun pm => (c :: fst pm, snd pm)) (firstn 1 (fst (matches ic r s)))
       ++ skipn 1 (fst (matches ic r s)),
     match fst (matches ic r s) with [] => c :: snd (matches ic r s)
                                | _ => snd (matches ic r s) end).
Proof.
  intros Hb Hm.
  assert (Hs : search_from ic r 0 (c :: s) false
               = match search_from ic r 0 s false with
                 | Some (pre, m) => Some (c :: pre, m)
                 | None => None
                 end).
  { cbn [search_from]. rewrite Hm. rewrite (search_from_shift ic r s Hb 1 0 false).
    reflexivity. }
  rewrite !matches_unfold, !scan_S, Hs.
  destruct (search_from ic r 0 s false) as [[pre m]|] eqn:E; [|reflexivity].
  pose proof (search_from_length _ _ _ _ _ _ _ E) as [El _].
  rewrite (scan_fuel_shift ic r Hb _ (S (2 * List.length s))
             _ (List.length pre + List.length (m_text m))%nat (m_rest m)).
  - cbn [Nat.add].
    destruct (scan (S (2 * List.length s)) ic r _ (m_rest m) _) as [ms tl].
    reflexivity.
  - unfold scan_measure. cbn [List.length]. destruct (is_nil (m_text m)); lia.
  - unfold scan_measure. destruct (m_text m); cbn [is_nil List.length] in *; lia.
Qed.

(** * Wiki links *)

Lemma re_findall_skip ic r c s :
  bol_free r = true -> match_at ic r 0 (c :: s) false = None ->
  re_findall ic r (c :: s) = re_findall ic r s.
Proof.
  intros Hb Hm. unfold re_findall. rewrite (matches_skip ic r c s Hb Hm).
  destruct (matches ic r s) as [ms tl]. cbn [fst snd].
  destruct ms as [|pm ms]; reflexivity.
Qed.

Lemma re_findall_step ic r s pre m :
  bol_free r = true ->
  search_from ic r 0 s false = Some (pre, m) -> m_text m <> [] ->
  re_findall ic r s = group 1 (m_caps m) :: re_findall ic r (m_rest m).
Proof.
  intros Hb Hs Hne. unfold re_findall. rewrite (matches_step ic r s pre m Hb Hs Hne).
  destruct (matches ic r (m_rest m)) as [ms tl]. reflexivity.
Qed.

Lemma star_lazy_run {A} p run : forall i s (k : nat -> str -> option A),
  Forall (fun c => p c = true) run ->
  (forall n, (n < List.length run)%nat -> k (i + n)%nat (skipn n run ++ s) = None) ->
  star p false i (run ++ s) k = star p false (i + List.length run)%nat s k.
Proof.
  induction run as [|x run IH]; intros i s k Hp Hk.
  - cbn [app List.length]. rewrite Nat.add_0_r. reflexivity.
  - inversion Hp; subst. cbn [app star]. rewrite H1.
    pose proof (Hk 0%nat) as H0. cbn [skipn List.length app] in H0.
    rewrite Nat.add_0_r in H0. rewrite H0 by lia.
    rewrite IH; auto.
    + cbn [List.length]. f_equal. lia.
    + intros n Hn. specialize (Hk (S n)). cbn [skipn List.length] in Hk.
      rewrite Nat.add_succ_r in Hk. apply Hk. lia.
Qed.

Lemma star_greedy_run {A} p run : forall i s (k : nat -> str -> option A) a,
  Forall (fun c => p c = true) run ->
  star p true (i + List.length run)%nat s k = Some a ->
  star p true i (run ++ s) k = Some a.
Proof.
  induction run as [|x run IH]; intros i s k a Hp Hk.
  - cbn [app List.length] in *. rewrite Nat.add_0_r in Hk. exact Hk.
  - inversion Hp; subst. cbn [app star]. rewrite H1.
    rewrite (IH (S i) s k a); auto.
    cbn [List.length] in Hk. rewrite Nat.add_succ_r in Hk. exact Hk.
Qed.

Lemma existsb_eqb_sym c (cs : str) :
  existsb (fun p => char_eqb p c) cs = existsb (char_eqb c) cs.
Proof.
  induction cs as [|x cs IH]; cbn [existsb]; [reflexivity|].
  rewrite IH, (char_eqb_sym x c). reflexivity.
Qed.

Lemma target_ok_spec t :
  target_ok t = true ->
  t <> [] /\ Forall (fun c => in_class false (NoneOf "[]|") c = true) t
  /\ Forall (fun c => c <> (ch "|") /\ c <> (ch "]")) t.
Proof.
  unfold target_ok. rewrite andb_true_iff, forallb_forall. intros [Hn H].
  split_and!.
  - destruct t; [discriminate | discriminate].
  - apply List.Forall_forall. intros c Hc. specialize (H c Hc).
    cbn [in_class chr_eqb]. rewrite existsb_eqb_sym. exact H.
  - apply List.Forall_forall. intros c Hc. specialize (H c Hc).
    apply negb_true_iff in H. cbn [existsb str_of_string] in H.
    apply orb_false_iff in H. destruct H as [_ H].
    apply orb_false_iff in H. destruct H as [H1 H].
    apply orb_false_iff in H. destruct H as [H2 _].
    apply char_eqb_neq in H1, H2. auto.
Qed.

Lemma firstn_exact {A} (l r : list A) n :
  n = List.length l -> firstn n (l ++ r) = l.
Proof. intros ->. rewrite firstn_app, Nat.sub_diag, firstn_all. cbn. apply app_nil_r. Qed.

Lemma skipn_head_Forall {A} (P : A -> Prop) n (l : list A) :
  Forall P l -> (n < List.length l)%nat ->
  exists y l', skipn n l = y :: l' /\ P y.
Proof.
  intros H Hn. destruct (skipn n l) as [|y l'] eqn:E.
  - apply (f_equal (@List.length A)) in E. rewrite length_skipn in E.
    cbn [List.length] in E. lia.
  - exists y, l'. split; [reflexivity|].
    assert (Hd : Forall P (skipn n l)) by (apply Forall_drop; exact H).
    rewrite E in Hd. inversion Hd; auto.
Qed.

Lemma link_match_bare t rest :
  target_ok t = true ->
  match_at false Pat.link 0 ("[[" ++ t ++ "]]" ++ rest) false
  = Some {| m_text := "[[" ++ t ++ "]]"; m_rest := rest; m_caps := [(1%nat, t)] |}.
Proof.
  intros Ht. apply target_ok_spec in Ht. destruct Ht as (Hne & Hcl & Hch).
  destruct t as [|x t]; [contradiction|].
  inversion Hcl as [|? ? Hx Hcl']; subst. inversion Hch as [|? ? [Hx1 Hx2] Hch']; subst.
  unfold match_at, Pat.link.
  cbn [rmatch Lit str_of_string app Opt Plus chr_eqb].
  change (char_eqb "[" "[") with true. cbv iota.
  replace (in_class false (NoneOf _) x) with true by (symmetry; exact Hx).
  match goal with |- star ?p false ?i (t ++ ?s) ?k = _ =>
    rewrite (star_lazy_run p t i s k)
  end.
  - cbn [star in_class chr_eqb existsb]. change (char_eqb "]" "]") with true.
    change (char_eqb "|" "]") with false. change (char_eqb "[" "]") with false.
    cbn [orb negb andb]. do 2 f_equal.
    + rewrite Nat.sub_0_r. cbn [Nat.add firstn]. do 3 f_equal.
      replace (S (S (List.length t))) with (List.length t + 2)%nat by lia.
      rewrite firstn_app_2. reflexivity.
    + cbn [Nat.add Nat.sub firstn]. rewrite firstn_exact by reflexivity. reflexivity.
  - exact Hcl'.
  - intros n Hn.
    destruct (skipn_head_Forall _ n t Hch' Hn) as (y & l' & E & Hy1 & Hy2).
    rewrite E. cbn [app].
    destruct (char_eqb_spec "|" y) as [Eq | _]; [congruence|].
    destruct (char_eqb_spec "]" y) as [Eq | _]; [congruence|]. reflexivity.
Qed.

Lemma display_ok_spec d :
  display_ok d = true ->
  d <> [] /\ Forall (fun c => in_class false (NoneOf "[]") c = true) d.
Proof.
  unfold display_ok. rewrite andb_true_iff, forallb_forall. intros [Hn H]. split.
  - destruct d; discriminate.
  - apply List.Forall_forall. intros c Hc. specialize (H c Hc).
    cbn [in_class chr_eqb]. rewrite existsb_eqb_sym. exact H.
Qed.

Lemma link_match_display t d rest :
  target_ok t = true -> display_ok d = true ->
  match_at false Pat.link 0 ("[[" ++ t ++ "|" ++ d ++ "]]" ++ rest) false
  = Some {| m_text := "[[" ++ t ++ "|" ++ d ++ "]]"; m_rest := rest;
            m_caps := [(1%nat, t)] |}.
Proof.
  intros Ht Hd. apply target_ok_spec in Ht. destruct Ht as (Hne & Hcl & Hch).
  apply display_ok_spec in Hd. destruct Hd as (Hdne & Hdc).
  destruct t as [|x t]; [contradiction|]. destruct d as [|z d]; [contradiction|].
  inversion Hcl as [|? ? Hx Hcl']; subst. inversion Hch as [|? ? [Hx1 Hx2] Hch']; subst.
  inversion Hdc as [|? ? Hz Hdc']; subst.
  unfold match_at, Pat.link.
  cbn [rmatch Lit str_of_string app Opt Plus chr_eqb].
  change (char_eqb "[" "[") with true. cbv iota.
  replace (in_class false (NoneOf _) x) with true by (symmetry; exact Hx).
  match goal with |- star ?p false ?i (t ++ ?s) ?k = _ =>
    rewrite (star_lazy_run p t i s k)
  end.
  - cbn [star]. change (in_class false (NoneOf [(ch "["); (ch "]"); (ch "|")]) "|") with false.
    cbv iota. change (char_eqb "|" "|") with true. cbv iota.
    replace (in_class false (NoneOf _) z) with true by (symmetry; exact Hz).
    match goal with |- match star ?p true ?i (d ++ ?s) ?k with _ => _ end = Some ?a =>
      rewrite (star_greedy_run p d i s k a)
    end.
    + reflexivity.
    + exact Hdc'.
    + cbn [star in_class chr_eqb existsb]. change (char_eqb "]" "]") with true.
      change (char_eqb "[" "]") with false. cbn [orb negb andb]. f_equal. f_equal.
      * replace ((ch "[") :: (ch "[") :: x :: t ++ (ch "|") :: z :: d
                   ++ (ch "]") :: (ch "]") :: rest)
          with (((ch "[") :: (ch "[") :: x :: t ++ (ch "|") :: z :: d
                   ++ [(ch "]"); (ch "]")]) ++ rest)
          by (cbn [app]; rewrite <- !app_assoc; cbn [app]; rewrite <- !app_assoc;
              reflexivity).
        apply firstn_exact. cbn [List.length]. rewrite !length_app.
        cbn [List.length]. rewrite !length_app. cbn [List.length]. lia.
      * replace (x :: t ++ (ch "|") :: z :: d ++ (ch "]") :: (ch "]") :: rest)
          with ((x :: t) ++ (ch "|") :: z :: d ++ (ch "]") :: (ch "]") :: rest)
          by reflexivity.
        rewrite firstn_exact by (cbn [List.length]; lia). reflexivity.
  - exact Hcl'.
  - intros n Hn.
    destruct (skipn_head_Forall _ n t Hch' Hn) as (y & l' & E & Hy1 & Hy2).
    rewrite E. cbn [app].
    destruct (char_eqb_spec "|" y) as [Eq | _]; [congruence|].
    destruct (char_eqb_spec "]" y) as [Eq | _]; [congruence|]. reflexivity.
Qed.

Lemma lstrip_head s c t : lstrip s = c :: t -> is_space c = false.
Proof.
  induction s as [|x s IH]; cbn [lstrip]; [discriminate|].
  destruct (is_space x) eqn:E; [exact IH|]. intros H. inversion H; subst. exact E.
Qed.

Lemma strip_is_trimmed s : trimmed (strip s).
Proof.
  split.
  - intros c s' H. unfold strip in H.
    destruct (lstrip s) as [|a u] eqn:E; [discriminate|].
    pose proof (lstrip_head _ _ _ E) as Ha.
    pose proof (strip_cons_nonspace a u Ha) as Hs.
    unfold strip in Hs. cbn [lstrip] in Hs. rewrite Ha in Hs.
    rewrite Hs in H. inversion H; subst. exact Ha.
  - intros s' c H. unfold strip, rstrip in H.
    apply (f_equal (@rev char)) in H. rewrite rev_involutive, rev_app_distr in H.
    cbn [rev app] in H. eapply lstrip_head. exact H.
Qed.

Lemma strip_idempotent s : strip (strip s) = strip s.
Proof. apply strip_trimmed, strip_is_trimmed. Qed.

Lemma clean_link_some m l :
  clean_link m = Some l -> l <> [] /\ ~ In (ch "#") l /\ strip l = l.
Proof.
  unfold clean_link. destruct (is_nil _) eqn:E; [discriminate|].
  intros H. inversion H; subst. split_and!.
  - intros E'. rewrite E' in E. discriminate.
  - destruct (split_char_head "#" m) as (l0 & ls & Es & _ & _ & Hl0).
    rewrite Es. cbn [hd].
    assert (Hf : Forall (fun c => c <> (ch "#")) (strip l0)).
    { apply strip_ok. apply List.Forall_forall. intros c Hc ->. contradiction. }
    rewrite List.Forall_forall in Hf. intros Hin. apply (Hf _ Hin). reflexivity.
  - apply strip_idempotent.
Qed.

Lemma search_here ic r s m adv i :
  match_at ic r i s adv = Some m -> search_from ic r i s adv = Some ([], m).
Proof. intros H. destruct s; cbn [search_from]; rewrite H; reflexivity. Qed.

(** * Fields that hold a list template *)

(** C2: the program at three field texts that hold a list template.  When
    the template opens the field, line 91 removes its name before line 98
    looks for it, so the field goes through the plain branch and the
    parenthetical stays.  When the template ends the field, line 92 removes
    its closing braces, the depth never returns to zero and no label comes
    out.  Only a template with text on both sides reaches the item loop, which
    then drops [(UK)] and keeps [(early)]. *)
Theorem list_template_dispatch :
  is_list_template (prepare flatlist_field) = false
  /\ parse_genre_field flatlist_field = [ "punk rock (uk)" : str; "ska" : str ]
  /\ is_list_template (prepare trailing_hlist_field) = true
  /\ parse_genre_field trailing_hlist_field = []
  /\ is_list_template (prepare embedded_hlist_field) = true
  /\ parse_genre_field embedded_hlist_field = [ "punk" : str; "ska (early)" : str ].
Proof. split_and!; vm_compute; reflexivity. Qed.

(** * Comments and the depth counters *)

(** C5: the program at documents that differ inside a comment only.  The
    scan that delimits the infobox and the depth counter of the field locator
    read the text with its comments, which [parse_genre_field] removes only
    later: an open brace in the comment keeps the capture going into the next
    field, and closing braces in a comment end the infobox before the genre
    field. *)
Theorem comment_braces_reach_depth_counters :
  extract_genres_from_infobox (commented " note ") = Some [ "punk" : str ]
  /\ extract_genres_from_infobox (commented " { ")
     = Some [ "punk" : str; "born = 1970" : str ]
  /\ extract_genres_from_infobox (commented_above " note ") = Some [ "punk" : str ]
  /\ extract_genres_from_infobox (commented_above " }} ") = None.
Proof. split_and!; vm_compute; reflexivity. Qed.

(** * The scenarios of the specification *)

(** C1: the document of the end-to-end scenario, read from [The_Clash.txt],
    gives the artist key [The Clash], the genres [punk rock] and
    [rock and roll] in that order, and a mapping that holds exactly this
    entry. *)
Theorem the_clash_end_to_end :
  extract_artist_name_from_filename "The_Clash.txt" = ("The Clash" : str)
  /\ extract_genres_from_infobox the_clash_document
     = Some [ "punk rock" : str; "rock and roll" : str ]
  /\ process_wiki_files [ ("The_Clash.txt" : str, Some the_clash_document) ]
     = {[ ("The Clash" : str) := [ "punk rock" : str; "rock and roll" : str ] ]}.
Proof.
  split_and!; vm_compute; reflexivity.
Qed.

(** * Artist names from file names *)

Lemma replace_char_ok (P : char -> Prop) a b s :
  P b -> Forall P s -> Forall P (replace_char a b s).
Proof.
  intros Hb. induction 1 as [|x s Hx Hs IH]; cbn [replace_char List.map]; constructor.
  - destruct (char_eqb x a); assumption.
  - exact IH.
Qed.

Lemma replace_char_fresh a b s : Forall (fun c => c <> a) (replace_char a b s) \/ a = b.
Proof.
  destruct (char_eqb_spec a b) as [E | Hne]; [right; exact E | left].
  induction s as [|x s IH]; cbn [replace_char List.map]; constructor; [|exact IH].
  destruct (char_eqb_spec x a) as [-> | Hx]; [intros E; apply Hne; symmetry; exact E | exact Hx].
Qed.

Lemma artist_name_no_underscore filename :
  ~ In (ch "_") (extract_artist_name_from_filename filename).
Proof.
  unfold extract_artist_name_from_filename.
  assert (H : Forall (fun c => c <> (ch "_"))
                (strip (re_sub false Pat.name_suffix []
                   (replace_char "_" " " (fst (splitext filename)))))).
  { apply strip_ok, re_sub_ok; [constructor|].
    destruct (replace_char_fresh "_" " " (fst (splitext filename))) as [H | E];
      [exact H | discriminate E]. }
  rewrite List.Forall_forall in H. intros Hin. apply (H _ Hin). reflexivity.
Qed.

Lemma artist_name_stripped filename :
  strip (extract_artist_name_from_filename filename)
  = extract_artist_name_from_filename filename.
Proof. apply strip_idempotent. Qed.

(** X1: the artist name drawn from a file name holds no underscore and has
    no white space at either end. *)
Theorem artist_name_clean (filename : str) :
  ~ In (ch "_") (extract_artist_name_from_filename filename)
  /\ strip (extract_artist_name_from_filename filename)
     = extract_artist_name_from_filename filename.
Proof. split; [apply artist_name_no_underscore | apply artist_name_stripped]. Qed.

Lemma replace_char_inverse a b s :
  ~ In b s -> replace_char b a (replace_char a b s) = s.
Proof.
  induction s as [|x s IH]; intros H; cbn [replace_char List.map]; [reflexivity|].
  fold (replace_char a b s). fold (replace_char b a (replace_char a b s)).
  rewrite IH by (intros Hin; apply H; right; exact Hin). f_equal.
  destruct (char_eqb_spec x a) as [-> | Hxa].
  - rewrite char_eqb_refl. reflexivity.
  - destruct (char_eqb_spec x b) as [-> | _]; [exfalso; apply H; left|]; reflexivity.
Qed.

Lemma find_char_none c s : ~ In c s -> find_char c s = None.
Proof.
  induction s as [|x s IH]; intros H; cbn [find_char]; [reflexivity|].
  destruct (char_eqb_spec x c) as [-> | _]; [exfalso; apply H; left; reflexivity|].
  rewrite IH; [reflexivity|]. intros Hin. apply H. right. exact Hin.
Qed.

Lemma find_char_app_r c a b :
  ~ In c a -> find_char c (a ++ b) = option_map (fun k => (List.length a + k)%nat) (find_char c b).
Proof.
  induction a as [|x a IH]; intros H; cbn [app find_char List.length].
  - destruct (find_char c b); reflexivity.
  - destruct (char_eqb_spec x c) as [-> | _]; [exfalso; apply H; left; reflexivity|].
    rewrite IH by (intros Hin; apply H; right; exact Hin).
    destruct (find_char c b); reflexivity.
Qed.

Lemma simple_name_spec s :
  simple_name s = true ->
  s <> [] /\ ~ In (ch "_") s /\ ~ In (ch ".") s /\ ~ In (ch "/") s /\ ~ In (ch "(") s.
Proof.
  unfold simple_name. rewrite andb_true_iff, forallb_forall. intros [Hn H].
  assert (Hc : forall c, In c s -> ~ In c (str_of_string "_./(")).
  { intros c Hc Hin. specialize (H c Hc). apply negb_true_iff in H.
    assert (E : existsb (char_eqb c) "_./(" = true).
    { apply existsb_exists. exists c. split; [exact Hin | apply char_eqb_refl]. }
    congruence. }
  split_and!.
  - destruct s; discriminate.
  - intros Hin. apply (Hc _ Hin). vm_compute. tauto.
  - intros Hin. apply (Hc _ Hin). vm_compute. tauto.
  - intros Hin. apply (Hc _ Hin). vm_compute. tauto.
  - intros Hin. apply (Hc _ Hin). vm_compute. tauto.
Qed.

Lemma splitext_txt u :
  u <> [] -> ~ In (ch ".") u -> ~ In (ch "/") u ->
  splitext (u ++ ".txt") = (u, str_of_string ".txt").
Proof.
  intros Hne Hdot Hsep. unfold splitext, rfind_char.
  rewrite rev_app_distr.
  assert (Hs : find_char "/" (rev (str_of_string ".txt") ++ rev u) = None).
  { apply find_char_none. intros Hin. apply in_app_or in Hin. destruct Hin as [Hin | Hin].
    - vm_compute in Hin. intuition discriminate.
    - apply Hsep, in_rev, Hin. }
  rewrite Hs.
  assert (Hd : find_char "." (rev (str_of_string ".txt") ++ rev u) = Some 3%nat)
    by reflexivity.
  rewrite Hd. rewrite length_app. cbn [List.length str_of_string].
  replace (Z.of_nat (List.length u + 4) - 1 - Z.of_nat 3)%Z with (Z.of_nat (List.length u)) by lia.
  replace (-1 <? Z.of_nat (List.length u))%Z with true by (symmetry; apply Z.ltb_lt; lia).
  rewrite Nat2Z.id. change (Z.to_nat (-1 + 1)) with 0%nat.
  set (p := u ++ [(ch "."); (ch "t"); (ch "x"); (ch "t")]).
  assert (Hf : firstn (List.length u) p = u) by (apply firstn_exact; reflexivity).
  assert (Hk : skipn (List.length u) p = [(ch "."); (ch "t"); (ch "x"); (ch "t")]).
  { unfold p. rewrite skipn_app, skipn_all, Nat.sub_diag. reflexivity. }
  assert (Hsl : slice p 0 (List.length u) = u).
  { unfold slice. rewrite Nat.sub_0_r. exact Hf. }
  rewrite Hsl, Hf, Hk.
  assert (He : existsb (fun c => negb (char_eqb c ".")) u = true).
  { destruct u as [|c u']; [contradiction|]. cbn [existsb].
    destruct (char_eqb_spec c ".") as [-> | _]; [exfalso; apply Hdot; left; reflexivity|].
    reflexivity. }
  rewrite He. reflexivity.
Qed.

Lemma name_suffix_needs_paren i s adv :
  Forall (fun c => c <> (ch "(")) s -> match_at false Pat.name_suffix i s adv = None.
Proof.
  intros H. unfold match_at, Pat.name_suffix. cbn [rmatch].
  destruct (star _ true i s _) as [a|] eqn:E; [|reflexivity].
  apply star_inv in E. destruct E as (n & Hn & E).
  apply (Forall_drop _ n) in H.
  destruct (skipn n s) as [|x t] eqn:Es; [discriminate|].
  cbn [chr_eqb] in E. destruct (char_eqb_spec "(" x) as [<- | _]; [|discriminate].
  inversion H; subst. contradiction.
Qed.

(** X2: the file name made from an artist name, with underscores for its
    spaces and the extension [.txt], gives the artist name back, for a name
    without underscore, dot, slash and opening parenthesis and without white
    space at its ends. *)
Theorem artist_name_round_trip (artist : str) :
  simple_name artist = true -> strip artist = artist ->
  extract_artist_name_from_filename (replace_char " " "_" artist ++ ".txt") = artist.
Proof.
  intros Hs Ht. apply simple_name_spec in Hs.
  destruct Hs as (Hne & Hus & Hdot & Hsep & Hpar).
  unfold extract_artist_name_from_filename.
  rewrite splitext_txt.
  - cbn [fst]. rewrite replace_char_inverse by exact Hus.
    rewrite re_sub_no_match; [exact Ht|].
    apply (search_from_none false Pat.name_suffix (fun c => c = (ch "("))).
    + intros i s adv Hf. apply name_suffix_needs_paren. exact Hf.
    + apply List.Forall_forall. intros c Hc ->. contradiction.
  - destruct artist; [contradiction | discriminate].
  - assert (Hf : Forall (fun c => c <> (ch ".")) (replace_char " " "_" artist)).
    { apply replace_char_ok; [discriminate|].
      apply List.Forall_forall. intros c Hc ->. contradiction. }
    rewrite List.Forall_forall in Hf. intros Hin. apply (Hf _ Hin). reflexivity.
  - assert (Hf : Forall (fun c => c <> (ch "/")) (replace_char " " "_" artist)).
    { apply replace_char_ok; [discriminate|].
      apply List.Forall_forall. intros c Hc ->. contradiction. }
    rewrite List.Forall_forall in Hf. intros Hin. apply (Hf _ Hin). reflexivity.
Qed.

Lemma artist_name_round_trip_witness :
  extract_artist_name_from_filename (replace_char " " "_" "The Clash" ++ ".txt")
  = ("The Clash" : str).
Proof. apply (artist_name_round_trip "The Clash"); reflexivity. Defined.

(** * Balanced spans *)

Lemma depth_of_nil open close : depth_of open close [] = 0%Z.
Proof. reflexivity. Qed.

Lemma depth_of_cons open close c s :
  depth_of open close (c :: s)
  = ((if char_eqb open c then 1 else 0) - (if char_eqb close c then 1 else 0)
     + depth_of open close s)%Z.
Proof.
  unfold depth_of. rewrite !count_cons.
  destruct (char_eqb open c), (char_eqb close c); lia.
Qed.

Lemma brace_scan_some open close (Hne : open <> close) s : forall d i j,
  (1 <= d)%Z -> brace_scan open close s d i = Some j ->
  exists pre post,
    s = pre ++ close :: post /\ j = (i + List.length pre)%nat
    /\ (d + depth_of open close pre = 1)%Z
    /\ (forall n, (1 <= d + depth_of open close (firstn n pre))%Z).
Proof.
  induction s as [|c s IH]; intros d i j Hd H; cbn [brace_scan] in H; [discriminate|].
  destruct (char_eqb_spec c open) as [-> | Hco].
  - apply IH in H; [|lia]. destruct H as (pre & post & Hs & Hj & Hdep & Hpre).
    exists (open :: pre), post. split_and!.
    + rewrite Hs. reflexivity.
    + cbn [List.length]. lia.
    + rewrite depth_of_cons, char_eqb_refl.
      destruct (char_eqb_spec close open) as [E | _]; [congruence | lia].
    + intros [|n]; cbn [firstn]; [rewrite depth_of_nil; lia|].
      rewrite depth_of_cons, char_eqb_refl.
      destruct (char_eqb_spec close open) as [E | _]; [congruence|].
      specialize (Hpre n). lia.
  - destruct (char_eqb_spec c close) as [-> | Hcc].
    + destruct (d - 1 =? 0)%Z eqn:E.
      * apply Z.eqb_eq in E. inversion H; subst.
        exists [], s. split_and!; [reflexivity | cbn; lia | rewrite depth_of_nil; lia |].
        intros n. destruct n; cbn [firstn]; rewrite depth_of_nil; lia.
      * apply Z.eqb_neq in E. apply IH in H; [|lia].
        destruct H as (pre & post & Hs & Hj & Hdep & Hpre).
        exists (close :: pre), post. split_and!.
        -- rewrite Hs. reflexivity.
        -- cbn [List.length]. lia.
        -- rewrite depth_of_cons, char_eqb_refl.
           destruct (char_eqb_spec open close) as [E' | _]; [congruence | lia].
        -- intros [|n]; cbn [firstn]; [rewrite depth_of_nil; lia|].
           rewrite depth_of_cons, char_eqb_refl.
           destruct (char_eqb_spec open close) as [E' | _]; [congruence|].
           specialize (Hpre n). lia.
    + apply IH in H; [|lia]. destruct H as (pre & post & Hs & Hj & Hdep & Hpre).
      exists (c :: pre), post. split_and!.
      * rewrite Hs. reflexivity.
      * cbn [List.length]. lia.
      * rewrite depth_of_cons.
        destruct (char_eqb_spec open c) as [E' | _]; [congruence|].
        destruct (char_eqb_spec close c) as [E' | _]; [congruence | lia].
      * intros [|n]; cbn [firstn]; [rewrite depth_of_nil; lia|].
        rewrite depth_of_cons.
        destruct (char_eqb_spec open c) as [E' | _]; [congruence|].
        destruct (char_eqb_spec close c) as [E' | _]; [congruence|].
        specialize (Hpre n). lia.
Qed.

Lemma brace_scan_none open close (Hne : open <> close) s : forall d i,
  (1 <= d)%Z -> brace_scan open close s d i = None ->
  forall n, (1 <= d + depth_of open close (firstn n s))%Z.
Proof.
  induction s as [|c s IH]; intros d i Hd H n.
  - destruct n; cbn [firstn]; rewrite depth_of_nil; lia.
  - cbn [brace_scan] in H. destruct n as [|n]; cbn [firstn]; [rewrite depth_of_nil; lia|].
    rewrite depth_of_cons.
    destruct (char_eqb_spec c open) as [-> | Hco].
    + rewrite char_eqb_refl.
      destruct (char_eqb_spec close open) as [E | _]; [congruence|].
      specialize (IH (d + 1)%Z (S i) ltac:(lia) H n). lia.
    + destruct (char_eqb_spec open c) as [E | _]; [congruence|].
      destruct (char_eqb_spec c close) as [-> | Hcc].
      * rewrite char_eqb_refl.
        destruct (d - 1 =? 0)%Z eqn:E; [discriminate|]. apply Z.eqb_neq in E.
        specialize (IH (d - 1)%Z (S i) ltac:(lia) H n). lia.
      * destruct (char_eqb_spec close c) as [E | _]; [congruence|].
        specialize (IH d (S i) Hd H n). lia.
Qed.

Lemma never_closed_false open close s :
  never_closed open close s = false ->
  exists n, depth_of open close (firstn (S n) s) = 0%Z.
Proof.
  unfold never_closed. intros H.
  destruct (forallb_forall (fun n => negb (depth_of open close (firstn n s) =? 0)%Z)
              (seq 1 (List.length s))) as [_ Hb].
  destruct (existsb (fun n => (depth_of open close (firstn n s) =? 0)%Z)
              (seq 1 (List.length s))) eqn:E.
  - apply existsb_exists in E. destruct E as (n & Hn & E). apply Z.eqb_eq in E.
    apply in_seq in Hn. destruct n as [|n]; [lia | eauto].
  - exfalso. rewrite Hb in H; [discriminate|]. intros n Hn.
    apply negb_true_iff. destruct (depth_of open close (firstn n s) =? 0)%Z eqn:E'; auto.
    assert (Ex : existsb (fun n => (depth_of open close (firstn n s) =? 0)%Z)
                   (seq 1 (List.length s)) = true)
      by (apply existsb_exists; eauto).
    congruence.
Qed.

(** A scan that starts on an opening delimiter closes when some prefix has
    depth zero, and then on the first such prefix. *)
Lemma brace_scan_closes open close (Hne : open <> close) s i :
  never_closed open close (open :: s) = false ->
  exists body post,
    s = body ++ close :: post
    /\ brace_scan open close (open :: s) 0 i = Some (S i + List.length body)%nat
    /\ depth_of open close (open :: body ++ [close]) = 0%Z
    /\ (forall n, (n <= List.length body)%nat ->
          (1 <= depth_of open close (firstn (S n) (open :: body ++ [close])))%Z).
Proof.
  intros H. apply never_closed_false in H. destruct H as (n & Hn).
  cbn [brace_scan]. rewrite char_eqb_refl. change (0 + 1)%Z with 1%Z.
  destruct (brace_scan open close s 1 (S i)) as [j|] eqn:E.
  - apply brace_scan_some in E; [|exact Hne|lia].
    destruct E as (body & post & Hs & Hj & Hd & Hp).
    exists body, post. split_and!; [exact Hs | subst j; reflexivity | |].
    + rewrite depth_of_cons, char_eqb_refl.
      destruct (char_eqb_spec close open) as [E | _]; [congruence|].
      unfold depth_of in *. unfold count in *.
      rewrite !List.filter_app, !length_app. cbn [List.filter List.length].
      rewrite char_eqb_refl.
      destruct (char_eqb_spec open close) as [E | _]; [congruence|].
      cbn [List.length]. lia.
    + intros m Hm. cbn [firstn]. rewrite depth_of_cons, char_eqb_refl.
      destruct (char_eqb_spec close open) as [E | _]; [congruence|].
      rewrite firstn_app. replace (m - List.length body)%nat with 0%nat by lia.
      cbn [firstn]. rewrite app_nil_r. specialize (Hp m). lia.
  - exfalso. pose proof (brace_scan_none open close Hne s 1 (S i) ltac:(lia) E) as Hall.
    cbn [firstn] in Hn. rewrite depth_of_cons, char_eqb_refl in Hn.
    destruct (char_eqb_spec close open) as [E' | _]; [congruence|].
    specialize (Hall n). lia.
Qed.

Lemma find_char_some c s k :
  find_char c s = Some k ->
  exists pre rest, s = pre ++ c :: rest /\ List.length pre = k /\ ~ In c pre.
Proof.
  revert k. induction s as [|x s IH]; intros k H; cbn [find_char] in H; [discriminate|].
  destruct (char_eqb_spec x c) as [-> | Hne].
  - inversion H; subst. exists [], s. split_and!; [reflexivity | reflexivity | intros []].
  - destruct (find_char c s) as [k'|] eqn:E; [|discriminate]. inversion H; subst.
    destruct (IH k' eq_refl) as (pre & rest & Hs & Hl & Hn).
    exists (x :: pre), rest. split_and!.
    + rewrite Hs. reflexivity.
    + cbn [List.length]. rewrite Hl. reflexivity.
    + intros [E' | Hin]; [congruence | contradiction].
Qed.

Lemma contains_single c s : In c s -> contains [c] s = true.
Proof.
  induction s as [|x s IH]; intros H; [contradiction|]. cbn [contains startswith].
  destruct H as [-> | H].
  - rewrite char_eqb_refl. reflexivity.
  - rewrite (IH H). apply orb_true_r.
Qed.

(** X3: when the depth returns to zero, [extract_nested_content] returns the
    span from the first opening delimiter to the delimiter that closes it:
    the span is a part of the text, nothing before it holds an opening
    delimiter, its opening and closing delimiters are equal in number, and
    the depth is at least one after each of its proper prefixes. *)
Theorem extract_nested_content_balanced (text : str) (open_char close_char : char)
    (start_idx : nat) :
  open_char <> close_char ->
  find_char open_char text = Some start_idx ->
  never_closed open_char close_char (skipn start_idx text) = false ->
  exists pre body post,
    text = pre ++ (open_char :: body ++ [close_char]) ++ post
    /\ List.length pre = start_idx /\ ~ In open_char pre
    /\ extract_nested_content text open_char close_char = open_char :: body ++ [close_char]
    /\ count open_char (open_char :: body ++ [close_char])
       = count close_char (open_char :: body ++ [close_char])
    /\ (forall n, (n <= List.length body)%nat ->
          (1 <= depth_of open_char close_char
                  (firstn (S n) (open_char :: body ++ [close_char])))%Z).
Proof.
  intros Hne Hf Hc.
  destruct (find_char_some _ _ _ Hf) as (pre & rest & Ht & Hl & Hpre).
  assert (Hsk : skipn start_idx text = open_char :: rest).
  { rewrite Ht, <- Hl. rewrite skipn_app, skipn_all, Nat.sub_diag. reflexivity. }
  rewrite Hsk in Hc.
  destruct (brace_scan_closes open_char close_char Hne rest start_idx Hc)
    as (body & post & Hr & Hscan & Hd & Hp).
  exists pre, body, post. split_and!; auto.
  - rewrite Ht, Hr. cbn [app]. rewrite <- app_assoc. reflexivity.
  - unfold extract_nested_content.
    rewrite contains_single by (rewrite Ht; apply in_or_app; right; left; reflexivity).
    cbn [negb]. rewrite Hf, Hsk, Hscan. unfold slice. rewrite Hsk, Hr.
    replace (S start_idx + List.length body + 1 - start_idx)%nat
      with (S (List.length body + 1)) by lia.
    cbn [firstn]. f_equal.
    change (body ++ close_char :: post) with (body ++ [close_char] ++ post).
    rewrite app_assoc. apply firstn_exact. rewrite length_app. reflexivity.
  - unfold depth_of in Hd. lia.
Qed.

Lemma extract_nested_content_balanced_witness :
  exists pre body post,
    str_of_string "see {{a{b}c}} and }" = pre ++ ((ch "{") :: body ++ [(ch "}")]) ++ post
    /\ extract_nested_content "see {{a{b}c}} and }" "{" "}" = (ch "{") :: body ++ [(ch "}")].
Proof.
  destruct (extract_nested_content_balanced "see {{a{b}c}} and }" "{" "}" 4)
    as (pre & body & post & H1 & _ & _ & H4 & _).
  - discriminate.
  - reflexivity.
  - reflexivity.
  - exists pre, body, post. split; assumption.
Defined.

(** * The located infobox *)

Lemma re_fold_brace x : re_fold x = ch "{" -> x = ch "{".
Proof. change (ch "{") with 123%N. re_fold_cases; lia. Qed.

Lemma re_fold_letter x c :
  re_fold x = c -> (97 <= c <= 122)%N -> x <> ch "{" /\ x <> ch "}".
Proof.
  intros E Hc. split; intros ->; vm_compute in E; subst c; lia.
Qed.

Lemma small_letter (a : ascii) : (97 <=? ch a)%N && (ch a <=? 122)%N = true -> (97 <= ch a <= 122)%N.
Proof. intros H. apply andb_true_iff in H. destruct H as [H1 H2]. apply N.leb_le in H1, H2. lia. Qed.

Lemma brace_scan_index open close s : forall d i j,
  brace_scan open close s d i = Some j -> (i <= j)%nat.
Proof.
  induction s as [|c s IH]; intros d i j H; cbn [brace_scan] in H; [discriminate|].
  destruct (char_eqb c open); [apply IH in H; lia|].
  destruct (char_eqb c close); [|apply IH in H; lia].
  destruct (d - 1 =? 0)%Z; [inversion H; lia | apply IH in H; lia].
Qed.

Lemma search_from_match ic r : forall s i adv pre m,
  search_from ic r i s adv = Some (pre, m) ->
  exists adv', match_at ic r (i + List.length pre)%nat (skipn (List.length pre) s) adv' = Some m.
Proof.
  induction s as [|x s IH]; intros i adv pre m H; cbn [search_from] in H.
  - destruct (match_at ic r i [] adv) eqn:E; [|discriminate]. inversion H; subst.
    exists adv. cbn [List.length skipn]. rewrite Nat.add_0_r. exact E.
  - destruct (match_at ic r i (x :: s) adv) eqn:E.
    + inversion H; subst. exists adv. cbn [List.length skipn]. rewrite Nat.add_0_r. exact E.
    + destruct (search_from ic r (S i) s false) as [[pre' m']|] eqn:E'; [|discriminate].
      inversion H; subst. destruct (IH _ _ _ _ E') as (adv' & Hm).
      exists adv'. cbn [List.length skipn]. rewrite Nat.add_succ_r. exact Hm.
Qed.

Lemma infobox_match_prefix i s adv m :
  match_at true Pat.infobox i s adv = Some m ->
  exists c3 c4 c5 c6 c7 c8 c9 rest,
    s = (ch "{") :: (ch "{") :: c3 :: c4 :: c5 :: c6 :: c7 :: c8 :: c9 :: rest
    /\ fold_case [c3; c4; c5; c6; c7; c8; c9] = str_of_string "infobox".
Proof.
  unfold match_at, Pat.infobox.
  cbn [rmatch Lit str_of_string chr_eqb].
  change (re_fold "{") with (ch "{"). change (re_fold "I") with (ch "i").
  change (re_fold "n") with (ch "n"). change (re_fold "f") with (ch "f").
  change (re_fold "o") with (ch "o"). change (re_fold "b") with (ch "b").
  change (re_fold "x") with (ch "x").
  intros H.
  repeat match type of H with
  | match ?s with [] => None | _ :: _ => _ end = Some _ =>
      destruct s as [|? s]; [discriminate H|]
  | (if char_eqb ?a (re_fold ?b) then _ else None) = Some _ =>
      let E := fresh "E" in
      destruct (char_eqb_spec a (re_fold b)) as [E | _]; [|discriminate H]
  end.
  symmetry in E, E0. apply re_fold_brace in E, E0. subst.
  do 8 eexists. split; [reflexivity|].
  cbn [fold_case List.map]. rewrite <- E1, <- E2, <- E3, <- E4, <- E5, <- E6, <- E7. reflexivity.
Qed.

Lemma eqb_false_l x c : x <> c -> char_eqb x c = false.
Proof. intros H. apply char_eqb_neq. exact H. Qed.

(** X4: the infobox that [extract_genres_from_infobox] delimits is a part of
    the text that begins with [{{infobox] as [re.IGNORECASE] reads it.  When the
    depth returns to zero it ends with the closing brace that balances it;
    otherwise it runs to the end of the text. *)
Theorem infobox_located (text box : str) :
  infobox_text text = Some box ->
  exists pre post,
    text = pre ++ box ++ post
    /\ startswith "{{infobox" (fold_case box) = true
    /\ (never_closed "{" "}" (box ++ post) = true -> post = [])
    /\ (never_closed "{" "}" (box ++ post) = false ->
        count "{" box = count "}" box
        /\ exists body, box = (ch "{") :: body ++ [(ch "}")]).
Proof.
  unfold infobox_text, re_search. intros H.
  destruct (search_from true Pat.infobox 0 text false) as [[pre0 m]|] eqn:Es; [|discriminate].
  destruct (search_from_match _ _ _ _ _ _ _ Es) as (adv' & Hm).
  set (tf := skipn (List.length pre0) text) in *.
  destruct (infobox_match_prefix _ _ _ _ Hm)
    as (c3 & c4 & c5 & c6 & c7 & c8 & c9 & rest & Htf & Hl).
  cbn [fold_case List.map str_of_string] in Hl. injection Hl as E3 E4 E5 E6 E7 E8 E9.
  destruct (re_fold_letter c3 (ch "i") E3 (small_letter "i" eq_refl)) as [A3 B3].
  destruct (re_fold_letter c4 (ch "n") E4 (small_letter "n" eq_refl)) as [A4 B4].
  destruct (re_fold_letter c5 (ch "f") E5 (small_letter "f" eq_refl)) as [A5 B5].
  destruct (re_fold_letter c6 (ch "o") E6 (small_letter "o" eq_refl)) as [A6 B6].
  destruct (re_fold_letter c7 (ch "b") E7 (small_letter "b" eq_refl)) as [A7 B7].
  destruct (re_fold_letter c8 (ch "o") E8 (small_letter "o" eq_refl)) as [A8 B8].
  destruct (re_fold_letter c9 (ch "x") E9 (small_letter "x" eq_refl)) as [A9 B9].
  assert (Hscan : brace_scan "{" "}" tf 0 0 = brace_scan "{" "}" rest 2 9).
  { rewrite Htf. cbn [brace_scan]. change (char_eqb "{" "{") with true. cbv iota.
    rewrite !eqb_false_l by assumption. reflexivity. }
  assert (Hpre9 : forall k, startswith "{{infobox" (fold_case (firstn (9 + k) tf)) = true).
  { intros k. rewrite Htf. cbn [Nat.add firstn fold_case List.map].
    rewrite E3, E4, E5, E6, E7, E8, E9. reflexivity. }
  assert (Hlen : List.length tf = (9 + List.length rest)%nat)
    by (rewrite Htf; reflexivity).
  exists (firstn (List.length pre0) text).
  destruct (brace_scan "{" "}" tf 0 0) as [i|] eqn:Eb.
  - inversion H; subst box. exists (skipn (S i) tf).
    assert (Hi : (9 <= i)%nat)
      by (symmetry in Hscan; apply brace_scan_index in Hscan; exact Hscan).
    rewrite firstn_skipn. split_and!.
    + unfold tf. rewrite firstn_skipn. reflexivity.
    + replace (S i) with (9 + (S i - 9))%nat by (clear - Hi; lia). apply Hpre9.
    + intros Hn. rewrite brace_scan_never_closed in Eb; [discriminate | | exact Hn].
      rewrite Htf. discriminate.
    + intros Hn. rewrite Htf in Hn.
      destruct (brace_scan_closes "{" "}" ltac:(discriminate) _ 0%nat Hn)
        as (body & post & Hr & Hs & Hd & _).
      rewrite <- Htf, Eb in Hs. inversion Hs; subst i.
      assert (Hbox : firstn (S (S (List.length body))) tf = (ch "{") :: body ++ [(ch "}")]).
      { rewrite Htf, Hr. cbn [firstn]. f_equal.
        change (body ++ (ch "}") :: post) with (body ++ [(ch "}")] ++ post).
        rewrite app_assoc. apply firstn_exact. rewrite length_app. cbn. lia. }
      cbn [Nat.add]. rewrite Hbox. split; [|eauto]. unfold depth_of in Hd. clear - Hd. lia.
  - inversion H; subst box. exists []. rewrite firstn_all, app_nil_r. split_and!.
    + unfold tf. rewrite firstn_skipn. reflexivity.
    + replace tf with (firstn (9 + List.length rest) tf)
        by (rewrite <- Hlen; apply firstn_all). apply Hpre9.
    + reflexivity.
    + intros Hn. rewrite Htf in Hn.
      destruct (brace_scan_closes "{" "}" ltac:(discriminate) _ 0%nat Hn)
        as (body & post & _ & Hs & _).
      rewrite <- Htf, Eb in Hs. discriminate.
Qed.

Lemma infobox_located_witness :
  exists pre post,
    str_of_string "intro {{INFOBOX band | genre = Punk }} more"
    = pre ++ str_of_string "{{INFOBOX band | genre = Punk }}" ++ post.
Proof.
  destruct (infobox_located "intro {{INFOBOX band | genre = Punk }} more"
              "{{INFOBOX band | genre = Punk }}") as (pre & post & H & _).
  - reflexivity.
  - exists pre, post. exact H.
Defined.

(** * The form of a normalized label *)

Lemma re_sub_skip ic r t c s :
  bol_free r = true -> match_at ic r 0 (c :: s) false = None ->
  re_sub ic r t (c :: s) = c :: re_sub ic r t s.
Proof.
  intros Hb Hm. unfold re_sub. rewrite (matches_skip ic r c s Hb Hm).
  destruct (matches ic r s) as [ms tl]. cbn [fst snd].
  destruct ms as [|pm ms]; reflexivity.
Qed.

Lemma re_sub_step ic r t s pre m :
  bol_free r = true ->
  search_from ic r 0 s false = Some (pre, m) -> m_text m <> [] ->
  re_sub ic r t s = pre ++ expand t (m_caps m) ++ re_sub ic r t (m_rest m).
Proof.
  intros Hb Hs Hne. unfold re_sub. rewrite (matches_step ic r s pre m Hb Hs Hne).
  destruct (matches ic r (m_rest m)) as [ms tl]. cbn [fst snd List.map List.concat].
  rewrite <- !app_assoc. reflexivity.
Qed.

(** Substituting nothing for a character class removes its characters. *)
Lemma re_sub_class k s :
  re_sub false (Cls k) [] s = List.filter (fun c => negb (in_class false k c)) s.
Proof.
  induction s as [|c s IH].
  - reflexivity.
  - cbn [List.filter]. destruct (in_class false k c) eqn:E; cbn [negb].
    + rewrite (re_sub_step false (Cls k) [] (c :: s) []
                 {| m_text := [c]; m_rest := s; m_caps := [] |}).
      * cbn [m_caps m_rest expand List.map List.concat app]. exact IH.
      * reflexivity.
      * apply search_here. unfold match_at. cbn [rmatch]. rewrite E. cbn [andb].
        rewrite Nat.sub_0_r. reflexivity.
      * discriminate.
    + rewrite re_sub_skip; [rewrite IH; reflexivity | reflexivity|].
      unfold match_at. cbn [rmatch]. rewrite E. reflexivity.
Qed.

Lemma filter_Forall_neg {A} (f : A -> bool) l :
  Forall (fun x => f x = false) (List.filter (fun x => negb (f x)) l).
Proof.
  induction l as [|x l IH]; cbn [List.filter]; [constructor|].
  destruct (f x) eqn:E; cbn [negb]; [exact IH | constructor; assumption].
Qed.

Lemma filter_ok {A} (P : A -> Prop) (f : A -> bool) l :
  Forall P l -> Forall P (List.filter f l).
Proof.
  induction 1 as [|x l Hx Hl IH]; cbn [List.filter]; [constructor|].
  destruct (f x); [constructor|]; assumption.
Qed.

Lemma standardize_ok (P : char -> Prop) g :
  Forall P (str_of_string "rock and roll") -> Forall P g -> Forall P (standardize g).
Proof.
  intros Hr Hg. destruct (standardize_cases g) as [-> | ->]; assumption.
Qed.

(** A property of characters that lower-casing keeps, and that the space
    and the letters of [rock and roll] have, passes from a label to its
    normal form. *)
Lemma normalize_genre_ok (P : char -> Prop) genre :
  (forall c, P c -> Forall P (lower_forms c)) ->
  Forall P (str_of_string "rock and roll") ->
  Forall P genre -> Forall P (normalize_genre genre).
Proof.
  intros HP Hr Hg. unfold normalize_genre.
  assert (Hsp : P (ch " ")).
  { rewrite List.Forall_forall in Hr. apply Hr. vm_compute. tauto. }
  apply strip_ok, join_ok; [repeat constructor; exact Hsp|].
  apply words_go_ok; [constructor|]. apply standardize_ok; [exact Hr|].
  repeat (apply re_sub_ok; [first [apply titem_ok_group | constructor] |]).
  apply strip_ok, lower_ok; assumption.
Qed.

Lemma in_class_one_of (cs : str) c :
  in_class false (OneOf cs) c = false -> ~ In c cs.
Proof.
  cbn [in_class chr_eqb]. intros H Hin.
  assert (E : existsb (fun p => char_eqb p c) cs = true).
  { apply existsb_exists. exists c. split; [exact Hin | apply char_eqb_refl]. }
  congruence.
Qed.

Lemma normalize_genre_markup genre :
  Forall (fun c => ~ In c markup_chars) (normalize_genre genre).
Proof.
  unfold normalize_genre.
  set (z1 := re_sub false Pat.wiki_link [TGrp 1] (strip (lower genre))).
  assert (H2 : Forall (fun c => ~ In c (str_of_string "[]"))
                 (re_sub false Pat.brackets [] z1)).
  { unfold Pat.brackets. rewrite re_sub_class.
    eapply List.Forall_impl; [|apply filter_Forall_neg].
    intros c Hc. apply in_class_one_of. exact Hc. }
  set (z2 := re_sub false Pat.brackets [] z1) in *.
  assert (H8 : Forall (fun c => ~ In c (str_of_string "[]"))
                 (re_sub false Pat.url_www []
                   (re_sub false Pat.url_http []
                     (re_sub false Pat.comment []
                       (re_sub false Pat.ref_open []
                         (re_sub false Pat.ref_self []
                           (re_sub false Pat.ref_pair [] z2))))))).
  { do 6 (apply re_sub_ok; [constructor|]). exact H2. }
  set (z8 := re_sub false Pat.url_www [] _) in *.
  assert (H9 : Forall (fun c => ~ In c markup_chars) (re_sub false Pat.braces_quotes [] z8)).
  { unfold Pat.braces_quotes. rewrite re_sub_class.
    assert (Ha := filter_Forall_neg
                    (in_class false
                       (OneOf [(ch "{"); (ch "}"); Pat.dquote; (ch "'"); (ch "`")])) z8).
    assert (Hb := filter_ok _
                    (fun c => negb (in_class false
                       (OneOf [(ch "{"); (ch "}"); Pat.dquote; (ch "'"); (ch "`")]) c))
                    z8 H8).
    rewrite List.Forall_forall in *. intros c Hc Hin.
    specialize (Ha c Hc). specialize (Hb c Hc). apply in_class_one_of in Ha.
    unfold markup_chars in Hin. cbn [str_of_string app] in Hin.
    cbn [In str_of_string] in Ha, Hb. cbn [In] in Hin. tauto. }
  apply strip_ok, join_ok; [repeat constructor; vm_compute; intuition discriminate|].
  apply words_go_ok; [constructor|]. apply standardize_ok; [|exact H9].
  apply List.Forall_forall. intros c Hc. vm_compute in Hc. vm_compute.
  intuition (subst; discriminate).
Qed.

Lemma normalize_genre_words genre :
  exists ws, Forall word ws /\ normalize_genre genre = join " " ws.
Proof.
  destruct (normalize_genre_shape genre) as (z & _ & E).
  exists (words z). split; [apply words_words | exact E].
Qed.

Lemma normalize_genre_stripped genre :
  strip (normalize_genre genre) = normalize_genre genre.
Proof.
  destruct (normalize_genre_words genre) as (ws & Hws & E).
  rewrite E. apply strip_trimmed, join_trimmed, Hws.
Qed.

Lemma normalize_genre_collapsed genre :
  join " " (words (normalize_genre genre)) = normalize_genre genre.
Proof.
  destruct (normalize_genre_words genre) as (ws & Hws & E).
  rewrite E. rewrite words_join by exact Hws. reflexivity.
Qed.

Lemma normalize_genre_spaces genre :
  Forall (fun c => is_space c = true -> c = (ch " ")) (normalize_genre genre).
Proof.
  destruct (normalize_genre_words genre) as (ws & Hws & E).
  rewrite E. apply join_ok.
  - repeat constructor.
  - eapply List.Forall_impl; [|exact Hws]. intros w [_ Hw].
    eapply List.Forall_impl; [|exact Hw]. intros c Hc Hs. congruence.
Qed.

(** X5: a normalized label is fixed by lower-casing, by stripping and by the
    collapse of white space; its only white space is single spaces between
    words, and it holds no bracket, brace or quote. *)
Theorem normalize_genre_normal_form (genre : str) :
  lower (normalize_genre genre) = normalize_genre genre
  /\ strip (normalize_genre genre) = normalize_genre genre
  /\ join " " (words (normalize_genre genre)) = normalize_genre genre
  /\ Forall (fun c => is_space c = true -> c = (ch " ")) (normalize_genre genre)
  /\ Forall (fun c => ~ In c markup_chars) (normalize_genre genre).
Proof.
  split_and!.
  - apply normalize_genre_lower.
  - apply normalize_genre_stripped.
  - apply normalize_genre_collapsed.
  - apply normalize_genre_spaces.
  - apply normalize_genre_markup.
Qed.

(** * The entries of a parsed field *)

Lemma parse_genre_field_entry field_text g :
  In g (parse_genre_field field_text) ->
  keep g = true /\ exists raw, g = clean_label raw.
Proof.
  rewrite parse_genre_field_candidates. intros H.
  apply first_occurrences_In in H. destruct H as [H _].
  apply filter_In in H. destruct H as [H Hk]. split; [exact Hk|].
  apply in_map_iff in H. destruct H as (raw & <- & _). exists raw. reflexivity.
Qed.

Lemma contains_single_false c s : contains [c] s = false -> ~ In c s.
Proof.
  intros H Hin. apply contains_single in Hin. congruence.
Qed.

Lemma remove_char_gone c s : ~ In c (remove_char c s).
Proof.
  induction s as [|x s IH]; cbn [remove_char List.filter]; [intros []|].
  unfold remove_char in *. cbn [List.filter].
  destruct (char_eqb x c) eqn:E; cbn [negb]; [exact IH|].
  intros [-> | H]; [rewrite char_eqb_refl in E; discriminate | exact (IH H)].
Qed.

Lemma clean_label_no_star raw : ~ In (ch "*") (clean_label raw).
Proof.
  unfold clean_label.
  assert (H : Forall (fun c => c <> (ch "*")) (normalize_genre (strip (remove_char "*" raw)))).
  { apply normalize_genre_ok.
    - intros c Hc. apply List.Forall_forall. intros d Hd.
      destruct (lower_forms_fresh c d Hd) as [-> | H]; [exact Hc|].
      change (ch "*") with 42%N. lia.
    - apply List.Forall_forall. intros c Hc. vm_compute in Hc.
      intuition (subst; discriminate).
    - apply strip_ok. apply List.Forall_forall. intros c Hc ->.
      exact (remove_char_gone _ _ Hc). }
  rewrite List.Forall_forall in H. intros Hin. exact (H _ Hin eq_refl).
Qed.

Lemma keep_entry g :
  keep g = true ->
  (2 <= List.length g)%nat /\ ~ In (ch ".") g
  /\ contains "ref" g = false /\ contains "cite" g = false.
Proof.
  unfold keep. rewrite !andb_true_iff, !negb_true_iff.
  intros [[[[[_ Hl] _] Hr] Hc] Hd]. apply Nat.ltb_lt in Hl.
  split_and!; [lia | apply contains_single_false; exact Hd | exact Hr | exact Hc].
Qed.

Lemma clean_label_form raw :
  Forall (fun c => ~ In c markup_chars) (clean_label raw)
  /\ strip (clean_label raw) = clean_label raw
  /\ join " " (words (clean_label raw)) = clean_label raw.
Proof.
  unfold clean_label. split_and!.
  - apply normalize_genre_markup.
  - apply normalize_genre_stripped.
  - apply normalize_genre_collapsed.
Qed.

(** X6: every label [parse_genre_field] returns has at least two characters,
    holds no full stop, no asterisk, no bracket, brace or quote, and neither
    [ref] nor [cite] as a substring; it is stripped, and its words are
    separated by single spaces. *)
Theorem parse_genre_field_entries (field_text g : str) :
  In g (parse_genre_field field_text) ->
  (2 <= List.length g)%nat
  /\ ~ In (ch ".") g /\ ~ In (ch "*") g
  /\ contains "ref" g = false /\ contains "cite" g = false
  /\ Forall (fun c => ~ In c markup_chars) g
  /\ strip g = g /\ join " " (words g) = g.
Proof.
  intros H. apply parse_genre_field_entry in H. destruct H as (Hk & raw & E).
  destruct (keep_entry g Hk) as (H1 & H2 & H3 & H4).
  destruct (clean_label_form raw) as (H5 & H6 & H7).
  assert (H8 := clean_label_no_star raw).
  rewrite <- E in H5, H6, H7, H8.
  split_and!; assumption.
Qed.

Lemma parse_genre_field_entries_witness :
  In (str_of_string "punk rock") (parse_genre_field "[[Punk rock]], Ska*")
  /\ (2 <= List.length (str_of_string "punk rock"))%nat.
Proof.
  assert (H : In (str_of_string "punk rock") (parse_genre_field "[[Punk rock]], Ska*"))
    by (vm_compute; left; reflexivity).
  split; [exact H|].
  exact (proj1 (parse_genre_field_entries _ _ H)).
Defined.

(** * When an infobox is found *)

Lemma star_total {A} p greedy s : forall i (k : nat -> str -> option A),
  (forall i' s', exists a, k i' s' = Some a) ->
  exists a, star p greedy i s k = Some a.
Proof.
  induction s as [|c s IH]; intros i k Hk; cbn [star]; [apply Hk|].
  destruct (p c); [|apply Hk].
  destruct greedy.
  - destruct (IH (S i) k Hk) as (a & ->). eauto.
  - destruct (Hk i (c :: s)) as (a & ->). eauto.
Qed.

Lemma infobox_match_here i s adv m :
  match_at true Pat.infobox i s adv = Some m ->
  startswith "{{infobox" (fold_case s) = true.
Proof.
  intros H. destruct (infobox_match_prefix _ _ _ _ H)
    as (c3 & c4 & c5 & c6 & c7 & c8 & c9 & rest & -> & Hl).
  cbn [fold_case List.map str_of_string] in Hl. injection Hl as E3 E4 E5 E6 E7 E8 E9.
  cbn [fold_case List.map]. rewrite E3, E4, E5, E6, E7, E8, E9. reflexivity.
Qed.

Lemma infobox_here_match i s :
  startswith "{{infobox" (fold_case s) = true ->
  exists m, match_at true Pat.infobox i s false = Some m.
Proof.
  intros H.
  do 9 (destruct s as [|? s];
        [cbn [startswith fold_case List.map str_of_string] in H;
         rewrite ?andb_false_r in H; discriminate H|]).
  cbn [startswith fold_case List.map str_of_string] in H.
  rewrite !andb_true_iff in H.
  destruct H as (H1 & H2 & H3 & H4 & H5 & H6 & H7 & H8 & H9 & _).
  unfold match_at, Pat.infobox.
  cbn [rmatch Lit str_of_string chr_eqb].
  change (re_fold "{") with (ch "{"). change (re_fold "I") with (ch "i").
  change (re_fold "n") with (ch "n"). change (re_fold "f") with (ch "f").
  change (re_fold "o") with (ch "o"). change (re_fold "b") with (ch "b").
  change (re_fold "x") with (ch "x").
  rewrite H1, H2, H3, H4, H5, H6, H7, H8, H9.
  apply star_total. intros i' s'. cbn [andb]. eauto.
Qed.

Lemma infobox_search text : forall i,
  search_from true Pat.infobox i text false = None
  <-> contains "{{infobox" (fold_case text) = false.
Proof.
  induction text as [|x text IH]; intros i.
  - split; reflexivity.
  - cbn [search_from]. change (fold_case (x :: text)) with (re_fold x :: fold_case text).
    cbn [contains]. change (re_fold x :: fold_case text) with (fold_case (x :: text)).
    rewrite orb_false_iff.
    destruct (match_at true Pat.infobox i (x :: text) false) as [m|] eqn:E.
    + apply infobox_match_here in E. rewrite E.
      split; [intros H; discriminate H | intros [H _]; discriminate H].
    + destruct (startswith "{{infobox" (fold_case (x :: text))) eqn:Es.
      * destruct (infobox_here_match i _ Es) as (m & Hm). congruence.
      * rewrite <- (IH (S i)).
        destruct (search_from true Pat.infobox (S i) text false) as [[pre m]|].
        -- split; [intros H; discriminate H | intros [_ H]; discriminate H].
        -- split; [intros _; split; reflexivity | reflexivity].
Qed.

(** X7: an infobox is found exactly when the text holds [{{infobox] as
    [re.IGNORECASE] reads it, and a text that does not hold it yields no
    genres. *)
Theorem infobox_found_iff (text : str) :
  (infobox_text text = None <-> contains "{{infobox" (fold_case text) = false)
  /\ (contains "{{infobox" (fold_case text) = false ->
      extract_genres_from_infobox text = None).
Proof.
  assert (H : infobox_text text = None <-> contains "{{infobox" (fold_case text) = false).
  { rewrite <- (infobox_search text 0). unfold infobox_text, re_search.
    destruct (search_from true Pat.infobox 0 text false) as [[pre m]|];
      split; try discriminate; reflexivity. }
  split; [exact H|]. intros Hc. apply H in Hc.
  unfold extract_genres_from_infobox. rewrite Hc. reflexivity.
Qed.

(** * The batch loop and its counters *)

Lemma process_wiki_files_run files : process_wiki_files files = artist_genres (run_batch files).
Proof. reflexivity. Qed.

Lemma fold_left_snoc {A B} (f : A -> B -> A) l x a :
  fold_left f (l ++ [x]) a = f (fold_left f l a) x.
Proof. rewrite fold_left_app. reflexivity. Qed.

Lemma run_batch_snoc files f : run_batch (files ++ [f]) = process_file (run_batch files) f.
Proof. apply fold_left_snoc. Qed.

Lemma process_file_cases b f :
  (succeeds f = true
   /\ exists content genres,
        snd f = Some content /\ extract_genres_from_infobox content = Some genres
        /\ process_file b f
           = {| artist_genres :=
                  <[extract_artist_name_from_filename (fst f) := genres]> (artist_genres b);
                success_count := S (success_count b);
                failure_count := failure_count b |})
  \/ (succeeds f = false
      /\ process_file b f
         = {| artist_genres := artist_genres b;
              success_count := success_count b;
              failure_count := S (failure_count b) |}).
Proof.
  unfold succeeds, process_file. destruct (snd f) as [content|]; [|right; auto].
  destruct (extract_genres_from_infobox content) as [genres|] eqn:E; [|right; auto].
  left. split; [reflexivity|]. exists content, genres. split_and!; auto.
Qed.

Lemma size_list_to_set_bound (l : list str) :
  (size (list_to_set l : gset (list char)) <= List.length l)%nat.
Proof.
  induction l as [|a l IH]; cbn [list_to_set List.length].
  - rewrite size_empty. lia.
  - rewrite size_union_alt, size_singleton.
    assert (H : (size (list_to_set l ∖ {[a]} : gset (list char))
                 <= size (list_to_set l : gset (list char)))%nat)
      by (apply subseteq_size, subseteq_difference_l; reflexivity).
    lia.
Qed.

(** X8: the two counters of [process_wiki_files] add up to the number of
    files, the success counter is the number of files in which genres were
    found, and the mapping has at most that many keys: exactly that many
    when these files give distinct artist names. *)
Theorem process_wiki_files_counts (txt_files : list file) :
  let b := run_batch txt_files in
  let found := List.filter succeeds txt_files in
  (success_count b + failure_count b = List.length txt_files)%nat
  /\ success_count b = List.length found
  /\ (size (process_wiki_files txt_files) <= success_count b)%nat
  /\ dom (process_wiki_files txt_files)
     = list_to_set (List.map (fun f => extract_artist_name_from_filename (fst f)) found)
  /\ (List.NoDup (List.map (fun f => extract_artist_name_from_filename (fst f)) found) ->
      size (process_wiki_files txt_files) = success_count b).
Proof.
  cbv zeta. rewrite process_wiki_files_run.
  assert (H : (success_count (run_batch txt_files) + failure_count (run_batch txt_files)
               = List.length txt_files)%nat
              /\ success_count (run_batch txt_files)
                 = List.length (List.filter succeeds txt_files)
              /\ dom (artist_genres (run_batch txt_files))
                 = (list_to_set
                      (List.map (fun f => extract_artist_name_from_filename (fst f))
                         (List.filter succeeds txt_files)) : gset (list char))).
  { induction txt_files as [|f files IH] using rev_ind.
    - split_and!; try reflexivity; apply dom_empty_L.
    - rewrite run_batch_snoc, List.filter_app, length_app, List.map_app.
      destruct IH as (IH1 & IH2 & IH3). cbn [List.filter].
      destruct (process_file_cases (run_batch files) f)
        as [(Hs & content & genres & _ & _ & ->) | (Hs & ->)];
        rewrite Hs; cbn [success_count failure_count artist_genres List.length List.map].
      + split_and!; [lia | rewrite length_app; cbn; lia |].
        rewrite dom_insert_L, IH3, list_to_set_app_L. cbn [list_to_set].
        rewrite union_empty_r_L. apply union_comm_L.
      + split_and!; [lia | rewrite length_app; cbn; lia |].
        rewrite IH3, list_to_set_app_L. cbn [list_to_set].
        rewrite union_empty_r_L. reflexivity. }
  destruct H as (H1 & H2 & H3).
  assert (Hsz : size (artist_genres (run_batch txt_files))
                = size (dom (artist_genres (run_batch txt_files)))) by (symmetry; apply size_dom).
  split_and!; auto.
  - rewrite Hsz, H3, H2.
    etransitivity; [apply size_list_to_set_bound|]. rewrite length_map. reflexivity.
  - intros Hnd. rewrite Hsz, H3, H2, size_list_to_set, length_map; [reflexivity|].
    apply NoDup_ListNoDup. exact Hnd.
Qed.

(** X9: the genres stored for an artist are those of the last file, in the
    order of processing, that gives this artist name and in which genres
    are found; an artist has an entry exactly when there is such a file. *)
Theorem process_wiki_files_last_writer (txt_files : list file) (artist : str)
    (genres : list str) :
  process_wiki_files txt_files !! artist = Some genres
  <-> exists pre name content post,
        txt_files = pre ++ (name, Some content) :: post
        /\ extract_artist_name_from_filename name = artist
        /\ extract_genres_from_infobox content = Some genres
        /\ Forall (fun f => extract_artist_name_from_filename (fst f) = artist ->
                            succeeds f = false) post.
Proof.
  rewrite process_wiki_files_run. split.
  - induction txt_files as [|f files IH] using rev_ind.
    + cbn. rewrite lookup_empty. discriminate.
    + rewrite run_batch_snoc.
      destruct (process_file_cases (run_batch files) f)
        as [(Hs & content & gs & Hc & He & ->) | (Hs & ->)]; cbn [artist_genres].
      * destruct (decide (extract_artist_name_from_filename (fst f) = artist)) as [E | Hne].
        -- rewrite E, lookup_insert_eq. intros [= ->].
           exists files, (fst f), content, []. split_and!; auto.
           destruct f as [n c]. cbn in *. rewrite Hc. reflexivity.
        -- rewrite lookup_insert_ne by exact Hne. intros H.
           destruct (IH H) as (pre & name & c' & post & -> & Hn & Hg & Hp).
           exists pre, name, c', (post ++ [f]). split_and!; auto.
           ++ rewrite <- app_assoc. reflexivity.
           ++ apply Forall_app. split; [exact Hp|]. constructor; [|constructor].
              intros E. contradiction.
      * intros H. destruct (IH H) as (pre & name & c' & post & -> & Hn & Hg & Hp).
        exists pre, name, c', (post ++ [f]). split_and!; auto.
        -- rewrite <- app_assoc. reflexivity.
        -- apply Forall_app. split; [exact Hp|]. constructor; [|constructor]. auto.
  - intros (pre & name & content & post & -> & Hn & Hg & Hp).
    unfold run_batch. rewrite fold_left_app. cbn [fold_left].
    rewrite fold_process_file_lookup.
    + unfold process_file at 1. cbn [fst snd]. rewrite Hg. cbn [artist_genres].
      rewrite Hn. apply lookup_insert_eq.
    + intros n c Hin Hk. rewrite List.Forall_forall in Hp.
      specialize (Hp _ Hin Hk). unfold succeeds in Hp. cbn [snd] in Hp.
      destruct (extract_genres_from_infobox c); [discriminate | reflexivity].
Qed.

(** * The summary statistics *)

Lemma dict_values_In (d : gmap (list char) (list (list char))) gs :
  In gs (dict_values d) <-> exists k, d !! k = Some gs.
Proof.
  unfold dict_values. rewrite in_map_iff. split.
  - intros ([k v] & <- & H). exists k. apply elem_of_map_to_list.
    apply list_elem_of_In. exact H.
  - intros (k & H). exists (k, gs). split; [reflexivity|].
    apply list_elem_of_In. apply elem_of_map_to_list. exact H.
Qed.

Lemma fold_union_elem (ls : list (list str)) : forall (s : gset (list char)) g,
  g ∈ fold_left (fun s genres => s ∪ list_to_set genres) ls s
  <-> g ∈ s \/ exists gs, In gs ls /\ In g gs.
Proof.
  induction ls as [|l ls IH]; intros s g; cbn [fold_left].
  - split; [auto | intros [H | (gs & [] & _)]; exact H].
  - rewrite IH, elem_of_union, elem_of_list_to_set, list_elem_of_In. split.
    + intros [[H | H] | (gs & Hin & Hg)]; [left; exact H | right | right].
      * exists l. split; [left; reflexivity | exact H].
      * exists gs. split; [right; exact Hin | exact Hg].
    + intros [H | (gs & [<- | Hin] & Hg)]; [left; left; exact H | left; right; exact Hg |].
      right. exists gs. split; assumption.
Qed.

Lemma counter_update_get l : forall c g,
  counter_get (counter_update c l) g = (counter_get c g + occurrences g l)%nat.
Proof.
  unfold counter_update, occurrences.
  induction l as [|x l IH]; intros c g; cbn [fold_left List.filter List.length]; [lia|].
  rewrite IH. unfold counter_get at 1, str_eqb.
  destruct (decide (x = g)) as [-> | Hne].
  - rewrite lookup_insert_eq, bool_decide_eq_true_2 by reflexivity. cbn. lia.
  - rewrite lookup_insert_ne by exact Hne.
    rewrite bool_decide_eq_false_2 by (intros E; apply Hne; symmetry; exact E).
    reflexivity.
Qed.

Lemma counter_update_keys l : forall c g,
  is_Some (counter_update c l !! g) <-> is_Some (c !! g) \/ In g l.
Proof.
  unfold counter_update.
  induction l as [|x l IH]; intros c g; cbn [fold_left].
  - split; [auto | intros [H | []]; exact H].
  - rewrite IH. destruct (decide (x = g)) as [-> | Hne].
    + rewrite lookup_insert_eq. split; [intros _; right; left; reflexivity|].
      intros _. left. eauto.
    + rewrite lookup_insert_ne by exact Hne. cbn [In]. tauto.
Qed.

Lemma fold_counter_get (ls : list (list str)) : forall c g,
  counter_get (fold_left counter_update ls c) g
  = (counter_get c g + list_sum (List.map (occurrences g) ls))%nat.
Proof.
  induction ls as [|l ls IH]; intros c g.
  - cbn. lia.
  - cbn [fold_left List.map]. rewrite IH, counter_update_get.
    change (list_sum (occurrences g l :: List.map (occurrences g) ls))
      with (occurrences g l + list_sum (List.map (occurrences g) ls))%nat.
    lia.
Qed.

Lemma fold_counter_keys (ls : list (list str)) : forall c g,
  is_Some (fold_left counter_update ls c !! g)
  <-> is_Some (c !! g) \/ exists gs, In gs ls /\ In g gs.
Proof.
  induction ls as [|l ls IH]; intros c g; cbn [fold_left].
  - split; [auto | intros [H | (gs & [] & _)]; exact H].
  - rewrite IH, counter_update_keys. split.
    + intros [[H | H] | (gs & Hin & Hg)]; [left; exact H | right | right].
      * exists l. split; [left; reflexivity | exact H].
      * exists gs. split; [right; exact Hin | exact Hg].
    + intros [H | (gs & [<- | Hin] & Hg)]; [left; left; exact H | left; right; exact Hg |].
      right. exists gs. split; assumption.
Qed.

Lemma occurrences_NoDup g l :
  List.NoDup l -> occurrences g l = if mem g l then 1%nat else 0%nat.
Proof.
  unfold occurrences, mem.
  induction 1 as [|x l Hx Hl IH]; cbn [List.filter existsb]; [reflexivity|].
  destruct (str_eqb g x) eqn:E; cbn [orb List.length].
  - apply str_eqb_eq in E. subst x. rewrite IH.
    replace (existsb (str_eqb g) l) with false; [reflexivity|].
    symmetry. apply mem_false. exact Hx.
  - exact IH.
Qed.

Lemma occurrences_pos g l : (0 < occurrences g l)%nat <-> In g l.
Proof.
  unfold occurrences. induction l as [|x l IH]; cbn [List.filter List.length In].
  - split; [lia | intros []].
  - destruct (str_eqb g x) eqn:E; cbn [List.length].
    + apply str_eqb_eq in E. split; [auto | lia].
    + rewrite IH. split; [auto|]. intros [-> | H]; [|exact H].
      rewrite (proj2 (str_eqb_eq g g) eq_refl) in E. discriminate E.
Qed.

Lemma sum_occurrences_pos g (ls : list (list str)) :
  (0 < list_sum (List.map (occurrences g) ls))%nat <-> exists gs, In gs ls /\ In g gs.
Proof.
  induction ls as [|l ls IH].
  - cbn. split; [lia | intros (gs & [] & _)].
  - cbn [List.map].
    change (list_sum (occurrences g l :: List.map (occurrences g) ls))
      with (occurrences g l + list_sum (List.map (occurrences g) ls))%nat.
    split.
    + intros H. destruct (Nat.eq_dec (occurrences g l) 0) as [E | E].
      * destruct (proj1 IH ltac:(lia)) as (gs & Hin & Hg).
        exists gs. split; [right; exact Hin | exact Hg].
      * exists l. split; [left; reflexivity | apply occurrences_pos; lia].
    + intros (gs & [<- | Hin] & Hg).
      * apply occurrences_pos in Hg. lia.
      * assert (0 < list_sum (List.map (occurrences g) ls))%nat by (apply IH; eauto). lia.
Qed.

(** X10: the summary of the main block.  A genre belongs to [all_genres]
    exactly when some artist holds it, the keys of [genre_counter] are the
    members of [all_genres] (so both sizes are the same number), and the
    count of a genre is the number of its occurrences in the lists of all
    artists. *)
Theorem genre_counter_spec (d : gmap (list char) (list (list char))) (g : str) :
  (g ∈ all_genres d <-> exists k gs, d !! k = Some gs /\ In g gs)
  /\ dom (genre_counter d) = all_genres d
  /\ size (genre_counter d) = size (all_genres d)
  /\ counter_get (genre_counter d) g
     = list_sum (List.map (occurrences g) (dict_values d))
  /\ (g ∈ all_genres d <-> (0 < counter_get (genre_counter d) g)%nat).
Proof.
  assert (Hall : forall x, x ∈ all_genres d <-> exists k gs, d !! k = Some gs /\ In x gs).
  { intros x. unfold all_genres. rewrite fold_union_elem. split.
    - intros [H | (gs & Hin & Hg)]; [apply elem_of_empty in H; destruct H|].
      apply dict_values_In in Hin. destruct Hin as (k & Hk). eauto.
    - intros (k & gs & Hk & Hg). right. exists gs. split; [|exact Hg].
      apply dict_values_In. eauto. }
  assert (Hkeys : forall x, is_Some (genre_counter d !! x) <-> x ∈ all_genres d).
  { intros x. unfold genre_counter, all_genres.
    rewrite fold_counter_keys, fold_union_elem.
    split; (intros [H | H]; [|right; exact H]); exfalso.
    - rewrite lookup_empty in H. destruct H as [? H]. discriminate H.
    - apply elem_of_empty in H. exact H. }
  assert (Hdom : dom (genre_counter d) = all_genres d).
  { apply set_eq. intros x. rewrite elem_of_dom. apply Hkeys. }
  assert (Hget : counter_get (genre_counter d) g
                 = list_sum (List.map (occurrences g) (dict_values d))).
  { unfold genre_counter. rewrite fold_counter_get. unfold counter_get.
    rewrite lookup_empty. reflexivity. }
  split_and!.
  - apply Hall.
  - exact Hdom.
  - rewrite <- Hdom. symmetry. apply size_dom.
  - exact Hget.
  - rewrite Hget, sum_occurrences_pos. unfold all_genres. rewrite fold_union_elem.
    split; [intros [H | H]; [apply elem_of_empty in H; destruct H | exact H] | auto].
Qed.

Lemma extract_genres_NoDup text genres :
  extract_genres_from_infobox text = Some genres -> List.NoDup genres.
Proof.
  unfold extract_genres_from_infobox.
  destruct (infobox_text text) as [infobox|]; [|discriminate].
  destruct (is_nil (genre_field_lines infobox)); [discriminate|].
  destruct (is_nil (parse_genre_field _)) eqn:E; [discriminate|].
  intros [= <-]. apply parse_genre_field_canonical.
Qed.

Lemma run_batch_values (P : list str -> Prop) :
  (forall text genres, extract_genres_from_infobox text = Some genres -> P genres) ->
  forall files k v, artist_genres (run_batch files) !! k = Some v -> P v.
Proof.
  intros HP. induction files as [|f files IH] using rev_ind; intros k v.
  - cbn. rewrite lookup_empty. discriminate.
  - rewrite run_batch_snoc.
    destruct (process_file_cases (run_batch files) f)
      as [(_ & content & gs & _ & He & ->) | (_ & ->)]; cbn [artist_genres]; [|apply IH].
    destruct (decide (extract_artist_name_from_filename (fst f) = k)) as [E | Hne].
    + rewrite E, lookup_insert_eq. intros [= <-]. exact (HP _ _ He).
    + rewrite lookup_insert_ne by exact Hne. apply IH.
Qed.

Lemma sum_occurrences_NoDup g (ls : list (list str)) :
  Forall (@List.NoDup str) ls ->
  list_sum (List.map (occurrences g) ls) = List.length (List.filter (mem g) ls).
Proof.
  induction 1 as [|l ls Hl Hls IH]; [reflexivity|].
  cbn [List.map List.filter].
  change (list_sum (occurrences g l :: List.map (occurrences g) ls))
    with (occurrences g l + list_sum (List.map (occurrences g) ls))%nat.
  rewrite IH, (occurrences_NoDup g l Hl).
  destruct (mem g l); reflexivity.
Qed.

(** X11: on the mapping that [process_wiki_files] returns, the count of a
    genre is the number of artists that hold it, as the summary prints it:
    no stored list repeats a genre. *)
Theorem genre_counter_counts_artists (txt_files : list file) (g : str) :
  let d := process_wiki_files txt_files in
  (forall artist genres, d !! artist = Some genres -> List.NoDup genres)
  /\ counter_get (genre_counter d) g
     = List.length (List.filter (mem g) (dict_values d)).
Proof.
  cbv zeta.
  assert (Hnd : forall artist genres,
            process_wiki_files txt_files !! artist = Some genres -> List.NoDup genres).
  { rewrite process_wiki_files_run. apply run_batch_values. apply extract_genres_NoDup. }
  split; [exact Hnd|].
  unfold genre_counter. rewrite fold_counter_get. unfold counter_get at 1.
  rewrite lookup_empty. cbn [default Nat.add].
  apply sum_occurrences_NoDup. apply List.Forall_forall. intros gs Hin.
  apply dict_values_In in Hin. destruct Hin as (k & Hk). exact (Hnd _ _ Hk).
Qed.

(** * Loading the artist list *)

Lemma lstrip_snoc_space l c :
  is_space c = true ->
  lstrip (l ++ [c]) = if is_nil (lstrip l) then [] else lstrip l ++ [c].
Proof.
  intros Hc. induction l as [|a l IH]; cbn [app lstrip is_nil].
  - rewrite Hc. reflexivity.
  - destruct (is_space a); [exact IH | reflexivity].
Qed.

Lemma rstrip_snoc_space u c : is_space c = true -> rstrip (u ++ [c]) = rstrip u.
Proof.
  intros Hc. unfold rstrip. rewrite rev_app_distr. cbn [rev app lstrip].
  rewrite Hc. reflexivity.
Qed.

Lemma strip_snoc_space l c : is_space c = true -> strip (l ++ [c]) = strip l.
Proof.
  intros Hc. unfold strip. rewrite lstrip_snoc_space by exact Hc.
  destruct (lstrip l) as [|a u] eqn:E; cbn [is_nil]; [reflexivity|].
  apply rstrip_snoc_space. exact Hc.
Qed.

Lemma file_lines_go_split s : forall cur,
  List.filter (fun a => negb (is_nil a)) (List.map strip (file_lines_go cur s))
  = List.filter (fun a => negb (is_nil a))
      (List.map strip
         (match split_char newline s with
          | w :: ws => (rev cur ++ w) :: ws
          | [] => []
          end)).
Proof.
  induction s as [|c s IH]; intros cur; cbn [file_lines_go split_char].
  - rewrite app_nil_r. destruct cur as [|a cur]; [reflexivity|]. reflexivity.
  - destruct (char_eqb_spec c newline) as [-> | Hne].
    + cbn [List.map List.filter rev]. rewrite app_nil_r.
      rewrite strip_snoc_space by reflexivity. rewrite IH.
      destruct (split_char newline s) as [|w ws] eqn:E;
        [exfalso; exact (split_char_nonempty _ _ E)|].
      reflexivity.
    + rewrite IH. destruct (split_char newline s) as [|w ws] eqn:E;
        [exfalso; exact (split_char_nonempty _ _ E)|].
      cbn [rev]. rewrite <- app_assoc. reflexivity.
Qed.

Lemma map_filter_comm {A B} (f : A -> B) (p : B -> bool) l :
  List.map f (List.filter (fun x => p (f x)) l) = List.filter p (List.map f l).
Proof.
  induction l as [|x l IH]; cbn [List.map List.filter]; [reflexivity|].
  destruct (p (f x)); cbn [List.map]; rewrite IH; reflexivity.
Qed.

Lemma load_artist_list_split content :
  load_artist_list content
  = List.filter (fun a => negb (is_nil a)) (List.map strip (split_char newline content)).
Proof.
  unfold load_artist_list, file_lines.
  rewrite (map_filter_comm strip (fun a => negb (is_nil a))).
  rewrite file_lines_go_split. cbn [rev app].
  destruct (split_char newline content); reflexivity.
Qed.

Lemma split_char_pieces c s : Forall (fun w => ~ In c w) (split_char c s).
Proof.
  induction s as [|x s IH]; cbn [split_char].
  - constructor; [intros [] | constructor].
  - destruct (char_eqb_spec x c) as [-> | Hne].
    + constructor; [intros [] | exact IH].
    + destruct (split_char c s) as [|w ws]; [repeat constructor; intros [E | []]; auto|].
      inversion IH; subst. constructor; [|assumption].
      intros [E | H]; [auto | contradiction].
Qed.

Lemma split_char_join c (ls : list str) :
  ls <> [] -> Forall (fun w => ~ In c w) ls -> split_char c (join [c] ls) = ls.
Proof.
  intros Hne H. induction H as [|w ws Hw Hws IH]; [contradiction|].
  destruct ws as [|w' ws].
  - cbn [join]. apply split_char_line. exact Hw.
  - change (join [c] (w :: w' :: ws)) with (w ++ [c] ++ join [c] (w' :: ws)).
    cbn [app]. rewrite split_char_app, (split_char_line c w Hw), IH by discriminate.
    reflexivity.
Qed.

Lemma filter_id {A} (p : A -> bool) l :
  Forall (fun x => p x = true) l -> List.filter p l = l.
Proof.
  induction 1 as [|x l Hx Hl IH]; cbn [List.filter]; [reflexivity|].
  rewrite Hx, IH. reflexivity.
Qed.

Lemma map_id_on {A} (f : A -> A) l :
  Forall (fun x => f x = x) l -> List.map f l = l.
Proof.
  induction 1 as [|x l Hx Hl IH]; cbn [List.map]; [reflexivity|].
  rewrite Hx, IH. reflexivity.
Qed.

(** X12: [load_artist_list] returns the stripped lines of the file that are
    not blank, in their order; no name it returns is empty, has white space
    at either end or holds a newline. *)
Theorem load_artist_list_entries (content : str) :
  load_artist_list content
  = List.filter (fun a => negb (is_nil a)) (List.map strip (split_char newline content))
  /\ Forall (fun a => a <> [] /\ strip a = a /\ ~ In newline a) (load_artist_list content).
Proof.
  split; [apply load_artist_list_split|].
  rewrite load_artist_list_split. apply List.Forall_forall. intros a Ha.
  apply filter_In in Ha. destruct Ha as [Ha Hne].
  apply in_map_iff in Ha. destruct Ha as (w & <- & Hw).
  split_and!.
  - intros E. rewrite E in Hne. discriminate Hne.
  - apply strip_idempotent.
  - pose proof (split_char_pieces newline content) as Hp.
    rewrite List.Forall_forall in Hp. specialize (Hp w Hw).
    assert (Hf : Forall (fun x => x <> newline) (strip w)).
    { apply strip_ok. apply List.Forall_forall. intros x Hx ->. exact (Hp Hx). }
    rewrite List.Forall_forall in Hf. intros Hin. exact (Hf _ Hin eq_refl).
Qed.

(** X13: a file that holds one name on each line loads as the list of these
    names, with or without a newline after the last one, when no name is
    empty, has white space at either end or holds a newline. *)
Theorem load_artist_list_round_trip (names : list str) :
  Forall (fun a => a <> [] /\ strip a = a /\ ~ In newline a) names ->
  load_artist_list (join [newline] names) = names
  /\ load_artist_list (join [newline] names ++ [newline]) = names.
Proof.
  intros H.
  assert (Hn : List.filter (fun a => negb (is_nil a)) (List.map strip names) = names).
  { rewrite map_id_on, filter_id; [reflexivity | |].
    - eapply List.Forall_impl; [|exact H]. intros a (Ha & _ & _).
      destruct a; [contradiction | reflexivity].
    - eapply List.Forall_impl; [|exact H]. intros a (_ & Ha & _). exact Ha. }
  assert (H1 : load_artist_list (join [newline] names) = names).
  { rewrite load_artist_list_split. destruct names as [|n names]; [reflexivity|].
    rewrite split_char_join; [exact Hn | discriminate |].
    eapply List.Forall_impl; [|exact H]. intros a (_ & _ & Ha). exact Ha. }
  split; [exact H1|].
  rewrite load_artist_list_split.
  replace (join [newline] names ++ [newline])
    with (join [newline] names ++ newline :: []) by reflexivity.
  rewrite split_char_app, List.map_app, List.filter_app.
  rewrite <- load_artist_list_split, H1. cbn. apply app_nil_r.
Qed.

Lemma load_artist_list_round_trip_witness :
  load_artist_list (join [newline] [ "The Clash" : str; "Blur" : str ])
  = [ "The Clash" : str; "Blur" : str ].
Proof.
  apply (load_artist_list_round_trip [ "The Clash" : str; "Blur" : str ]).
  repeat constructor; try discriminate; vm_compute; intuition discriminate.
Defined.

(** * Loading the pages *)

Lemma startswith_app p s : startswith p s = true -> s = p ++ skipn (List.length p) s.
Proof.
  revert s. induction p as [|a p IH]; intros s H; [reflexivity|].
  destruct s as [|b s]; [discriminate H|]. cbn [startswith] in H.
  apply andb_true_iff in H. destruct H as [Hab Hp].
  apply char_eqb_eq in Hab. subst b. cbn [List.length skipn app].
  rewrite <- (IH s Hp). reflexivity.
Qed.

Lemma startswith_self p s : startswith p (p ++ s) = true.
Proof.
  induction p as [|a p IH]; [reflexivity|]. cbn [app startswith].
  rewrite char_eqb_refl. exact IH.
Qed.

Lemma endswith_app p s : endswith p s = true -> s = firstn (List.length s - List.length p) s ++ p.
Proof.
  unfold endswith. intros H. apply startswith_app in H.
  assert (E : s = rev (skipn (List.length (rev p)) (rev s)) ++ p).
  { rewrite <- (rev_involutive s) at 1. rewrite H at 1.
    rewrite rev_app_distr, rev_involutive. reflexivity. }
  set (u := rev (skipn (List.length (rev p)) (rev s))) in *.
  rewrite E at 2 3. rewrite length_app, Nat.add_sub, firstn_exact by reflexivity.
  exact E.
Qed.

Lemma endswith_self p s : endswith p (s ++ p) = true.
Proof. unfold endswith. rewrite rev_app_distr. apply startswith_self. Qed.

Lemma dict_get_set {V} k (v : V) d : dict_get k (dict_set k v d) = Some v.
Proof.
  induction d as [|[k' v'] d IH]; cbn [dict_set dict_get].
  - rewrite (proj2 (str_eqb_eq k k) eq_refl). reflexivity.
  - destruct (str_eqb k' k) eqn:E; cbn [dict_get]; rewrite E; [reflexivity | exact IH].
Qed.

Lemma dict_get_set_ne {V} k k0 (v : V) d :
  k0 <> k -> dict_get k0 (dict_set k v d) = dict_get k0 d.
Proof.
  intros Hne. induction d as [|[k' v'] d IH]; cbn [dict_set dict_get].
  - destruct (str_eqb k k0) eqn:E; [|reflexivity].
    apply str_eqb_eq in E. congruence.
  - destruct (str_eqb k' k) eqn:E; cbn [dict_get].
    + apply str_eqb_eq in E. subst k'.
      destruct (str_eqb k k0) eqn:E0; [|reflexivity].
      apply str_eqb_eq in E0. congruence.
    + rewrite IH. reflexivity.
Qed.

Lemma dict_set_new {V} k (v : V) d :
  ~ In k (List.map fst d) -> dict_set k v d = d ++ [(k, v)].
Proof.
  induction d as [|[k' v'] d IH]; intros H; cbn [dict_set app]; [reflexivity|].
  destruct (str_eqb k' k) eqn:E.
  - apply str_eqb_eq in E. subst k'. exfalso. apply H. left. reflexivity.
  - rewrite IH; [reflexivity|]. intros Hin. apply H. right. exact Hin.
Qed.

Lemma dict_set_keys {V} k (v : V) d x :
  In x (List.map fst (dict_set k v d)) <-> x = k \/ In x (List.map fst d).
Proof.
  induction d as [|[k' v'] d IH]; cbn [dict_set List.map fst In].
  - split; [intros [E | []]; left; auto | intros [E | []]; left; auto].
  - destruct (str_eqb k' k) eqn:E; cbn [List.map fst In].
    + apply str_eqb_eq in E. subst k'. split; [auto|]. intros [-> | H]; auto.
    + rewrite IH. tauto.
Qed.

Lemma load_wiki_pages_snoc listing fc :
  load_wiki_pages (listing ++ [fc])
  = if endswith ".txt" (fst fc)
    then dict_set (fst (page_of fc)) (snd fc) (load_wiki_pages listing)
    else load_wiki_pages listing.
Proof. unfold load_wiki_pages. rewrite fold_left_app. reflexivity. Qed.

Lemma page_of_name fc :
  endswith ".txt" (fst fc) = true -> fst fc = fst (page_of fc) ++ ".txt".
Proof. intros H. apply endswith_app in H. exact H. Qed.

(** X14: the keys of the mapping [load_wiki_pages] builds are the names of
    the [.txt] files without their extension, every other file is left out,
    and, the names of a directory being distinct, the mapping holds each of
    these files once, in the order of the listing, with its content. *)
Theorem load_wiki_pages_entries (listing : list (str * str)) :
  (forall k, In k (List.map fst (load_wiki_pages listing))
             <-> exists content, In (k ++ ".txt", content) listing)
  /\ (List.NoDup (List.map fst listing) ->
      load_wiki_pages listing
      = List.map page_of (List.filter (fun fc => endswith ".txt" (fst fc)) listing)
      /\ forall name content,
           In (name ++ ".txt", content) listing ->
           dict_get name (load_wiki_pages listing) = Some content).
Proof.
  assert (Hkeys : forall k, In k (List.map fst (load_wiki_pages listing))
                            <-> exists content, In (k ++ ".txt", content) listing).
  { induction listing as [|fc listing IH] using rev_ind; intros k.
    - cbn. split; [intros [] | intros (c & [])].
    - rewrite load_wiki_pages_snoc.
      assert (Hin : (exists content, In (k ++ ".txt", content) (listing ++ [fc]))
                    <-> (exists content, In (k ++ ".txt", content) listing)
                        \/ fst fc = k ++ ".txt").
      { split.
        - intros (c & Hc). apply in_app_iff in Hc.
          destruct Hc as [Hc | [-> | []]]; [left; eauto | right; reflexivity].
        - intros [(c & Hc) | E].
          + exists c. apply in_app_iff. left. exact Hc.
          + exists (snd fc). apply in_app_iff. right. left.
            destruct fc as [f c]. cbn in *. rewrite E. reflexivity. }
      rewrite Hin, <- IH.
      destruct (endswith ".txt" (fst fc)) eqn:E.
      + rewrite dict_set_keys. pose proof (page_of_name fc E) as Hn.
        split.
        * intros [H | H]; [right; rewrite Hn, H; reflexivity | left; exact H].
        * intros [H | H]; [right; exact H | left].
          rewrite Hn in H. apply app_inv_tail in H. symmetry. exact H.
      + split; [tauto|]. intros [H | H]; [exact H|].
        rewrite H, endswith_self in E. discriminate E. }
  split; [exact Hkeys|]. intros Hnd.
  assert (Heq : load_wiki_pages listing
                = List.map page_of (List.filter (fun fc => endswith ".txt" (fst fc)) listing)).
  { clear Hkeys. induction listing as [|fc listing IH] using rev_ind; [reflexivity|].
    rewrite List.map_app in Hnd. apply NoDup_app_remove_r in Hnd as Hnd'.
    rewrite load_wiki_pages_snoc, List.filter_app, List.map_app. cbn [List.filter].
    destruct (endswith ".txt" (fst fc)) eqn:E; cbn [List.map];
      [|rewrite app_nil_r; apply IH; exact Hnd'].
    rewrite dict_set_new; [rewrite (IH Hnd'); reflexivity|].
    rewrite (IH Hnd'). intros Hin. apply in_map_iff in Hin.
    destruct Hin as (p & Hp & Hin). apply in_map_iff in Hin.
    destruct Hin as (fc' & <- & Hin). apply filter_In in Hin. destruct Hin as [Hin E'].
    assert (Hsame : fst fc' = fst fc).
    { rewrite (page_of_name fc E), (page_of_name fc' E'), Hp. reflexivity. }
    apply NoDup_remove_2 in Hnd. cbn [List.map app] in Hnd. rewrite app_nil_r in Hnd.
    apply Hnd. rewrite <- Hsame. apply in_map. exact Hin. }
  split; [exact Heq|].
  clear Heq Hkeys. induction listing as [|fc listing IH] using rev_ind;
    intros name content Hin; [destruct Hin|].
  rewrite List.map_app in Hnd. apply NoDup_app_remove_r in Hnd as Hnd'.
  rewrite load_wiki_pages_snoc. apply in_app_iff in Hin.
  destruct Hin as [Hin | [-> | []]].
  - destruct (endswith ".txt" (fst fc)) eqn:E; [|apply IH; assumption].
    rewrite dict_get_set_ne; [apply IH; assumption|].
    intros Hk. apply NoDup_remove_2 in Hnd. cbn [List.map app] in Hnd.
    rewrite app_nil_r in Hnd. apply Hnd.
    rewrite (page_of_name fc E), <- Hk.
    change (name ++ ".txt") with (fst (name ++ ".txt", content)).
    apply in_map. exact Hin.
  - cbn [fst snd]. rewrite endswith_self.
    replace (fst (page_of (name ++ ".txt", content))) with name; [apply dict_get_set|].
    unfold page_of. cbn [fst]. rewrite length_app. cbn [List.length str_of_string].
    rewrite Nat.add_sub. symmetry. apply firstn_exact. reflexivity.
Qed.

(** * Building the network *)

Lemma fold_add_node l : forall g,
  g_nodes (fold_left (fun g artist => add_node artist g) l g)
  = g_nodes g ++ first_occurrences (g_nodes g) l
  /\ g_edges (fold_left (fun g artist => add_node artist g) l g) = g_edges g
  /\ g_word_count (fold_left (fun g artist => add_node artist g) l g) = g_word_count g.
Proof.
  induction l as [|a l IH]; intros g; cbn [fold_left first_occurrences].
  - rewrite app_nil_r. auto.
  - destruct (IH (add_node a g)) as (H1 & H2 & H3). rewrite H1, H2, H3.
    unfold add_node. destruct (mem a (g_nodes g)) eqn:E; [auto|].
    cbn [g_nodes g_edges g_word_count]. split_and!; [|reflexivity|reflexivity].
    rewrite <- app_assoc. cbn [app]. do 2 f_equal.
    apply first_occurrences_ext. intros x. apply mem_snoc_cons.
Qed.

Lemma add_variations_values m a k v :
  add_variations m a !! k = Some v -> v = a \/ m !! k = Some v.
Proof.
  unfold add_variations. intros H.
  repeat match type of H with
  | <[?i := _]> _ !! ?j = Some _ =>
      let E := fresh "E" in
      destruct (decide (i = j)) as [E | E];
      [rewrite <- E, lookup_insert_eq in H; injection H as H; left; symmetry; exact H
      | rewrite lookup_insert_ne in H by exact E]
  end.
  right. exact H.
Qed.

Lemma artist_variations_values l : forall m k v,
  fold_left add_variations l m !! k = Some v -> In v l \/ m !! k = Some v.
Proof.
  induction l as [|a l IH]; intros m k v H; cbn [fold_left] in H; [right; exact H|].
  apply IH in H. destruct H as [H | H]; [left; right; exact H|].
  apply add_variations_values in H. destruct H as [-> | H]; [left; left; reflexivity|].
  right. exact H.
Qed.

Lemma source_artist_known artist_list filename a :
  source_artist_of (artist_variations_of artist_list) filename = Some a ->
  In a artist_list.
Proof.
  unfold source_artist_of, artist_variations_of. intros H.
  destruct (fold_left add_variations artist_list ∅ !! filename) as [b|] eqn:E.
  - injection H as ->. apply artist_variations_values in E.
    destruct E as [E | E]; [exact E|]. rewrite lookup_empty in E. discriminate E.
  - apply artist_variations_values in H.
    destruct H as [H | H]; [exact H|]. rewrite lookup_empty in H. discriminate H.
Qed.

Lemma has_edge_In g u v : has_edge g u v = true <-> In (u, v) (g_edges g).
Proof.
  unfold has_edge. rewrite existsb_exists. split.
  - intros ([a b] & Hin & H). cbn [fst snd] in H. apply andb_true_iff in H.
    destruct H as [Ha Hb]. apply str_eqb_eq in Ha, Hb. subst. exact Hin.
  - intros H. exists (u, v). split; [exact H|]. cbn [fst snd].
    rewrite !(proj2 (str_eqb_eq _ _) eq_refl). reflexivity.
Qed.

Lemma add_node_known n g : In n (g_nodes g) -> add_node n g = g.
Proof. intros H. unfold add_node. rewrite (proj2 (mem_In _ _) H). reflexivity. Qed.

Lemma add_edge_known u v g :
  In u (g_nodes g) -> In v (g_nodes g) ->
  g_nodes (add_edge u v g) = g_nodes g
  /\ g_word_count (add_edge u v g) = g_word_count g
  /\ In (u, v) (g_edges (add_edge u v g))
  /\ (g_edges (add_edge u v g) = g_edges g
      \/ (~ In (u, v) (g_edges g) /\ g_edges (add_edge u v g) = g_edges g ++ [(u, v)])).
Proof.
  intros Hu Hv. unfold add_edge.
  rewrite (add_node_known u g Hu), (add_node_known v g Hv).
  destruct (has_edge g u v) eqn:E.
  - apply has_edge_In in E. split_and!; auto.
  - cbn [g_nodes g_edges g_word_count]. split_and!; auto.
    + apply in_app_iff. right. left. reflexivity.
    + right. split; [|reflexivity]. intros H. apply has_edge_In in H. congruence.
Qed.

Section Network.

Variable artist_list : list str.

Lemma node_known a g :
  g_nodes g = first_occurrences [] artist_list -> In a artist_list -> In a (g_nodes g).
Proof.
  intros -> H. apply first_occurrences_complete; [exact H | intros []].
Qed.

Lemma add_edge_inv u v g :
  graph_inv artist_list g -> In u artist_list -> In v artist_list ->
  graph_inv artist_list (add_edge u v g)
  /\ g_word_count (add_edge u v g) = g_word_count g
  /\ In (u, v) (g_edges (add_edge u v g))
  /\ incl (g_edges g) (g_edges (add_edge u v g)).
Proof.
  intros (Hn & He & Hd) Hu Hv.
  destruct (add_edge_known u v g (node_known u g Hn Hu) (node_known v g Hn Hv))
    as (H1 & H2 & H3 & H4).
  split_and!; auto.
  - unfold graph_inv. rewrite H1. destruct H4 as [-> | [Hnew ->]]; split_and!; auto.
    + apply Forall_app. split; [exact He|]. constructor; [|constructor]. split; assumption.
    + apply NoDup_ListNoDup. apply NoDup_app. split_and!.
      * apply NoDup_ListNoDup. exact Hd.
      * intros e He1 He2. apply list_elem_of_In in He1.
        apply list_elem_of_In in He2. destruct He2 as [<- | []]. contradiction.
      * apply NoDup_ListNoDup. constructor; [intros [] | constructor].
  - destruct H4 as [-> | [_ ->]]; [apply incl_refl | apply incl_appl, incl_refl].
Qed.

Lemma add_link_inv source_artist st link :
  In source_artist artist_list ->
  graph_inv artist_list (snd st) ->
  Forall (fun l => In l artist_list /\ In (source_artist, l) (g_edges (snd st))) (fst st) ->
  let st' := add_link artist_list source_artist st link in
  graph_inv artist_list (snd st')
  /\ g_word_count (snd st') = g_word_count (snd st)
  /\ incl (g_edges (snd st)) (g_edges (snd st'))
  /\ Forall (fun l => In l artist_list /\ In (source_artist, l) (g_edges (snd st')))
       (fst st').
Proof.
  intros Hs Hg Hl. cbv zeta. unfold add_link.
  destruct (mem link artist_list) eqn:E1.
  - apply mem_In in E1. cbn [fst snd].
    destruct (add_edge_inv source_artist link (snd st) Hg Hs E1) as (H1 & H2 & H3 & H4).
    split_and!; auto. apply Forall_app. split.
    + eapply List.Forall_impl; [|exact Hl]. intros l [Ha Hb]. split; [exact Ha|].
      apply H4. exact Hb.
    + constructor; [|constructor]. split; assumption.
  - destruct (mem (replace_char "_" " " link) artist_list) eqn:E2.
    + apply mem_In in E2. cbn [fst snd].
      destruct (add_edge_inv source_artist _ (snd st) Hg Hs E2) as (H1 & H2 & H3 & H4).
      split_and!; auto. apply Forall_app. split.
      * eapply List.Forall_impl; [|exact Hl]. intros l [Ha Hb]. split; [exact Ha|].
        apply H4. exact Hb.
      * constructor; [|constructor]. split; assumption.
    + split_and!; auto. apply incl_refl.
Qed.

Lemma fold_add_link_inv source_artist links : forall st,
  In source_artist artist_list ->
  graph_inv artist_list (snd st) ->
  Forall (fun l => In l artist_list /\ In (source_artist, l) (g_edges (snd st))) (fst st) ->
  let st' := fold_left (add_link artist_list source_artist) links st in
  graph_inv artist_list (snd st')
  /\ g_word_count (snd st') = g_word_count (snd st)
  /\ incl (g_edges (snd st)) (g_edges (snd st'))
  /\ Forall (fun l => In l artist_list /\ In (source_artist, l) (g_edges (snd st')))
       (fst st').
Proof.
  induction links as [|link links IH]; intros st Hs Hg Hl; cbv zeta; cbn [fold_left].
  - split_and!; auto. apply incl_refl.
  - destruct (add_link_inv source_artist st link Hs Hg Hl) as (H1 & H2 & H3 & H4).
    destruct (IH _ Hs H1 H4) as (K1 & K2 & K3 & K4).
    split_and!; auto; [congruence|]. eapply incl_tran; eassumption.
Qed.

Lemma add_page_inv net page :
  network_inv artist_list net ->
  exists net', add_page artist_list (artist_variations_of artist_list) net page = Some net'
               /\ network_inv artist_list net'.
Proof.
  intros (Hg & Hl & Hd). unfold add_page.
  destruct (source_artist_of _ (fst page)) as [a|] eqn:Ea;
    [|exists net; split; [reflexivity | split_and!; assumption]].
  destruct (is_nil a) eqn:En;
    [exists net; split; [reflexivity | split_and!; assumption]|].
  apply source_artist_known in Ea.
  destruct (fold_add_link_inv a (extract_wiki_links (snd page)) ([], net_graph net) Ea Hg
              ltac:(constructor)) as (H1 & H2 & H3 & H4).
  destruct (fold_left _ _ _) as [artist_links G]. cbn [fst snd] in *.
  unfold set_word_count.
  rewrite (proj2 (mem_In a (g_nodes G)) (node_known a G (proj1 H1) Ea)).
  eexists. split; [reflexivity|].
  unfold network_inv. cbn [net_graph links_found g_nodes g_edges g_word_count].
  split_and!.
  - exact H1.
  - intros b links Hb. destruct (decide (a = b)) as [<- | Hne].
    + rewrite lookup_insert_eq in Hb. injection Hb as <-. split_and!; auto.
      intros ->. discriminate En.
    + rewrite lookup_insert_ne in Hb by exact Hne.
      destruct (Hl b links Hb) as (K1 & K2 & K3). split_and!; auto.
      eapply List.Forall_impl; [|exact K3]. intros l [Ha Hb']. split; [exact Ha|].
      apply H3. exact Hb'.
  - rewrite !dom_insert_L, H2, Hd. reflexivity.
Qed.

Lemma add_pages_inv pages : forall net,
  network_inv artist_list net ->
  exists net', add_pages artist_list (artist_variations_of artist_list) net pages = Some net'
               /\ network_inv artist_list net'.
Proof.
  induction pages as [|page pages IH]; intros net Hnet; cbn [add_pages]; [eauto|].
  destruct (add_page_inv net page Hnet) as (net1 & -> & H1). apply IH. exact H1.
Qed.

Lemma build_artist_network_inv (wiki_data : list (str * str)) :
  exists net,
    build_artist_network artist_list wiki_data = Some net
    /\ network_inv artist_list net.
Proof.
  unfold build_artist_network.
  set (g0 := {| g_nodes := []; g_edges := []; g_word_count := ∅ |}).
  destruct (fold_add_node artist_list g0) as (N1 & N2 & N3).
  cbn [g0 g_nodes g_edges g_word_count app] in N1, N2, N3.
  apply add_pages_inv.
  unfold network_inv, graph_inv. cbn [net_graph links_found].
  rewrite N1, N2, N3. split_and!.
  - reflexivity.
  - constructor.
  - constructor.
  - intros a links H. rewrite lookup_empty in H. discriminate H.
  - rewrite !dom_empty_L. reflexivity.
Qed.

Lemma graph_inv_ok g : graph_inv artist_list g -> graph_ok g.
Proof.
  intros (Hn & He & _). unfold graph_ok. rewrite Hn.
  split; [apply first_occurrences_NoDup|].
  eapply List.Forall_impl; [|exact He]. intros e [Ha Hb].
  split; apply first_occurrences_complete; auto.
Qed.

(** X15: [build_artist_network] never raises: the attribute assignment of
    line 106 always finds its node.  The graph it returns has the artists of
    the list as its nodes, each once and in the order of the list; every
    edge joins two artists of the list and is held once; [links_found] maps
    artists of the list to artists of the list, each of which is the head of
    an edge from the key; and the nodes that carry a word count are the keys
    of [links_found]. *)
Theorem build_artist_network_invariants (wiki_data : list (str * str)) :
  exists net,
    build_artist_network artist_list wiki_data = Some net
    /\ g_nodes (net_graph net) = first_occurrences [] artist_list
    /\ graph_ok (net_graph net)
    /\ List.NoDup (g_edges (net_graph net))
    /\ (forall a links, links_found net !! a = Some links ->
          In a artist_list /\ a <> []
          /\ Forall (fun l => In l artist_list /\ In (a, l) (g_edges (net_graph net)))
               links)
    /\ dom (g_word_count (net_graph net)) = dom (links_found net).
Proof.
  destruct (build_artist_network_inv wiki_data) as (net & Hnet & Hg & Hl & Hw).
  pose proof (graph_inv_ok _ Hg) as Hok. destruct Hg as (Hn & He & Hd).
  exists net. split_and!; assumption.
Qed.

End Network.

(** * The components and the cleaned network *)

Lemma concat_filter_perm {A} (p : list A -> bool) (l : list (list A)) :
  Permutation (List.concat (List.filter p l) ++ List.concat (List.filter (fun d => negb (p d)) l))
              (List.concat l).
Proof.
  induction l as [|d l IH]; cbn [List.filter List.concat]; [constructor|].
  destruct (p d); cbn [negb List.concat].
  - rewrite <- app_assoc. apply Permutation_app_head. exact IH.
  - etransitivity; [apply Permutation_app_swap_app|].
    apply Permutation_app_head. exact IH.
Qed.

Lemma merge_concat u v cs : Permutation (List.concat (merge u v cs)) (List.concat cs).
Proof.
  induction cs as [|c cs IH]; cbn [merge]; [constructor|].
  destruct (mem u c || mem v c).
  - destruct (mem u c && mem v c); [reflexivity|]. cbn [List.concat].
    rewrite <- app_assoc. apply Permutation_app_head. apply concat_filter_perm.
  - cbn [List.concat]. apply Permutation_app_head. exact IH.
Qed.

Lemma merge_same_class u v cs x y :
  same_class cs x y -> same_class (merge u v cs) x y.
Proof.
  induction cs as [|c cs IH]; intros (d & Hd & Hx & Hy); [destruct Hd|].
  cbn [merge]. destruct (mem u c || mem v c) eqn:E1.
  - destruct (mem u c && mem v c); [exists d; auto|].
    destruct Hd as [<- | Hd].
    + eexists. split; [left; reflexivity|]. split; apply in_app_iff; left; assumption.
    + destruct (mem u d || mem v d) eqn:E2.
      * eexists. split; [left; reflexivity|].
        assert (Hin : In d (List.filter (fun d => mem u d || mem v d) cs))
          by (apply filter_In; auto).
        split; apply in_app_iff; right; apply in_concat; exists d; auto.
      * exists d. split_and!; auto. right. apply filter_In. split; [exact Hd|].
        rewrite E2. reflexivity.
  - destruct Hd as [<- | Hd]; [exists c; split_and!; auto; left; reflexivity|].
    destruct IH as (d' & Hd' & Hx' & Hy'); [exists d; auto|].
    exists d'. split_and!; auto. right. exact Hd'.
Qed.

Lemma merge_joins u v cs :
  In u (List.concat cs) -> In v (List.concat cs) -> same_class (merge u v cs) u v.
Proof.
  induction cs as [|c cs IH]; intros Hu Hv; [destruct Hu|].
  cbn [List.concat] in Hu, Hv. apply in_app_iff in Hu, Hv. cbn [merge].
  destruct (mem u c) eqn:Eu; destruct (mem v c) eqn:Ev; cbn [orb andb].
  - apply mem_In in Eu, Ev. exists c. split_and!; auto. left. reflexivity.
  - apply mem_In in Eu. apply mem_false in Ev.
    destruct Hv as [Hv | Hv]; [contradiction|]. apply in_concat in Hv.
    destruct Hv as (d & Hd & Hvd).
    eexists. split; [left; reflexivity|]. split; apply in_app_iff; [left; exact Eu | right].
    apply in_concat. exists d. split; [|exact Hvd]. apply filter_In. split; [exact Hd|].
    rewrite (proj2 (mem_In v d) Hvd). apply orb_true_r.
  - apply mem_In in Ev. apply mem_false in Eu.
    destruct Hu as [Hu | Hu]; [contradiction|]. apply in_concat in Hu.
    destruct Hu as (d & Hd & Hud).
    eexists. split; [left; reflexivity|]. split; apply in_app_iff; [right | left; exact Ev].
    apply in_concat. exists d. split; [|exact Hud]. apply filter_In. split; [exact Hd|].
    rewrite (proj2 (mem_In u d) Hud). reflexivity.
  - apply mem_false in Eu, Ev.
    destruct Hu as [Hu | Hu]; [contradiction|]. destruct Hv as [Hv | Hv]; [contradiction|].
    destruct (IH Hu Hv) as (d & Hd & H1 & H2). exists d. split_and!; auto. right. exact Hd.
Qed.

Lemma fold_merge es : forall cs,
  let cs' := fold_left (fun cs e => merge (fst e) (snd e) cs) es cs in
  Permutation (List.concat cs') (List.concat cs)
  /\ (forall x y, same_class cs x y -> same_class cs' x y)
  /\ (forall e, In e es -> In (fst e) (List.concat cs) -> In (snd e) (List.concat cs) ->
        same_class cs' (fst e) (snd e)).
Proof.
  induction es as [|e es IH]; intros cs; cbv zeta; cbn [fold_left].
  - split_and!; [reflexivity | auto | intros e []].
  - destruct (IH (merge (fst e) (snd e) cs)) as (H1 & H2 & H3). cbv zeta in H1, H2, H3.
    pose proof (merge_concat (fst e) (snd e) cs) as Hp.
    split_and!.
    + etransitivity; eassumption.
    + intros x y H. apply H2, merge_same_class, H.
    + intros e' [<- | Hin] Hu Hv.
      * apply H2, merge_joins; assumption.
      * apply H3; [exact Hin | |];
          eapply Permutation_in; [symmetry; exact Hp | assumption
                                  | symmetry; exact Hp | assumption].
Qed.

Lemma concat_singletons (l : list str) : List.concat (List.map (fun n => [n]) l) = l.
Proof. induction l as [|x l IH]; cbn; [reflexivity | rewrite IH; reflexivity]. Qed.

Lemma components_partition g :
  Permutation (List.concat (weakly_connected_components g)) (g_nodes g)
  /\ (forall e, In e (g_edges g) -> In (fst e) (g_nodes g) -> In (snd e) (g_nodes g) ->
        same_class (weakly_connected_components g) (fst e) (snd e)).
Proof.
  unfold weakly_connected_components.
  destruct (fold_merge (g_edges g) (List.map (fun n => [n]) (g_nodes g))) as (H1 & _ & H3).
  cbv zeta in H1, H3. rewrite concat_singletons in H1, H3. split; assumption.
Qed.

Lemma NoDup_concat_class (cs : list (list str)) c :
  List.NoDup (List.concat cs) -> In c cs -> List.NoDup c.
Proof.
  induction cs as [|d cs IH]; intros Hnd Hc; [destruct Hc|].
  cbn [List.concat] in Hnd. destruct Hc as [<- | Hc].
  - eapply NoDup_app_remove_r. exact Hnd.
  - apply IH; [|exact Hc]. eapply NoDup_app_remove_l. exact Hnd.
Qed.

Lemma class_unique (cs : list (list str)) c1 c2 x :
  List.NoDup (List.concat cs) -> In c1 cs -> In c2 cs -> In x c1 -> In x c2 -> c1 = c2.
Proof.
  induction cs as [|d cs IH]; intros Hnd H1 H2 Hx1 Hx2; [destruct H1|].
  cbn [List.concat] in Hnd.
  assert (Hdis : forall c, In c cs -> In x d -> In x c -> False).
  { intros c Hc Hd Hxc. apply NoDup_ListNoDup in Hnd. apply NoDup_app in Hnd.
    destruct Hnd as (_ & Hnd & _). apply (Hnd x).
    - apply list_elem_of_In. exact Hd.
    - apply list_elem_of_In. apply in_concat. exists c. auto. }
  destruct H1 as [<- | H1]; destruct H2 as [<- | H2].
  - reflexivity.
  - exfalso. exact (Hdis c2 H2 Hx1 Hx2).
  - exfalso. exact (Hdis c1 H1 Hx2 Hx1).
  - apply IH; auto. eapply NoDup_app_remove_l. exact Hnd.
Qed.

Lemma max_by_len_max l c :
  max_by_len l = Some c -> In c l /\ forall d, In d l -> (List.length d <= List.length c)%nat.
Proof.
  revert c. induction l as [|a l IH]; intros c H; [discriminate H|].
  cbn [max_by_len] in H. destruct (max_by_len l) as [b|] eqn:E.
  - destruct (IH b eq_refl) as (Hb & Hmax).
    destruct (List.length a <? List.length b)%nat eqn:El; injection H as <-.
    + apply Nat.ltb_lt in El. split; [right; exact Hb|].
      intros d [<- | Hd]; [lia | apply Hmax, Hd].
    + apply Nat.ltb_ge in El. split; [left; reflexivity|].
      intros d [<- | Hd]; [lia | specialize (Hmax d Hd); lia].
  - injection H as <-. destruct l as [|a' l]; [|cbn [max_by_len] in E;
      destruct (max_by_len l) as [b|]; [destruct (_ <? _)%nat|]; discriminate E].
    split; [left; reflexivity|]. intros d [<- | []]. lia.
Qed.

Lemma filter_filter_length {A} (p q : A -> bool) l :
  (forall x, In x l -> q x = true -> p x = true) ->
  List.length (List.filter q (List.filter p l)) = List.length (List.filter q l).
Proof.
  induction l as [|x l IH]; intros H; [reflexivity|]. cbn [List.filter].
  assert (IH' := IH (fun y Hy => H y (or_intror Hy))).
  destruct (p x) eqn:Ep; cbn [List.filter].
  - destruct (q x); cbn [List.length]; rewrite IH'; reflexivity.
  - destruct (q x) eqn:Eq; [|exact IH'].
    rewrite (H x (or_introl eq_refl) Eq) in Ep. discriminate Ep.
Qed.

Lemma remove_isolates_ok g :
  graph_ok g -> graph_ok (remove_nodes_from (isolates g) g).
Proof.
  intros [Hnd He]. split.
  - cbn [remove_nodes_from g_nodes]. apply List.NoDup_filter. exact Hnd.
  - rewrite remove_isolates_edges. apply List.Forall_forall. intros e Hin.
    rewrite List.Forall_forall in He. destruct (He e Hin) as [H1 H2].
    destruct (degree_edge g e Hin) as [D1 D2].
    split; apply remove_isolates_nodes; auto.
Qed.

(** The graph induced on a class of a partition of the nodes that holds
    both ends of every edge it touches. *)
Lemma subgraph_class g c :
  graph_ok g ->
  List.NoDup c -> incl c (g_nodes g) ->
  (forall e, In e (g_edges g) -> In (fst e) c \/ In (snd e) c ->
             In (fst e) c /\ In (snd e) c) ->
  let r := subgraph c g in
  graph_ok r
  /\ (forall n, In n (g_nodes r) <-> In n c)
  /\ List.length (g_nodes r) = List.length c
  /\ incl (g_edges r) (g_edges g)
  /\ (forall e, In e (g_edges g) -> In (fst e) (g_nodes r) \/ In (snd e) (g_nodes r) ->
        In e (g_edges r))
  /\ (forall n, In n (g_nodes r) -> degree r n = degree g n).
Proof.
  intros [Hnd He] Hc Hincl Hclosed. cbv zeta.
  assert (Hnodes : forall n, In n (g_nodes (subgraph c g)) <-> In n c).
  { intros n. cbn [subgraph g_nodes]. rewrite filter_In, mem_In. split; [tauto|].
    intros H. split; [apply Hincl, H | exact H]. }
  assert (Hedges : forall e, In e (g_edges (subgraph c g))
                             <-> In e (g_edges g) /\ In (fst e) c /\ In (snd e) c).
  { intros e. cbn [subgraph g_edges]. rewrite filter_In, andb_true_iff, !mem_In. tauto. }
  split_and!.
  - split.
    + cbn [subgraph g_nodes]. apply List.NoDup_filter. exact Hnd.
    + apply List.Forall_forall. intros e Hin. apply Hedges in Hin.
      destruct Hin as (_ & H1 & H2). split; apply Hnodes; assumption.
  - exact Hnodes.
  - apply Permutation_length. apply Permutation.NoDup_Permutation; [| exact Hc | exact Hnodes].
    cbn [subgraph g_nodes]. apply List.NoDup_filter. exact Hnd.
  - intros e Hin. apply Hedges in Hin. tauto.
  - intros e Hin Hn. apply Hedges. split; [exact Hin|]. apply Hclosed; [exact Hin|].
    rewrite <- !Hnodes. exact Hn.
  - intros n Hn. apply Hnodes in Hn. unfold degree. cbn [subgraph g_edges].
    rewrite !filter_filter_length; [reflexivity | |].
    + intros e Hin Hq. apply str_eqb_eq in Hq.
      destruct (Hclosed e Hin) as [H1 H2]; [right; rewrite Hq; exact Hn|].
      rewrite (proj2 (mem_In _ _) H1), (proj2 (mem_In _ _) H2). reflexivity.
    + intros e Hin Hq. apply str_eqb_eq in Hq.
      destruct (Hclosed e Hin) as [H1 H2]; [left; rewrite Hq; exact Hn|].
      rewrite (proj2 (mem_In _ _) H1), (proj2 (mem_In _ _) H2). reflexivity.
Qed.

Lemma largest_component_class g c :
  graph_ok g -> g_nodes g <> [] ->
  max_by_len (weakly_connected_components g) = Some c ->
  c <> [] /\ List.NoDup c /\ incl c (g_nodes g)
  /\ (forall e, In e (g_edges g) -> In (fst e) c \/ In (snd e) c ->
                In (fst e) c /\ In (snd e) c)
  /\ (forall d, In d (weakly_connected_components g) ->
                (List.length d <= List.length c)%nat).
Proof.
  intros [Hnd He] Hne Hmax.
  destruct (components_partition g) as [Hperm Hsame].
  destruct (max_by_len_max _ _ Hmax) as [Hc Hlen].
  assert (Hndc : List.NoDup (List.concat (weakly_connected_components g))).
  { eapply Permutation_NoDup; [symmetry; exact Hperm | exact Hnd]. }
  assert (Hincl : forall d, In d (weakly_connected_components g) -> incl d (g_nodes g)).
  { intros d Hd x Hx. eapply Permutation_in; [exact Hperm|].
    apply in_concat. exists d. auto. }
  split_and!.
  - destruct (g_nodes g) as [|n ns] eqn:En; [contradiction|].
    assert (Hn : In n (List.concat (weakly_connected_components g))).
    { eapply Permutation_in; [symmetry; exact Hperm | left; reflexivity]. }
    apply in_concat in Hn. destruct Hn as (d & Hd & Hnd').
    specialize (Hlen d Hd). intros ->. destruct d; [destruct Hnd' | cbn in Hlen; lia].
  - eapply NoDup_concat_class; eassumption.
  - apply Hincl, Hc.
  - intros e Hin Hor. rewrite List.Forall_forall in He. destruct (He e Hin) as [H1 H2].
    destruct (Hsame e Hin H1 H2) as (d & Hd & Hx & Hy).
    assert (Heq : d = c).
    { destruct Hor as [H | H].
      - exact (class_unique _ d c (fst e) Hndc Hd Hc Hx H).
      - exact (class_unique _ d c (snd e) Hndc Hd Hc Hy H). }
    subst d. auto.
  - exact Hlen.
Qed.

(** * The components as classes of connected nodes *)

Lemma linked_trans es x y z : linked es x y -> linked es y z -> linked es x z.
Proof.
  induction 1 as [x | x w y Hxw Hwy IH]; intros H; [exact H|].
  eapply linked_step; [exact Hxw | apply IH, H].
Qed.

Lemma linked_edge es x y : In (x, y) es \/ In (y, x) es -> linked es x y.
Proof. intros H. eapply linked_step; [exact H | apply linked_refl]. Qed.

Lemma linked_sym es x y : linked es x y -> linked es y x.
Proof.
  induction 1 as [x | x w y Hxw Hwy IH]; [apply linked_refl|].
  eapply linked_trans; [exact IH|]. apply linked_edge. tauto.
Qed.

Lemma merge_linked es u v cs :
  In (u, v) es ->
  (forall c x y, In c cs -> In x c -> In y c -> linked es x y) ->
  forall c x y, In c (merge u v cs) -> In x c -> In y c -> linked es x y.
Proof.
  intros He. induction cs as [|c cs IH]; intros K d x y Hd Hx Hy; [destruct Hd|].
  cbn [merge] in Hd.
  assert (Huv : linked es u v) by (apply linked_edge; left; exact He).
  assert (Hanchor : forall c' z, In c' (c :: cs) -> mem u c' || mem v c' = true ->
                                 In z c' -> linked es z u).
  { intros c' z Hc' Hp Hz. apply orb_true_iff in Hp. destruct Hp as [Hp | Hp].
    - apply mem_In in Hp. exact (K c' z u Hc' Hz Hp).
    - apply mem_In in Hp. eapply linked_trans; [exact (K c' z v Hc' Hz Hp)|].
      apply linked_sym. exact Huv. }
  destruct (mem u c || mem v c) eqn:E1.
  - destruct (mem u c && mem v c); [exact (K d x y Hd Hx Hy)|].
    destruct Hd as [<- | Hd].
    + assert (Hall : forall z,
                In z (c ++ List.concat (List.filter (fun d => mem u d || mem v d) cs)) ->
                linked es z u).
      { intros z Hz. apply in_app_iff in Hz. destruct Hz as [Hz | Hz].
        - exact (Hanchor c z (or_introl eq_refl) E1 Hz).
        - apply in_concat in Hz. destruct Hz as (d & Hd & Hz).
          apply filter_In in Hd. destruct Hd as [Hd Hp].
          exact (Hanchor d z (or_intror Hd) Hp Hz). }
      eapply linked_trans; [exact (Hall x Hx) | apply linked_sym, (Hall y Hy)].
    + apply filter_In in Hd. destruct Hd as [Hd _].
      exact (K d x y (or_intror Hd) Hx Hy).
  - destruct Hd as [<- | Hd]; [exact (K c x y (or_introl eq_refl) Hx Hy)|].
    apply (IH (fun c' x' y' Hc' => K c' x' y' (or_intror Hc')) d x y Hd Hx Hy).
Qed.

Lemma fold_merge_linked es0 es : forall cs,
  incl es es0 ->
  (forall c x y, In c cs -> In x c -> In y c -> linked es0 x y) ->
  forall c x y,
    In c (fold_left (fun cs e => merge (fst e) (snd e) cs) es cs) ->
    In x c -> In y c -> linked es0 x y.
Proof.
  induction es as [|e es IH]; intros cs Hincl K; cbn [fold_left]; [exact K|].
  apply IH; [intros e' He'; apply Hincl; right; exact He'|].
  apply merge_linked; [|exact K]. destruct e as [u v]. apply Hincl. left. reflexivity.
Qed.

Lemma merge_classes_nonempty u v cs :
  Forall (fun c => c <> []) cs -> Forall (fun c => c <> []) (merge u v cs).
Proof.
  induction 1 as [|c cs Hc Hcs IH]; cbn [merge]; [constructor|].
  destruct (mem u c || mem v c).
  - destruct (mem u c && mem v c); [constructor; assumption|].
    constructor; [|apply filter_ok; exact Hcs].
    destruct c; [contradiction | discriminate].
  - constructor; assumption.
Qed.

Lemma components_classes_nonempty g :
  Forall (fun c => c <> []) (weakly_connected_components g).
Proof.
  unfold weakly_connected_components.
  assert (H : Forall (fun c : list str => c <> []) (List.map (fun n : str => [n]) (g_nodes g))).
  { apply List.Forall_forall. intros c Hc. apply in_map_iff in Hc.
    destruct Hc as (n & <- & _). discriminate. }
  revert H. generalize (List.map (fun n : str => [n]) (g_nodes g)).
  induction (g_edges g) as [|e es IH]; intros cs H; cbn [fold_left]; [exact H|].
  apply IH, merge_classes_nonempty, H.
Qed.

Lemma components_linked g x y :
  same_class (weakly_connected_components g) x y -> linked (g_edges g) x y.
Proof.
  intros (c & Hc & Hxc & Hyc). revert c x y Hc Hxc Hyc.
  unfold weakly_connected_components. apply fold_merge_linked; [apply incl_refl|].
  intros c x y Hc Hxc Hyc. apply in_map_iff in Hc. destruct Hc as (n & <- & _).
  destruct Hxc as [<- | []]. destruct Hyc as [<- | []]. apply linked_refl.
Qed.

Lemma linked_inside es es' (c : list str) x y :
  (forall e, In e es -> In (fst e) c \/ In (snd e) c ->
             In (fst e) c /\ In (snd e) c /\ In e es') ->
  linked es x y -> In x c -> linked es' x y.
Proof.
  intros Hcl. induction 1 as [x | x w y Hxw Hwy IH]; intros Hx; [apply linked_refl|].
  destruct Hxw as [Hin | Hin].
  - destruct (Hcl _ Hin (or_introl Hx)) as (_ & Hw & He).
    eapply linked_step; [left; exact He | apply IH, Hw].
  - destruct (Hcl _ Hin (or_intror Hx)) as (Hw & _ & He).
    eapply linked_step; [right; exact He | apply IH, Hw].
Qed.

(** X16: the weakly connected components of a graph as networkx keeps it
    are the classes of its nodes under being joined by a chain of edges
    taken in either direction: the components are not empty, every node is
    in exactly one of them, and two nodes are in the same component exactly
    when such a chain joins them. *)
Theorem components_are_linked_classes (g : digraph) :
  graph_ok g ->
  Forall (fun c => c <> []) (weakly_connected_components g)
  /\ Permutation (List.concat (weakly_connected_components g)) (g_nodes g)
  /\ (forall c1 c2 x, In c1 (weakly_connected_components g) ->
        In c2 (weakly_connected_components g) -> In x c1 -> In x c2 -> c1 = c2)
  /\ (forall x y, In x (g_nodes g) -> In y (g_nodes g) ->
        (same_class (weakly_connected_components g) x y <-> linked (g_edges g) x y)).
Proof.
  intros [Hnd He].
  destruct (components_partition g) as [Hperm Hsame].
  assert (Hndc : List.NoDup (List.concat (weakly_connected_components g))).
  { eapply Permutation_NoDup; [symmetry; exact Hperm | exact Hnd]. }
  assert (Hself : forall x, In x (g_nodes g) -> same_class (weakly_connected_components g) x x).
  { intros x Hx. eapply Permutation_in in Hx; [|symmetry; exact Hperm].
    apply in_concat in Hx. destruct Hx as (c & Hc & Hx). exists c. auto. }
  rewrite List.Forall_forall in He.
  split_and!.
  - apply components_classes_nonempty.
  - exact Hperm.
  - intros c1 c2 x. apply class_unique. exact Hndc.
  - intros x y Hx Hy. split.
    + apply components_linked.
    + intros H. clear Hy. induction H as [x | x w y Hxw Hwy IH]; [apply Hself, Hx|].
      assert (Hstep : same_class (weakly_connected_components g) x w /\ In w (g_nodes g)).
      { destruct Hxw as [Hin | Hin].
        - destruct (He _ Hin) as [H1 H2]. split; [|exact H2].
          exact (Hsame _ Hin H1 H2).
        - destruct (He _ Hin) as [H1 H2]. split; [|exact H1].
          destruct (Hsame _ Hin H1 H2) as (c & Hc & Ha & Hb). exists c. auto. }
      destruct Hstep as [(c & Hc & Hxc & Hwc) Hw].
      destruct (IH Hw) as (d & Hd & Hwd & Hyd).
      assert (E : c = d) by exact (class_unique _ c d w Hndc Hc Hd Hwc Hwd).
      subst d. exists c. auto.
Qed.

Lemma components_are_linked_classes_witness :
  Permutation (List.concat (weakly_connected_components small_network))
    (g_nodes small_network).
Proof.
  apply (components_are_linked_classes small_network).
  split.
  - repeat constructor; vm_compute; intuition discriminate.
  - apply List.Forall_forall. intros e He. vm_compute in He.
    destruct He as [<- | []]. vm_compute. tauto.
Defined.

(** * The cleaned network *)

Lemma clean_network_returns (G : nat) (h : gmap nat digraph) (g : digraph) :
  h !! G = Some g ->
  g_nodes (remove_nodes_from (isolates g) g) <> [] ->
  exists G_largest h' c,
    max_by_len (weakly_connected_components (remove_nodes_from (isolates g) g)) = Some c
    /\ clean_network G h = Some (Returned G_largest, h')
    /\ h' !! G_largest = Some (subgraph c (remove_nodes_from (isolates g) g)).
Proof.
  intros Hg Hne. unfold clean_network. rewrite Hg.
  destruct (max_by_len_some _ (components_nonempty _ Hne)) as (c & Ec & _).
  rewrite Ec. eexists _, _, c. split_and!; [reflexivity | reflexivity |].
  apply lookup_insert_eq.
Qed.

(** X17: on a graph as networkx keeps it, with a node that is not isolated,
    [clean_network] returns a graph that is not empty, whose nodes are nodes
    of the argument and whose edges are all the edges of the argument that
    touch one of its nodes: every node keeps its degree, so none is isolated.
    Any two of its nodes are joined by a chain of its edges, and no weakly
    connected component has more nodes than the graph returned. *)
Theorem clean_network_result (G : nat) (h : gmap nat digraph) (g : digraph) :
  h !! G = Some g -> graph_ok g ->
  g_nodes (remove_nodes_from (isolates g) g) <> [] ->
  exists G_largest h' r,
    clean_network G h = Some (Returned G_largest, h')
    /\ h' !! G_largest = Some r
    /\ g_nodes r <> [] /\ graph_ok r
    /\ incl (g_nodes r) (g_nodes g) /\ incl (g_edges r) (g_edges g)
    /\ (forall e, In e (g_edges g) -> In (fst e) (g_nodes r) \/ In (snd e) (g_nodes r) ->
          In e (g_edges r))
    /\ (forall n, In n (g_nodes r) -> degree r n = degree g n /\ degree r n <> 0%nat)
    /\ (forall x y, In x (g_nodes r) -> In y (g_nodes r) -> linked (g_edges r) x y)
    /\ (forall c, In c (weakly_connected_components (remove_nodes_from (isolates g) g)) ->
          (List.length c <= List.length (g_nodes r))%nat).
Proof.
  intros Hg Hok Hne.
  destruct (clean_network_returns G h g Hg Hne) as (G_largest & h' & c & Ec & Hrun & Hr).
  set (g1 := remove_nodes_from (isolates g) g) in *.
  pose proof (remove_isolates_ok g Hok) as Hok1. fold g1 in Hok1.
  destruct (max_by_len_max _ _ Ec) as [Hcin _].
  destruct (largest_component_class g1 c Hok1 Hne Ec) as (Hc & Hndc & Hincl & Hcl & Hlen).
  destruct (subgraph_class g1 c Hok1 Hndc Hincl Hcl) as (R1 & R2 & R3 & R4 & R5 & R6).
  cbv zeta in R1, R2, R3, R4, R5, R6.
  assert (Hedges : g_edges g1 = g_edges g) by apply remove_isolates_edges.
  assert (Hnodes : forall n, In n (g_nodes g1) -> In n (g_nodes g) /\ degree g n <> 0%nat)
    by (intros n; apply remove_isolates_nodes).
  assert (Hdeg : forall n, degree g1 n = degree g n)
    by (intros n; unfold degree; rewrite Hedges; reflexivity).
  exists G_largest, h', (subgraph c g1). split_and!.
  - exact Hrun.
  - exact Hr.
  - destruct c as [|x c']; [contradiction|].
    assert (Hx : In x (g_nodes (subgraph (x :: c') g1))) by (apply R2; left; reflexivity).
    intros E. rewrite E in Hx. destruct Hx.
  - exact R1.
  - intros n Hn. apply R2, Hincl, Hnodes in Hn. tauto.
  - rewrite <- Hedges. exact R4.
  - rewrite <- Hedges. exact R5.
  - intros n Hn. rewrite (R6 n Hn), Hdeg. split; [reflexivity|].
    apply R2, Hincl, Hnodes in Hn. tauto.
  - intros x y Hx Hy. apply R2 in Hx, Hy.
    apply (linked_inside (g_edges g1) _ c); [| |exact Hx].
    + intros e Hin Hor. destruct (Hcl e Hin Hor) as [H1 H2]. split_and!; auto.
      apply R5; [exact Hin|]. left. apply R2. exact H1.
    + apply components_linked. exists c. auto.
  - intros d Hd. rewrite R3. apply Hlen, Hd.
Qed.

Lemma clean_network_result_witness :
  exists G_largest h' r,
    clean_network 0 {[ 0%nat := small_network ]} = Some (Returned G_largest, h')
    /\ h' !! G_largest = Some r /\ g_nodes r <> [].
Proof.
  destruct (clean_network_result 0 {[ 0%nat := small_network ]} small_network)
    as (G_largest & h' & r & H1 & H2 & H3 & _).
  - reflexivity.
  - split.
    + repeat constructor; vm_compute; intuition discriminate.
    + apply List.Forall_forall. intros e He. vm_compute in He.
      destruct He as [<- | []]. vm_compute. tauto.
  - vm_compute. discriminate.
  - exists G_largest, h', r. split_and!; assumption.
Defined.

(** * The graph object and the graph returned *)







(** * The whole run *)

Lemma no_edge_all_isolated g :
  g_edges g = [] -> g_nodes (remove_nodes_from (isolates g) g) = [].
Proof.
  intros He. destruct (g_nodes (remove_nodes_from (isolates g) g)) as [|n ns] eqn:E;
    [reflexivity|].
  assert (Hn : In n (g_nodes (remove_nodes_from (isolates g) g)))
    by (rewrite E; left; reflexivity).
  apply remove_isolates_nodes in Hn. destruct Hn as [_ Hd].
  unfold degree in Hd. rewrite He in Hd. cbn in Hd. contradiction.
Qed.

Lemma edge_not_all_isolated g :
  graph_ok g -> g_edges g <> [] -> g_nodes (remove_nodes_from (isolates g) g) <> [].
Proof.
  intros [_ He] Hne. destruct (g_edges g) as [|e es] eqn:E; [contradiction|].
  inversion He as [|? ? [H1 _] _]; subst.
  assert (Hin : In e (g_edges g)) by (rewrite E; left; reflexivity).
  assert (Hn : In (fst e) (g_nodes (remove_nodes_from (isolates g) g))).
  { apply remove_isolates_nodes. split; [exact H1 | apply (degree_edge g e Hin)]. }
  intros Hnil. rewrite Hnil in Hn. destruct Hn.
Qed.

(** X18: the run of [main] up to the cleaned network.  Building the network
    never raises.  When no page of a listed artist links to a listed artist
    the graph has no edge, every node is isolated and [max] raises
    ValueError on the empty list of components; otherwise the run returns a
    graph that is not empty, whose nodes are names of the artist list, none
    of them isolated. *)
Theorem main_outcome (artists_file : str) (listing : list (str * str)) :
  exists net,
    build_artist_network (load_artist_list artists_file) (load_wiki_pages listing)
    = Some net
    /\ (g_edges (net_graph net) = [] ->
        exists h', main artists_file listing = Some (RaisedValueError, h'))
    /\ (g_edges (net_graph net) <> [] ->
        exists G_largest h' r,
          main artists_file listing = Some (Returned G_largest, h')
          /\ h' !! G_largest = Some r
          /\ g_nodes r <> []
          /\ incl (g_nodes r) (load_artist_list artists_file)
          /\ incl (g_edges r) (g_edges (net_graph net))
          /\ (forall n, In n (g_nodes r) -> degree r n <> 0%nat)).
Proof.
  destruct (build_artist_network_inv (load_artist_list artists_file)
              (load_wiki_pages listing)) as (net & Hb & Hg & _).
  pose proof (graph_inv_ok _ _ Hg) as Hok. destruct Hg as (Hn & _ & _).
  exists net. split; [exact Hb|]. unfold main. rewrite Hb. split.
  - intros He. unfold clean_network. rewrite lookup_singleton_eq.
    rewrite (components_empty _ (no_edge_all_isolated _ He)). cbn [max_by_len]. eauto.
  - intros He. pose proof (edge_not_all_isolated _ Hok He) as Hne.
    destruct (clean_network_returns 0 {[ 0%nat := net_graph net ]} (net_graph net)
                (lookup_singleton_eq _ _) Hne) as (G_largest & h' & c & Ec & Hrun & Hr).
    set (g1 := remove_nodes_from (isolates (net_graph net)) (net_graph net)) in *.
    pose proof (remove_isolates_ok _ Hok) as Hok1. fold g1 in Hok1.
    destruct (largest_component_class g1 c Hok1 Hne Ec) as (Hc & Hndc & Hincl & Hcl & _).
    destruct (subgraph_class g1 c Hok1 Hndc Hincl Hcl) as (_ & R2 & _ & R4 & _ & R6).
    cbv zeta in R2, R4, R6.
    assert (Hnodes : forall n, In n (g_nodes (subgraph c g1)) ->
                               In n (g_nodes (net_graph net))
                               /\ degree (net_graph net) n <> 0%nat).
    { intros n Hin. apply R2, Hincl in Hin. apply remove_isolates_nodes. exact Hin. }
    exists G_largest, h', (subgraph c g1). split_and!.
    + exact Hrun.
    + exact Hr.
    + destruct c as [|x c']; [contradiction|].
      assert (Hx : In x (g_nodes (subgraph (x :: c') g1))) by (apply R2; left; reflexivity).
      intros E. rewrite E in Hx. destruct Hx.
    + intros n Hin. apply Hnodes in Hin. destruct Hin as [Hin _].
      rewrite Hn in Hin. apply first_occurrences_In in Hin. tauto.
    + intros e Hin. apply R4 in Hin. unfold g1 in Hin.
      rewrite remove_isolates_edges in Hin. exact Hin.
    + intros n Hin. rewrite (R6 n Hin). destruct (Hnodes n Hin) as [_ Hd].
      unfold degree, g1. rewrite remove_isolates_edges. exact Hd.
Qed.

(** * Where the link targets come from *)

Lemma star_run {A} p greedy (s : str) : forall i (k : nat -> str -> option A) a,
  star p greedy i s k = Some a ->
  exists n, (n <= List.length s)%nat
            /\ Forall (fun c => p c = true) (firstn n s)
            /\ k (i + n)%nat (skipn n s) = Some a.
Proof.
  induction s as [|x s IH]; intros i k a H; cbn [star] in H.
  - exists 0%nat. rewrite Nat.add_0_r. split_and!; [lia | constructor | exact H].
  - assert (Hk : k i (x :: s) = Some a ->
              exists n, (n <= List.length (x :: s))%nat
                        /\ Forall (fun c => p c = true) (firstn n (x :: s))
                        /\ k (i + n)%nat (skipn n (x :: s)) = Some a).
    { intros E. exists 0%nat. rewrite Nat.add_0_r.
      split_and!; [cbn; lia | constructor | exact E]. }
    assert (Hs : p x = true -> star p greedy (S i) s k = Some a ->
              exists n, (n <= List.length (x :: s))%nat
                        /\ Forall (fun c => p c = true) (firstn n (x :: s))
                        /\ k (i + n)%nat (skipn n (x :: s)) = Some a).
    { intros Hp E. destruct (IH _ _ _ E) as (n & Hn & Hf & Hkn).
      exists (S n). cbn [firstn skipn List.length].
      split_and!; [lia | constructor; assumption |].
      rewrite Nat.add_succ_r. exact Hkn. }
    destruct (p x) eqn:Ep; [|apply Hk, H].
    destruct greedy.
    + destruct (star p true (S i) s k) eqn:E; [apply Hs; congruence | apply Hk, H].
    + destruct (k i (x :: s)) eqn:E; [apply Hk; congruence | apply Hs; auto].
Qed.

Lemma rmatch_no_grp {A} ic r : forall i s g (k : nat -> str -> caps -> option A) a,
  no_grp r = true ->
  rmatch ic r i s g k = Some a ->
  exists n, (n <= List.length s)%nat /\ k (i + n)%nat (skipn n s) g = Some a.
Proof.
  induction r as [|c|cl| | |r1 IH1 r2 IH2|r1 IH1 r2 IH2|gr cl|m r IH];
    intros i s g k a Hg H; cbn [rmatch no_grp] in H, Hg.
  - exists 0%nat. rewrite Nat.add_0_r. split; [lia | exact H].
  - destruct s as [|x s]; [discriminate H|]. destruct (chr_eqb ic c x); [|discriminate H].
    exists 1%nat. rewrite Nat.add_1_r. split; [cbn; lia | exact H].
  - destruct s as [|x s]; [discriminate H|]. destruct (in_class ic cl x); [|discriminate H].
    exists 1%nat. rewrite Nat.add_1_r. split; [cbn; lia | exact H].
  - destruct (i =? 0)%nat; [|discriminate H].
    exists 0%nat. rewrite Nat.add_0_r. split; [lia | exact H].
  - exists 0%nat. rewrite Nat.add_0_r. split; [lia|]. cbn [skipn].
    destruct s as [|x [|y s]]; [exact H | | discriminate H].
    destruct (char_eqb x newline); [exact H | discriminate H].
  - apply andb_true_iff in Hg. destruct Hg as [Hg1 Hg2].
    apply IH1 in H; [|exact Hg1]. destruct H as (n1 & Hn1 & H).
    apply IH2 in H; [|exact Hg2]. destruct H as (n2 & Hn2 & H).
    exists (n1 + n2)%nat. rewrite length_skipn in Hn2. split; [lia|].
    rewrite skipn_skipn in H. rewrite Nat.add_assoc, (Nat.add_comm n1 n2). exact H.
  - apply andb_true_iff in Hg. destruct Hg as [Hg1 Hg2].
    destruct (rmatch ic r1 i s g k) eqn:E.
    + injection H as ->. apply IH1 in E; assumption.
    + apply IH2 in H; assumption.
  - apply star_inv in H. exact H.
  - discriminate Hg.
Qed.

Lemma grp_plus_inv {A} ic n cl greedy i s g (k : nat -> str -> caps -> option A) a :
  rmatch ic (Grp n (Plus greedy cl)) i s g k = Some a ->
  exists t rest,
    s = t ++ rest /\ t <> []
    /\ Forall (fun c => in_class ic cl c = true) t
    /\ k (i + List.length t)%nat rest ((n, t) :: g) = Some a.
Proof.
  unfold Plus. cbn [rmatch]. intros H.
  destruct s as [|x s]; [discriminate H|].
  destruct (in_class ic cl x) eqn:Ex; [|discriminate H].
  apply star_run in H. destruct H as (m & Hm & Hf & H).
  exists (x :: firstn m s), (skipn m s).
  assert (Hl : List.length (firstn m s) = m) by (apply firstn_length_le; exact Hm).
  split_and!.
  - cbn [app]. rewrite firstn_skipn. reflexivity.
  - discriminate.
  - constructor; assumption.
  - replace (S i + m - i)%nat with (S m) in H by lia. cbn [firstn List.length] in *.
    rewrite Hl. replace (i + S m)%nat with (S i + m)%nat by lia. exact H.
Qed.

Lemma target_ok_intro t :
  t <> [] -> Forall (fun c => in_class false (NoneOf "[]|") c = true) t ->
  target_ok t = true.
Proof.
  intros Hne H. unfold target_ok. apply andb_true_iff. split.
  - destruct t; [contradiction | reflexivity].
  - apply forallb_forall. intros c Hc. rewrite List.Forall_forall in H.
    specialize (H c Hc). cbn [in_class chr_eqb] in H.
    rewrite existsb_eqb_sym in H. exact H.
Qed.

Lemma link_match_inv i s adv m :
  match_at false Pat.link i s adv = Some m ->
  exists t rest,
    s = "[[" ++ t ++ rest /\ target_ok t = true /\ m_caps m = [(1%nat, t)].
Proof.
  unfold match_at, Pat.link.
  set (kf := fun (i' : nat) (s' : str) (g' : caps) =>
               if adv && (i' =? i)%nat then None
               else Some {| m_text := firstn (i' - i) s; m_rest := s'; m_caps := g' |}).
  set (tail := (Opt (Chr "|" ⋅ Plus true (NoneOf "[]")) ⋅ Lit "]]")%re).
  change (rmatch false
            (Lit "[[" ⋅ Grp 1 (Plus false (NoneOf "[]|"))
             ⋅ Opt (Chr "|" ⋅ Plus true (NoneOf "[]")) ⋅ Lit "]]")%re i s [] kf)
    with (rmatch false (Lit "[[") i s []
            (fun i1 s1 g1 =>
               rmatch false (Grp 1 (Plus false (NoneOf "[]|"))) i1 s1 g1
                 (fun i2 s2 g2 => rmatch false tail i2 s2 g2 kf))).
  set (k1 := fun (i1 : nat) (s1 : str) (g1 : caps) =>
               rmatch false (Grp 1 (Plus false (NoneOf "[]|"))) i1 s1 g1
                 (fun i2 s2 g2 => rmatch false tail i2 s2 g2 kf)).
  cbn [rmatch Lit str_of_string chr_eqb]. intros H.
  destruct s as [|a s]; [discriminate H|].
  destruct (char_eqb_spec "[" a) as [<- | _]; [|discriminate H].
  destruct s as [|b s]; [discriminate H|].
  destruct (char_eqb_spec "[" b) as [<- | _]; [|discriminate H].
  unfold k1 in H. apply grp_plus_inv in H.
  destruct H as (t & rest & -> & Hne & Hf & H).
  apply rmatch_no_grp in H; [|reflexivity]. destruct H as (n & _ & H).
  unfold kf in H. destruct (adv && _); [discriminate H|]. injection H as <-.
  exists t, rest. split_and!; [reflexivity | apply target_ok_intro; assumption | reflexivity].
Qed.

(** Every match the scan loop collects was found at a suffix of the text. *)
Lemma scan_pieces ic r : forall fuel i s adv ms tl,
  scan fuel ic r i s adv = (ms, tl) ->
  Forall (fun pm => exists j s' adv' before,
            match_at ic r j s' adv' = Some (snd pm) /\ s = before ++ s') ms.
Proof.
  induction fuel as [|fuel IH]; intros i s adv ms tl H; cbn [scan] in H.
  - injection H as <- <-. constructor.
  - destruct (search_from ic r i s adv) as [[pre m]|] eqn:E;
      [|injection H as <- <-; constructor].
    destruct (scan fuel ic r _ (m_rest m) _) as [ms' tl'] eqn:E'.
    injection H as <- <-.
    pose proof (search_from_inv (fun _ => True) ic r s i adv pre m (Forall_True s) E)
      as (Hs & _ & _).
    constructor.
    + destruct (search_from_match _ _ _ _ _ _ _ E) as (adv' & Hm).
      exists (i + List.length pre)%nat, (skipn (List.length pre) s), adv',
        (firstn (List.length pre) s).
      split; [exact Hm | symmetry; apply firstn_skipn].
    + apply IH in E'. eapply List.Forall_impl; [|exact E'].
      intros pm (j & s' & adv' & before & Hm & Hr).
      exists j, s', adv', (pre ++ m_text m ++ before). split; [exact Hm|].
      rewrite Hs at 1. rewrite Hr, <- !app_assoc. reflexivity.
Qed.

Lemma contains_suffix p before s : startswith p s = true -> contains p (before ++ s) = true.
Proof.
  intros H. induction before as [|x before IH]; cbn [app].
  - destruct s; cbn [contains]; rewrite H; reflexivity.
  - cbn [contains]. rewrite IH. apply orb_true_r.
Qed.

Lemma startswith_prefix p q s : startswith (p ++ q) s = true -> startswith p s = true.
Proof.
  revert s. induction p as [|a p IH]; intros s H; [destruct s; reflexivity|].
  destruct s as [|b s]; [discriminate H|]. cbn [app startswith] in *.
  apply andb_true_iff in H. destruct H as [-> H]. exact (IH s H).
Qed.

Lemma contains_prefix p q s : contains (p ++ q) s = true -> contains p s = true.
Proof.
  induction s as [|x s IH]; cbn [contains]; intros H.
  - rewrite orb_false_r in *. eapply startswith_prefix. exact H.
  - apply orb_true_iff in H. destruct H as [H | H].
    + rewrite (startswith_prefix _ _ _ H). reflexivity.
    + rewrite (IH H). apply orb_true_r.
Qed.

Lemma clean_link_ok (P : char -> Prop) m l :
  Forall P m -> clean_link m = Some l -> Forall P l.
Proof.
  unfold clean_link. intros Hm H.
  destruct (is_nil _); [discriminate H|]. injection H as <-.
  apply strip_ok.
  destruct (split_char_head "#" m) as (w & ws & -> & t & Em & _). cbn [hd].
  rewrite Em in Hm. apply Forall_app in Hm. tauto.
Qed.

Lemma extract_wiki_links_source text l :
  In l (extract_wiki_links text) ->
  exists t, target_ok t = true /\ clean_link t = Some l
            /\ contains ("[[" ++ t) text = true.
Proof.
  unfold extract_wiki_links, re_findall, matches. intros H.
  destruct (scan _ false Pat.link 0 text false) as [ms tl] eqn:E.
  apply scan_pieces in E.
  apply list_elem_of_In, list_elem_of_omap in H. destruct H as (c & Hc & Hl).
  apply list_elem_of_In, in_map_iff in Hc. destruct Hc as (pm & <- & Hpm).
  rewrite List.Forall_forall in E.
  destruct (E pm Hpm) as (j & s' & adv' & before & Hm & ->).
  apply link_match_inv in Hm. destruct Hm as (t & rest & -> & Ht & Hcaps).
  rewrite Hcaps in Hl. cbn [group Nat.eqb] in Hl.
  exists t. split_and!; [exact Ht | exact Hl |].
  apply contains_suffix. rewrite app_assoc. apply startswith_self.
Qed.

(** X19: every string [extract_wiki_links] returns comes from a link of the
    text: the text holds two opening brackets followed by a target without
    brackets and bars, and the string is that target cut at the first [#]
    and stripped.  So no returned string holds a bracket or a bar, and a
    text without two opening brackets in a row has no links. *)
Theorem extract_wiki_links_provenance (text : str) :
  (forall l, In l (extract_wiki_links text) ->
     exists t, target_ok t = true /\ clean_link t = Some l
               /\ contains ("[[" ++ t) text = true)
  /\ Forall (fun l => Forall (fun c => ~ In c (str_of_string "[]|")) l)
       (extract_wiki_links text)
  /\ (contains "[[" text = false -> extract_wiki_links text = []).
Proof.
  split_and!.
  - intros l. apply extract_wiki_links_source.
  - apply List.Forall_forall. intros l Hl.
    apply extract_wiki_links_source in Hl. destruct Hl as (t & Ht & Hc & _).
    apply (clean_link_ok _ t l); [|exact Hc].
    unfold target_ok in Ht. apply andb_true_iff in Ht. destruct Ht as [_ Ht].
    rewrite forallb_forall in Ht. apply List.Forall_forall. intros c Hc' Hin.
    specialize (Ht c Hc'). apply negb_true_iff in Ht.
    assert (E : existsb (char_eqb c) (str_of_string "[]|") = true).
    { apply existsb_exists. exists c. split; [exact Hin | apply char_eqb_refl]. }
    congruence.
  - intros Hn. destruct (extract_wiki_links text) as [|l ls] eqn:E; [reflexivity|].
    assert (Hl : In l (extract_wiki_links text)) by (rewrite E; left; reflexivity).
    apply extract_wiki_links_source in Hl. destruct Hl as (t & _ & _ & Hc).
    apply contains_prefix in Hc. congruence.
Qed.

(** * The edges of the network *)

Section Edges.

Variable artist_list : list str.

Lemma add_link_target source_artist st link :
  add_link artist_list source_artist st link
  = match link_target artist_list link with
    | Some target => (fst st ++ [target], add_edge source_artist target (snd st))
    | None => st
    end.
Proof.
  unfold add_link, link_target. destruct (mem link artist_list); [reflexivity|].
  destruct (mem (replace_char "_" " " link) artist_list); reflexivity.
Qed.

Lemma link_target_known link v : link_target artist_list link = Some v -> In v artist_list.
Proof.
  unfold link_target. destruct (mem link artist_list) eqn:E1.
  - intros [= <-]. apply mem_In. exact E1.
  - destruct (mem (replace_char "_" " " link) artist_list) eqn:E2; [|discriminate].
    intros [= <-]. apply mem_In. exact E2.
Qed.

Lemma add_edge_edges u v g e :
  graph_inv artist_list g -> In u artist_list -> In v artist_list ->
  In e (g_edges (add_edge u v g)) <-> In e (g_edges g) \/ e = (u, v).
Proof.
  intros (Hn & _ & _) Hu Hv.
  destruct (add_edge_known u v g (node_known artist_list u g Hn Hu)
              (node_known artist_list v g Hn Hv)) as (_ & _ & H3 & H4).
  destruct H4 as [E | [_ E]]; rewrite E in *.
  - split; [auto|]. intros [H | ->]; assumption.
  - rewrite in_app_iff. cbn [In]. split; intros [H | H]; auto.
    destruct H as [<- | []]. right. reflexivity.
Qed.

Lemma fold_add_link_edges source_artist links : forall st,
  In source_artist artist_list ->
  graph_inv artist_list (snd st) ->
  let st' := fold_left (add_link artist_list source_artist) links st in
  graph_inv artist_list (snd st')
  /\ fst st' = fst st ++ omap (link_target artist_list) links
  /\ forall e, In e (g_edges (snd st'))
               <-> In e (g_edges (snd st))
                   \/ exists link v, In link links
                                     /\ link_target artist_list link = Some v
                                     /\ e = (source_artist, v).
Proof.
  induction links as [|link links IH]; intros st Hs Hg; cbv zeta; cbn [fold_left].
  - split_and!; [exact Hg | cbn; rewrite app_nil_r; reflexivity |].
    intros e. split; [auto|]. intros [H | (l & v & [] & _)]. exact H.
  - rewrite add_link_target.
    destruct (link_target artist_list link) as [t|] eqn:Et.
    + pose proof (link_target_known _ _ Et) as Ht.
      destruct (add_edge_inv artist_list source_artist t (snd st) Hg Hs Ht) as (Hg' & _).
      destruct (IH (fst st ++ [t], add_edge source_artist t (snd st)) Hs Hg')
        as (H1 & H2 & H3).
      cbv zeta in H1, H2, H3. cbn [fst snd] in H1, H2, H3.
      split_and!; [exact H1 | |].
      * rewrite H2. cbn [omap list_omap]. rewrite Et, <- app_assoc. reflexivity.
      * intros e. rewrite H3, (add_edge_edges _ _ _ e Hg Hs Ht). split.
        -- intros [[H | ->] | (l & v & Hl & Hv & ->)]; [left; exact H | right | right].
           ++ exists link, t. split_and!; auto. left. reflexivity.
           ++ exists l, v. split_and!; auto. right. exact Hl.
        -- intros [H | (l & v & [<- | Hl] & Hv & ->)]; [left; left; exact H | |].
           ++ left. right. congruence.
           ++ right. exists l, v. auto.
    + destruct (IH st Hs Hg) as (H1 & H2 & H3). cbv zeta in H1, H2, H3.
      split_and!; [exact H1 | |].
      * rewrite H2. cbn [omap list_omap]. rewrite Et. reflexivity.
      * intros e. rewrite H3. split.
        -- intros [H | (l & v & Hl & Hv & ->)]; [left; exact H | right].
           exists l, v. split_and!; auto. right. exact Hl.
        -- intros [H | (l & v & [<- | Hl] & Hv & ->)]; [left; exact H | congruence |].
           right. exists l, v. auto.
Qed.

Lemma add_page_edges net page net' :
  network_inv artist_list net ->
  add_page artist_list (artist_variations_of artist_list) net page = Some net' ->
  network_inv artist_list net'
  /\ forall u v, In (u, v) (g_edges (net_graph net'))
                 <-> In (u, v) (g_edges (net_graph net))
                     \/ (source_artist_of (artist_variations_of artist_list) (fst page)
                         = Some u
                         /\ u <> []
                         /\ exists link, In link (extract_wiki_links (snd page))
                                         /\ link_target artist_list link = Some v).
Proof.
  intros Hinv H.
  destruct (add_page_inv artist_list net page Hinv) as (net'' & E & Hinv').
  rewrite H in E. injection E as <-. split; [exact Hinv'|].
  clear Hinv'. destruct Hinv as (Hg & _ & _). unfold add_page in H.
  destruct (source_artist_of _ (fst page)) as [a|] eqn:Ea.
  - destruct (is_nil a) eqn:En.
    + injection H as <-. intros u v. split; [auto|].
      intros [Hin | ([= <-] & Hne & _)]; [exact Hin|].
      destruct a; [contradiction | discriminate En].
    + pose proof (source_artist_known _ _ _ Ea) as Hin.
      destruct (fold_add_link_edges a (extract_wiki_links (snd page)) ([], net_graph net)
                  Hin Hg) as (H1 & _ & H3).
      cbv zeta in H1, H3.
      destruct (fold_left _ _ _) as [artist_links G]. cbn [fst snd] in *.
      unfold set_word_count in H. destruct (mem a (g_nodes G)); [|discriminate H].
      injection H as <-. cbn [net_graph g_edges]. intros u v. rewrite H3. split.
      * intros [Hi | (l & w & Hl & Hw & [= -> ->])]; [left; exact Hi | right].
        split_and!; [reflexivity | intros ->; discriminate En | eauto].
      * intros [Hi | ([= <-] & _ & l & Hl & Hw)]; [left; exact Hi | right].
        exists l, v. auto.
  - injection H as <-. intros u v. split; [auto|].
    intros [Hin | (Hd & _)]; [exact Hin | discriminate Hd].
Qed.

Lemma add_pages_edges pages : forall net net',
  network_inv artist_list net ->
  add_pages artist_list (artist_variations_of artist_list) net pages = Some net' ->
  forall u v, In (u, v) (g_edges (net_graph net'))
              <-> In (u, v) (g_edges (net_graph net))
                  \/ exists page link,
                       In page pages
                       /\ source_artist_of (artist_variations_of artist_list) (fst page)
                          = Some u
                       /\ u <> []
                       /\ In link (extract_wiki_links (snd page))
                       /\ link_target artist_list link = Some v.
Proof.
  induction pages as [|page pages IH]; intros net net' Hinv H u v; cbn [add_pages] in H.
  - injection H as <-. split; [auto|]. intros [Hin | (p & l & [] & _)]. exact Hin.
  - destruct (add_page artist_list _ net page) as [net1|] eqn:E1; [|discriminate H].
    destruct (add_page_edges net page net1 Hinv E1) as (Hinv1 & H1).
    rewrite (IH net1 net' Hinv1 H u v), H1. split.
    + intros [[Hin | (Hs & Hne & l & Hl & Ht)] | (p & l & Hp & Hs & Hne & Hl & Ht)].
      * left. exact Hin.
      * right. exists page, l. split_and!; auto. left. reflexivity.
      * right. exists p, l. split_and!; auto. right. exact Hp.
    + intros [Hin | (p & l & [<- | Hp] & Hs & Hne & Hl & Ht)].
      * left. left. exact Hin.
      * left. right. split_and!; eauto.
      * right. exists p, l. split_and!; auto.
Qed.

(** X20: the edges of the network are exactly the links between listed
    artists: there is an edge from [u] to [v] when, and only when, some page
    is mapped to the artist [u] and holds a link whose target, as it stands
    or with spaces for its underscores, is the listed artist [v].  A page
    that links to its own artist gives a loop. *)
Theorem build_artist_network_edges (wiki_data : list (str * str)) :
  exists net,
    build_artist_network artist_list wiki_data = Some net
    /\ forall u v,
         In (u, v) (g_edges (net_graph net))
         <-> exists page link,
               In page wiki_data
               /\ source_artist_of (artist_variations_of artist_list) (fst page) = Some u
               /\ u <> []
               /\ In link (extract_wiki_links (snd page))
               /\ link_target artist_list link = Some v.
Proof.
  unfold build_artist_network.
  set (g0 := {| g_nodes := []; g_edges := []; g_word_count := ∅ |}).
  destruct (fold_add_node artist_list g0) as (N1 & N2 & N3).
  cbn [g0 g_nodes g_edges g_word_count app] in N1, N2, N3.
  set (net0 := {| net_graph :=
                    fold_left (fun g artist => add_node artist g) artist_list g0;
                  links_found := ∅ |}).
  assert (Hinv : network_inv artist_list net0).
  { unfold network_inv, graph_inv. cbn [net0 net_graph links_found].
    rewrite N1, N2, N3. split_and!.
    - reflexivity.
    - constructor.
    - constructor.
    - intros a links H. rewrite lookup_empty in H. discriminate H.
    - rewrite !dom_empty_L. reflexivity. }
  destruct (add_pages_inv artist_list wiki_data net0 Hinv) as (net & Hnet & _).
  exists net. split; [exact Hnet|]. intros u v.
  rewrite (add_pages_edges wiki_data net0 net Hinv Hnet u v).
  cbn [net0 net_graph]. rewrite N2. cbn [In]. tauto.
Qed.

End Edges.

(** * The mapping that the batch returns *)

Lemma run_batch_keys files : forall k v,
  artist_genres (run_batch files) !! k = Some v ->
  exists name, In name (List.map fst files) /\ extract_artist_name_from_filename name = k.
Proof.
  induction files as [|f files IH] using rev_ind; intros k v.
  - cbn. rewrite lookup_empty. discriminate.
  - rewrite run_batch_snoc, List.map_app.
    assert (Hold : artist_genres (run_batch files) !! k = Some v ->
                   exists name, In name (List.map fst files ++ List.map fst [f])
                                /\ extract_artist_name_from_filename name = k).
    { intros H. destruct (IH k v H) as (name & Hin & E).
      exists name. split; [apply in_app_iff; left; exact Hin | exact E]. }
    destruct (process_file_cases (run_batch files) f)
      as [(_ & content & gs & _ & _ & ->) | (_ & ->)]; cbn [artist_genres]; [|exact Hold].
    destruct (decide (extract_artist_name_from_filename (fst f) = k)) as [E | Hne].
    + intros _. exists (fst f). split; [|exact E].
      apply in_app_iff. right. left. reflexivity.
    + rewrite lookup_insert_ne by exact Hne. exact Hold.
Qed.

Lemma extract_genres_parsed text genres :
  extract_genres_from_infobox text = Some genres ->
  genres <> [] /\ exists field_text, genres = parse_genre_field field_text.
Proof.
  intros H. split; [intros ->; exact (extract_genres_nonempty text H)|].
  unfold extract_genres_from_infobox in H.
  destruct (infobox_text text) as [infobox|]; [|discriminate H].
  destruct (is_nil (genre_field_lines infobox)); [discriminate H|].
  destruct (is_nil (parse_genre_field _)); [discriminate H|].
  injection H as <-. eauto.
Qed.

(** X21: every entry of the mapping [process_wiki_files] returns has a key
    without underscore and without white space at its ends, drawn from the
    name of one of the files, and a list of genres that is not empty and
    repeats nothing; each genre has at least two characters, is in lower
    case, stripped, with single spaces between its words, is no skip term
    and holds no full stop, bracket, brace or quote. *)
Theorem process_wiki_files_output (txt_files : list file) (artist : str)
    (genres : list str) :
  process_wiki_files txt_files !! artist = Some genres ->
  (exists name, In name (List.map fst txt_files)
                /\ extract_artist_name_from_filename name = artist)
  /\ ~ In (ch "_") artist /\ strip artist = artist
  /\ genres <> [] /\ List.NoDup genres
  /\ Forall (fun g =>
       (2 <= List.length g)%nat /\ lower g = g /\ strip g = g
       /\ join " " (words g) = g /\ ~ In g skip_terms /\ ~ In (ch ".") g
       /\ Forall (fun c => ~ In c markup_chars) g) genres.
Proof.
  rewrite process_wiki_files_run. intros H.
  destruct (run_batch_keys _ _ _ H) as (name & Hin & <-).
  split; [eauto|].
  split; [apply artist_name_no_underscore|].
  split; [apply artist_name_stripped|].
  revert H. generalize (extract_artist_name_from_filename name). intros k H.
  revert k genres H. apply run_batch_values. intros text genres H.
  destruct (extract_genres_parsed text genres H) as (Hne & field_text & ->).
  split; [exact Hne|].
  destruct (parse_genre_field_canonical field_text) as [Hnd Hcan].
  split; [exact Hnd|].
  apply List.Forall_forall. intros g Hg.
  rewrite List.Forall_forall in Hcan. destruct (Hcan g Hg) as (_ & Hlow & Hskip).
  apply parse_genre_field_entry in Hg. destruct Hg as (Hk & raw & E).
  destruct (keep_entry g Hk) as (H1 & H2 & _ & _).
  destruct (clean_label_form raw) as (H5 & H6 & H7).
  rewrite <- E in H5, H6, H7.
  split_and!; assumption.
Qed.

Lemma process_wiki_files_output_witness :
  ~ In (ch "_") (str_of_string "The Clash")
  /\ strip "The Clash" = ("The Clash" : str).
Proof.
  destruct (process_wiki_files_output
              [ ("The_Clash.txt" : str, Some the_clash_document) ]
              "The Clash" [ "punk rock" : str; "rock and roll" : str ])
    as (_ & H1 & H2 & _).
  - vm_compute. reflexivity.
  - split; assumption.
Defined.

(** * Fields that are plain lists of labels *)

Lemma simple_field_spec s : simple_field s = true -> no_markup s.
Proof.
  unfold simple_field, no_markup. rewrite forallb_forall, List.Forall_forall.
  intros H c Hc Hin. specialize (H c Hc). apply negb_true_iff in H.
  assert (E : existsb (char_eqb c) field_markup = true).
  { apply existsb_exists. exists c. split; [exact Hin | apply char_eqb_refl]. }
  congruence.
Qed.

Lemma comment_simple i s adv : no_markup s -> match_at false Pat.comment i s adv = None.
Proof. revert i s adv. starts_with_markup Pat.comment. Qed.

Lemma ref_pair_simple i s adv : no_markup s -> match_at false Pat.ref_pair i s adv = None.
Proof. revert i s adv. starts_with_markup Pat.ref_pair. Qed.

Lemma ref_self_simple i s adv : no_markup s -> match_at false Pat.ref_self i s adv = None.
Proof. revert i s adv. starts_with_markup Pat.ref_self. Qed.

Lemma template_head_simple i s adv :
  no_markup s -> match_at false Pat.template_head i s adv = None.
Proof. revert i s adv. starts_with_markup Pat.template_head. Qed.

Lemma template_tail_simple i s adv :
  no_markup s -> match_at false Pat.template_tail i s adv = None.
Proof. revert i s adv. starts_with_markup Pat.template_tail. Qed.

Lemma re_fold_angle x : re_fold x = ch "<" -> x = ch "<".
Proof. change (ch "<") with 60%N. re_fold_cases; lia. Qed.

Lemma nowrap_simple i s adv : no_markup s -> match_at true Pat.nowrap i s adv = None.
Proof.
  intros Hs. unfold match_at, Pat.nowrap.
  cbn [rmatch Lit str_of_string chr_eqb].
  destruct s as [|x s]; [reflexivity|].
  change (re_fold "{") with (ch "{").
  destruct (char_eqb_spec "{" (re_fold x)) as [E | _]; [|reflexivity].
  symmetry in E. apply re_fold_brace in E. subst x. absurd_markup.
Qed.

Lemma list_template_simple i s adv :
  no_markup s -> match_at true Pat.list_template i s adv = None.
Proof.
  intros Hs. unfold match_at, Pat.list_template.
  cbn [rmatch Lit str_of_string chr_eqb].
  destruct s as [|x s]; [reflexivity|].
  change (re_fold "{") with (ch "{").
  destruct (char_eqb_spec "{" (re_fold x)) as [E | _]; [|reflexivity].
  symmetry in E. apply re_fold_brace in E. subst x. absurd_markup.
Qed.

Lemma br_simple i s adv : no_markup s -> match_at true Pat.br i s adv = None.
Proof.
  intros Hs. unfold match_at, Pat.br.
  cbn [rmatch Lit str_of_string chr_eqb].
  destruct s as [|x s]; [reflexivity|].
  change (re_fold "<") with (ch "<").
  destruct (char_eqb_spec "<" (re_fold x)) as [E | _]; [|reflexivity].
  symmetry in E. apply re_fold_angle in E. subst x. absurd_markup.
Qed.

Lemma re_sub_simple ic r t s :
  (forall i s adv, no_markup s -> match_at ic r i s adv = None) ->
  no_markup s -> re_sub ic r t s = s.
Proof.
  intros Hm Hs.
  apply (re_sub_clean ic r t (fun c => In c field_markup)); [exact Hm | exact Hs].
Qed.

Lemma prepare_simple s : no_markup s -> prepare s = s.
Proof.
  intros Hs. unfold prepare.
  rewrite (re_sub_simple false Pat.comment [] s) by (auto using comment_simple).
  rewrite (re_sub_simple false Pat.ref_pair [] s) by (auto using ref_pair_simple).
  rewrite (re_sub_simple false Pat.ref_self [] s) by (auto using ref_self_simple).
  rewrite (re_sub_simple false Pat.template_head [] s) by (auto using template_head_simple).
  rewrite (re_sub_simple false Pat.template_tail [] s) by (auto using template_tail_simple).
  apply re_sub_simple; auto using nowrap_simple.
Qed.

Lemma is_list_template_simple s : no_markup s -> is_list_template s = false.
Proof.
  intros Hs. unfold is_list_template, re_search.
  rewrite (search_from_none true Pat.list_template (fun c => In c field_markup));
    [reflexivity | | exact Hs].
  intros i s' adv. apply list_template_simple.
Qed.

Lemma re_split_skip ic r c s :
  bol_free r = true -> match_at ic r 0 (c :: s) false = None ->
  re_split ic r (c :: s)
  = match re_split ic r s with
    | w :: ws => (c :: w) :: ws
    | [] => [[c]]
    end.
Proof.
  intros Hb Hm. unfold re_split. rewrite (matches_skip ic r c s Hb Hm).
  destruct (matches ic r s) as [ms tl]. cbn [fst snd].
  destruct ms as [|pm ms]; reflexivity.
Qed.

Lemma re_split_step ic r s pre m :
  bol_free r = true ->
  search_from ic r 0 s false = Some (pre, m) -> m_text m <> [] ->
  re_split ic r s = pre :: re_split ic r (m_rest m).
Proof.
  intros Hb Hs Hne. unfold re_split. rewrite (matches_step ic r s pre m Hb Hs Hne).
  destruct (matches ic r (m_rest m)) as [ms tl]. reflexivity.
Qed.

Lemma delims_here x s :
  is_delim x = true ->
  match_at false Pat.delims 0 (x :: s) false
  = Some {| m_text := [x]; m_rest := s; m_caps := [] |}.
Proof.
  intros H. unfold match_at, Pat.delims. cbn [rmatch in_class chr_eqb].
  unfold is_delim in H. rewrite <- existsb_eqb_sym in H. rewrite H. reflexivity.
Qed.

Lemma delims_not_here x s :
  is_delim x = false -> ~ In x field_markup ->
  match_at false Pat.delims 0 (x :: s) false = None.
Proof.
  intros H Hx. unfold match_at, Pat.delims.
  cbn [rmatch in_class chr_eqb Lit str_of_string].
  unfold is_delim in H. rewrite <- existsb_eqb_sym in H. rewrite H. reflexivity.
Qed.

Lemma re_split_delims s :
  no_markup s -> re_split false Pat.delims s = split_where is_delim s.
Proof.
  induction 1 as [|x s Hx Hs IH].
  - reflexivity.
  - cbn [split_where]. destruct (is_delim x) eqn:E.
    + rewrite (re_split_step false Pat.delims (x :: s) []
                 {| m_text := [x]; m_rest := s; m_caps := [] |}).
      * cbn [m_rest]. rewrite IH. reflexivity.
      * reflexivity.
      * apply search_here. apply delims_here. exact E.
      * discriminate.
    + rewrite re_split_skip; [rewrite IH; reflexivity | reflexivity |].
      apply delims_not_here; assumption.
Qed.

Lemma split_where_ok (P : char -> Prop) p s :
  Forall P s -> Forall (Forall P) (split_where p s).
Proof.
  induction 1 as [|x s Hx Hs IH]; cbn [split_where]; [repeat constructor|].
  destruct (p x); [constructor; [constructor | exact IH]|].
  destruct (split_where p s) as [|w ws]; [repeat constructor; assumption|].
  inversion IH; subst. constructor; [constructor; assumption | assumption].
Qed.

Lemma contains_head c p s : contains (c :: p) s = true -> In c s.
Proof.
  induction s as [|x s IH]; cbn [contains startswith]; [discriminate|].
  intros H. apply orb_true_iff in H. destruct H as [H | H].
  - apply andb_true_iff in H. destruct H as [H _]. apply char_eqb_eq in H.
    left. symmetry. exact H.
  - right. exact (IH H).
Qed.

Lemma startswith_head c p s : startswith (c :: p) s = true -> In c s.
Proof.
  destruct s as [|x s]; cbn [startswith]; [discriminate|]. intros H.
  apply andb_true_iff in H. destruct H as [H _]. apply char_eqb_eq in H.
  left. symmetry. exact H.
Qed.

Lemma plain_item_simple piece :
  no_markup piece ->
  plain_item piece = if is_nil (strip piece) then None else Some (strip piece).
Proof.
  intros Hs. unfold plain_item.
  assert (Hst : no_markup (strip piece)) by (apply strip_ok; exact Hs).
  unfold no_markup in Hst. rewrite List.Forall_forall in Hst.
  assert (Hno : forall c p, In c field_markup -> contains (c :: p) (strip piece) = false).
  { intros c p Hc. destruct (contains (c :: p) (strip piece)) eqn:E; [|reflexivity].
    apply contains_head in E. exfalso. exact (Hst c E Hc). }
  assert (Hns : forall c p, In c field_markup -> startswith (c :: p) (strip piece) = false).
  { intros c p Hc. destruct (startswith (c :: p) (strip piece)) eqn:E; [|reflexivity].
    apply startswith_head in E. exfalso. exact (Hst c E Hc). }
  change (str_of_string "[[") with ((ch "[") :: str_of_string "[").
  rewrite Hno by (vm_compute; tauto).
  change (str_of_string "{{") with ((ch "{") :: str_of_string "{").
  change (str_of_string "<!--") with ((ch "<") :: str_of_string "!--").
  change (str_of_string "<ref") with ((ch "<") :: str_of_string "ref").
  rewrite !Hns by (vm_compute; tauto).
  rewrite !orb_false_r. reflexivity.
Qed.

Lemma omap_plain_items pieces :
  Forall no_markup pieces ->
  omap plain_item pieces
  = List.filter (fun a => negb (is_nil a)) (List.map strip pieces).
Proof.
  induction 1 as [|p ps Hp Hps IH]; [reflexivity|].
  cbn [omap list_omap List.map List.filter]. rewrite (plain_item_simple p Hp).
  fold (omap plain_item ps). rewrite IH.
  destruct (is_nil (strip p)); reflexivity.
Qed.

Lemma raw_genres_simple s : no_markup s -> raw_genres s = plain_labels s.
Proof.
  intros Hs. unfold raw_genres. rewrite (prepare_simple s Hs).
  rewrite (is_list_template_simple s Hs). unfold plain_branch.
  rewrite (re_sub_simple true Pat.br _ s) by (auto using br_simple).
  rewrite (re_split_delims s Hs). unfold plain_labels.
  apply omap_plain_items. apply split_where_ok. exact Hs.
Qed.

(** X22: a field without tags, braces and opening brackets is read as a
    plain list: the raw labels are the pieces between the delimiters (comma,
    semicolon, slash, newline, bullet, middle dot and bar), stripped, the
    blank pieces left out, and the result holds the normalized labels that
    pass the filter, each at its first occurrence. *)
Theorem parse_plain_field (field_text : str) :
  simple_field field_text = true ->
  raw_genres field_text = plain_labels field_text
  /\ parse_genre_field field_text
     = first_occurrences []
         (List.filter keep (List.map clean_label (plain_labels field_text))).
Proof.
  intros H. apply simple_field_spec in H.
  split; [apply raw_genres_simple; exact H|].
  rewrite parse_genre_field_candidates, (raw_genres_simple _ H). reflexivity.
Qed.

Lemma parse_plain_field_witness :
  parse_genre_field "Punk rock, Ska; New wave"
  = first_occurrences []
      (List.filter keep
         (List.map clean_label (plain_labels "Punk rock, Ska; New wave"))).
Proof. apply (parse_plain_field "Punk rock, Ska; New wave"). reflexivity. Defined.

(** * What is recorded for a page *)

Section Pages.

Variable artist_list : list str.

Lemma add_page_record net page net' :
  network_inv artist_list net ->
  add_page artist_list (artist_variations_of artist_list) net page = Some net' ->
  forall a,
    (source_artist_of (artist_variations_of artist_list) (fst page) = Some a -> a <> [] ->
     links_found net' !! a
     = Some (omap (link_target artist_list) (extract_wiki_links (snd page)))
     /\ g_word_count (net_graph net') !! a = Some (List.length (words (snd page))))
    /\ (source_artist_of (artist_variations_of artist_list) (fst page) <> Some a ->
        links_found net' !! a = links_found net !! a
        /\ g_word_count (net_graph net') !! a = g_word_count (net_graph net) !! a).
Proof.
  intros (Hg & _ & _) H a. unfold add_page in H.
  destruct (source_artist_of _ (fst page)) as [b|] eqn:Eb.
  - destruct (is_nil b) eqn:En.
    + injection H as <-. split; [|auto].
      intros [= ->] Hne. destruct a; [contradiction | discriminate En].
    + pose proof (source_artist_known _ _ _ Eb) as Hin.
      destruct (fold_add_link_edges artist_list b (extract_wiki_links (snd page))
                  ([], net_graph net) Hin Hg) as (_ & H2 & _).
      destruct (fold_add_link_inv artist_list b (extract_wiki_links (snd page))
                  ([], net_graph net) Hin Hg ltac:(constructor)) as (_ & H3 & _).
      cbv zeta in H2, H3.
      destruct (fold_left _ _ _) as [artist_links G]. cbn [fst snd app] in *.
      unfold set_word_count in H. destruct (mem b (g_nodes G)); [|discriminate H].
      injection H as <-. cbn [net_graph links_found g_word_count]. split.
      * intros [= ->] _. rewrite !lookup_insert_eq, H2. auto.
      * intros Hne. rewrite !lookup_insert_ne by congruence. rewrite H3. auto.
  - injection H as <-. split; [discriminate | auto].
Qed.

Lemma add_pages_other pages : forall net net' a,
  network_inv artist_list net ->
  add_pages artist_list (artist_variations_of artist_list) net pages = Some net' ->
  Forall (fun p => source_artist_of (artist_variations_of artist_list) (fst p) <> Some a)
    pages ->
  links_found net' !! a = links_found net !! a
  /\ g_word_count (net_graph net') !! a = g_word_count (net_graph net) !! a.
Proof.
  induction pages as [|page pages IH]; intros net net' a Hinv H Hp; cbn [add_pages] in H.
  - injection H as <-. auto.
  - destruct (add_page artist_list _ net page) as [net1|] eqn:E1; [|discriminate H].
    inversion Hp as [|? ? Hp1 Hp2]; subst.
    destruct (add_page_edges artist_list net page net1 Hinv E1) as (Hinv1 & _).
    destruct (add_page_record net page net1 Hinv E1 a) as (_ & Hsame).
    destruct (Hsame Hp1) as (S1 & S2).
    destruct (IH net1 net' a Hinv1 H Hp2) as (T1 & T2).
    split; [exact (eq_trans T1 S1) | exact (eq_trans T2 S2)].
Qed.

Lemma add_pages_split pre : forall net net' post,
  network_inv artist_list net ->
  add_pages artist_list (artist_variations_of artist_list) net (pre ++ post) = Some net' ->
  exists net1,
    add_pages artist_list (artist_variations_of artist_list) net pre = Some net1
    /\ network_inv artist_list net1
    /\ add_pages artist_list (artist_variations_of artist_list) net1 post = Some net'.
Proof.
  induction pre as [|page pre IH]; intros net net' post Hinv H; cbn [app add_pages] in *.
  - exists net. auto.
  - destruct (add_page artist_list _ net page) as [net1|] eqn:E1; [|discriminate H].
    destruct (add_page_edges artist_list net page net1 Hinv E1) as (Hinv1 & _).
    exact (IH net1 net' post Hinv1 H).
Qed.

(** X23: for an artist, [links_found] and the word count hold what the last
    page mapped to that artist gives: the targets of its links to listed
    artists, in the order of the page and with their repetitions, and the
    number of its words. *)
Theorem build_artist_network_records (wiki_data : list (str * str)) :
  exists net,
    build_artist_network artist_list wiki_data = Some net
    /\ forall pre page post a,
         wiki_data = pre ++ page :: post ->
         source_artist_of (artist_variations_of artist_list) (fst page) = Some a ->
         a <> [] ->
         Forall (fun p => source_artist_of (artist_variations_of artist_list) (fst p)
                          <> Some a) post ->
         links_found net !! a
         = Some (omap (link_target artist_list) (extract_wiki_links (snd page)))
         /\ g_word_count (net_graph net) !! a = Some (List.length (words (snd page))).
Proof.
  unfold build_artist_network.
  set (g0 := {| g_nodes := []; g_edges := []; g_word_count := ∅ |}).
  destruct (fold_add_node artist_list g0) as (N1 & N2 & N3).
  cbn [g0 g_nodes g_edges g_word_count app] in N1, N2, N3.
  set (net0 := {| net_graph :=
                    fold_left (fun g artist => add_node artist g) artist_list g0;
                  links_found := ∅ |}).
  assert (Hinv : network_inv artist_list net0).
  { unfold network_inv, graph_inv. cbn [net0 net_graph links_found].
    rewrite N1, N2, N3. split_and!.
    - reflexivity.
    - constructor.
    - constructor.
    - intros a links H. rewrite lookup_empty in H. discriminate H.
    - rewrite !dom_empty_L. reflexivity. }
  destruct (add_pages_inv artist_list wiki_data net0 Hinv) as (net & Hnet & _).
  exists net. split; [exact Hnet|].
  intros pre page post a -> Hs Hne Hpost.
  destruct (add_pages_split pre net0 net (page :: post) Hinv Hnet) as (net1 & _ & Hinv1 & H1).
  cbn [add_pages] in H1.
  destruct (add_page artist_list _ net1 page) as [net2|] eqn:E2; [|discriminate H1].
  destruct (add_page_edges artist_list net1 page net2 Hinv1 E2) as (Hinv2 & _).
  destruct (add_page_record net1 page net2 Hinv1 E2 a) as (Hrec & _).
  destruct (Hrec Hs Hne) as (R1 & R2).
  destruct (add_pages_other post net2 net a Hinv2 H1 Hpost) as (T1 & T2).
  split; [exact (eq_trans T1 R1) | exact (eq_trans T2 R2)].
Qed.

End Pages.

(** * File names with a parenthetical suffix *)

Lemma search_from_prefix ic r pre : forall i s adv m,
  (forall j adv', (j < List.length pre)%nat ->
     match_at ic r (i + j)%nat (skipn j pre ++ s) adv' = None) ->
  match_at ic r (i + List.length pre)%nat s (if is_nil pre then adv else false) = Some m ->
  search_from ic r i (pre ++ s) adv = Some (pre, m).
Proof.
  induction pre as [|x pre IH]; intros i s adv m Hno Hm.
  - cbn [app List.length is_nil] in *. rewrite Nat.add_0_r in Hm.
    apply search_here. exact Hm.
  - cbn [app search_from].
    pose proof (Hno 0%nat adv ltac:(cbn; lia)) as H0.
    rewrite Nat.add_0_r in H0. cbn [skipn app] in H0. rewrite H0.
    rewrite (IH (S i) s false m); [reflexivity | |].
    + intros j adv' Hj. specialize (Hno (S j) adv' ltac:(cbn; lia)).
      rewrite Nat.add_succ_r in Hno. exact Hno.
    + cbn [List.length is_nil] in Hm. rewrite Nat.add_succ_r in Hm.
      destruct pre; exact Hm.
Qed.

Lemma name_suffix_not_inside t rest i adv :
  Forall (fun c => c <> (ch "(")) t ->
  (exists c, In c t /\ is_space c = false) ->
  match_at false Pat.name_suffix i (t ++ rest) adv = None.
Proof.
  intros Hp (c & Hc & Hs). unfold match_at, Pat.name_suffix. cbn [rmatch].
  destruct (star _ true i (t ++ rest) _) as [a|] eqn:E; [|reflexivity].
  exfalso. apply star_run in E. destruct E as (n & _ & Hf & E).
  assert (Hn : (n < List.length t)%nat).
  { destruct (Nat.lt_ge_cases n (List.length t)) as [Hlt | Hge]; [exact Hlt|].
    exfalso. rewrite firstn_app in Hf. apply Forall_app in Hf. destruct Hf as [Hf _].
    rewrite firstn_all2 in Hf by exact Hge. rewrite List.Forall_forall in Hf.
    specialize (Hf c Hc). cbn [in_class] in Hf. congruence. }
  rewrite skipn_app in E.
  destruct (skipn_head_Forall _ n t Hp Hn) as (y & l' & Ey & Hy).
  rewrite Ey in E. cbn [app chr_eqb] in E.
  destruct (char_eqb_spec "(" y) as [Eq | _]; [congruence | discriminate E].
Qed.

Lemma name_suffix_here tag :
  Forall (fun c => c <> (ch ")")) tag ->
  match_at false Pat.name_suffix 0 (" (" ++ tag ++ ")") false
  = Some {| m_text := " (" ++ tag ++ ")"; m_rest := []; m_caps := [] |}.
Proof.
  intros Ht. unfold match_at, Pat.name_suffix.
  cbn [rmatch str_of_string app].
  change ((ch " ") :: (ch "(") :: tag ++ [(ch ")")])
    with ([(ch " ")] ++ (ch "(") :: tag ++ [(ch ")")]).
  apply (star_greedy_run _ [(ch " ")] 0);
    [repeat constructor|].
  cbn [Nat.add List.length].
  rewrite star_stop by reflexivity.
  cbn [chr_eqb]. change (char_eqb "(" "(") with true. cbv iota.
  apply (star_greedy_run _ tag 2).
  - eapply List.Forall_impl; [|exact Ht]. intros c Hc. cbn [in_class chr_eqb existsb].
    destruct (char_eqb_spec ")" c) as [E | _]; [congruence | reflexivity].
  - rewrite star_stop by reflexivity.
    cbn [chr_eqb]. change (char_eqb ")" ")") with true. cbv iota.
    cbn [star andb]. do 2 f_equal.
    rewrite Nat.sub_0_r. apply firstn_all2.
    cbn [app List.length]. rewrite length_app. cbn [List.length]. lia.
Qed.

Lemma trimmed_suffix_nonspace (s : str) j :
  s <> [] -> strip s = s -> (j < List.length s)%nat ->
  exists c, In c (skipn j s) /\ is_space c = false.
Proof.
  intros Hne Hs Hj.
  pose proof (strip_is_trimmed s) as [_ Hr]. rewrite Hs in Hr.
  destruct (exists_last Hne) as (s' & c & E).
  exists c. split; [|exact (Hr s' c E)].
  rewrite E. rewrite skipn_app. apply in_app_iff. right.
  assert (Hl : List.length s = S (List.length s')).
  { rewrite E, length_app. cbn. lia. }
  replace (j - List.length s')%nat with 0%nat by lia. left. reflexivity.
Qed.

(** X24: a parenthetical suffix of the file name is dropped: the file name
    made from an artist name, a space and a parenthesis, as in
    [The_Clash_(band).txt], gives the artist name, for a name without
    underscore, dot, slash and opening parenthesis and without white space
    at its ends, and a parenthesis that holds none of these characters and
    no closing parenthesis. *)
Theorem artist_name_drops_suffix (artist tag : str) :
  simple_name artist = true -> strip artist = artist ->
  Forall (fun c => ~ In c (str_of_string "_./()")) tag ->
  extract_artist_name_from_filename
    (replace_char " " "_" (artist ++ " (" ++ tag ++ ")") ++ ".txt")
  = artist.
Proof.
  intros Hs Ht Htag. apply simple_name_spec in Hs.
  destruct Hs as (Hne & Hus & Hdot & Hsep & Hpar).
  set (u := artist ++ " (" ++ tag ++ ")").
  assert (Hu : forall c, In c (str_of_string "_./") -> ~ In c u).
  { intros c Hc Hin. unfold u in Hin. apply in_app_iff in Hin.
    destruct Hin as [Hin | Hin].
    - vm_compute in Hc. destruct Hc as [<- | [<- | [<- | []]]]; contradiction.
    - cbn [app str_of_string] in Hin.
      destruct Hin as [<- | [<- | Hin]];
        [vm_compute in Hc; intuition discriminate
        |vm_compute in Hc; intuition discriminate|].
      apply in_app_iff in Hin. destruct Hin as [Hin | [<- | []]].
      + rewrite List.Forall_forall in Htag. apply (Htag c Hin).
        vm_compute in Hc. vm_compute. tauto.
      + vm_compute in Hc. intuition discriminate. }
  unfold extract_artist_name_from_filename.
  rewrite splitext_txt.
  - cbn [fst]. rewrite replace_char_inverse by (apply Hu; vm_compute; tauto).
    assert (Hsearch : search_from false Pat.name_suffix 0 u false
                      = Some (artist, {| m_text := " (" ++ tag ++ ")";
                                         m_rest := []; m_caps := [] |})).
    { unfold u. apply search_from_prefix.
      - intros j adv' Hj.
        apply name_suffix_not_inside.
        + apply Forall_drop. apply List.Forall_forall. intros c Hc ->. contradiction.
        + apply trimmed_suffix_nonspace; assumption.
      - destruct artist; [contradiction|]. cbn [is_nil].
        rewrite (match_at_shift false Pat.name_suffix _ 0) by reflexivity.
        apply name_suffix_here.
        eapply List.Forall_impl; [|exact Htag]. intros x Hx ->. apply Hx.
        vm_compute. tauto. }
    rewrite (re_sub_step false Pat.name_suffix [] u artist _ eq_refl Hsearch)
      by discriminate.
    cbn [m_caps m_rest expand List.map List.concat app].
    rewrite re_sub_no_match by reflexivity. rewrite app_nil_r. exact Ht.
  - destruct artist; [contradiction | discriminate].
  - assert (Hf : Forall (fun c => c <> (ch ".")) (replace_char " " "_" u)).
    { apply replace_char_ok; [discriminate|].
      apply List.Forall_forall. intros c Hc ->. apply (Hu (ch ".")); [vm_compute; tauto|].
      exact Hc. }
    rewrite List.Forall_forall in Hf. intros Hin. apply (Hf _ Hin). reflexivity.
  - assert (Hf : Forall (fun c => c <> (ch "/")) (replace_char " " "_" u)).
    { apply replace_char_ok; [discriminate|].
      apply List.Forall_forall. intros c Hc ->. apply (Hu (ch "/")); [vm_compute; tauto|].
      exact Hc. }
    rewrite List.Forall_forall in Hf. intros Hin. apply (Hf _ Hin). reflexivity.
Qed.

Lemma artist_name_drops_suffix_witness :
  extract_artist_name_from_filename
    (replace_char " " "_" ("The Clash" ++ " (" ++ "band" ++ ")") ++ ".txt")
  = ("The Clash" : str).
Proof.
  apply (artist_name_drops_suffix "The Clash" "band"); [reflexivity | reflexivity |].
  repeat constructor; vm_compute; intuition discriminate.
Defined.

(** * The links of a text *)

Lemma span_spec p s :
  s = fst (span p s) ++ snd (span p s)
  /\ Forall (fun c => p c = true) (fst (span p s))
  /\ match snd (span p s) with c :: _ => p c = false | [] => True end.
Proof.
  induction s as [|c s (IH1 & IH2 & IH3)]; cbn [span]; [repeat split; constructor|].
  destruct (p c) eqn:E.
  - destruct (span p s) as [a b]. cbn [fst snd] in *. split_and!.
    + cbn [app]. rewrite <- IH1. reflexivity.
    + constructor; assumption.
    + exact IH3.
  - cbn [fst snd app]. split_and!; [reflexivity | constructor | exact E].
Qed.

Lemma span_app p a b :
  Forall (fun c => p c = true) a ->
  match b with c :: _ => p c = false | [] => True end ->
  span p (a ++ b) = (a, b).
Proof.
  intros Ha Hb. induction Ha as [|c a Hc Ha IH]; cbn [app span].
  - destruct b as [|c b]; [reflexivity|]. cbn [span]. rewrite Hb. reflexivity.
  - rewrite Hc, IH. reflexivity.
Qed.

Lemma target_class_spec t :
  target_ok t = true ->
  t <> [] /\ Forall (fun c => negb (existsb (char_eqb c) "[]|") = true) t.
Proof.
  unfold target_ok. rewrite andb_true_iff, forallb_forall. intros [Hn H]. split.
  - destruct t; discriminate.
  - apply List.Forall_forall. exact H.
Qed.

Lemma display_class_spec d :
  display_ok d = true ->
  d <> [] /\ Forall (fun c => negb (existsb (char_eqb c) "[]") = true) d.
Proof.
  unfold display_ok. rewrite andb_true_iff, forallb_forall. intros [Hn H]. split.
  - destruct d; discriminate.
  - apply List.Forall_forall. exact H.
Qed.

Lemma link_at_bare t rest :
  target_ok t = true -> link_at ("[[" ++ t ++ "]]" ++ rest) = Some (t, rest).
Proof.
  intros Ht. destruct (target_class_spec t Ht) as [Hne Hcl].
  cbn [str_of_string app link_at]. rewrite !char_eqb_refl. cbn [andb].
  rewrite span_app; [|exact Hcl|reflexivity].
  destruct t; [contradiction|]. cbn [is_nil closes]. rewrite !char_eqb_refl. reflexivity.
Qed.

Lemma link_at_display t d rest :
  target_ok t = true -> display_ok d = true ->
  link_at ("[[" ++ t ++ "|" ++ d ++ "]]" ++ rest) = Some (t, rest).
Proof.
  intros Ht Hd. destruct (target_class_spec t Ht) as [Hne Hcl].
  destruct (display_class_spec d Hd) as [Hdne Hdcl].
  cbn [str_of_string app link_at]. rewrite !char_eqb_refl. cbn [andb].
  rewrite span_app; [|exact Hcl|reflexivity].
  destruct t; [contradiction|]. cbn [is_nil].
  destruct d as [|z d]; [contradiction|].
  assert (Hz : char_eqb z "]" = false).
  { inversion Hdcl as [|? ? Hz _]; subst. apply negb_true_iff in Hz.
    cbn [existsb str_of_string] in Hz. apply orb_false_iff in Hz. destruct Hz as [_ Hz].
    apply orb_false_iff in Hz. tauto. }
  cbn [closes app]. change (char_eqb "|" "]") with false. cbn [andb].
  rewrite char_eqb_refl.
  change (z :: d ++ ch "]" :: ch "]" :: rest) with ((z :: d) ++ ch "]" :: ch "]" :: rest).
  rewrite span_app; [|exact Hdcl|reflexivity].
  cbn [is_nil closes]. rewrite !char_eqb_refl. reflexivity.
Qed.

Lemma closes_inv s rest : closes s = Some rest -> s = ch "]" :: ch "]" :: rest.
Proof.
  destruct s as [|a [|b s]]; cbn [closes]; try discriminate.
  destruct (char_eqb_spec a "]") as [-> |]; [|discriminate].
  destruct (char_eqb_spec b "]") as [-> |]; [|discriminate].
  cbn [andb]. intros H. inversion H. reflexivity.
Qed.

Lemma target_class_intro t :
  t <> [] -> Forall (fun c => negb (existsb (char_eqb c) "[]|") = true) t ->
  target_ok t = true.
Proof.
  intros Hne H. unfold target_ok. apply andb_true_iff. split.
  - destruct t; [contradiction | reflexivity].
  - apply forallb_forall. apply List.Forall_forall. exact H.
Qed.

Lemma display_class_intro d :
  d <> [] -> Forall (fun c => negb (existsb (char_eqb c) "[]") = true) d ->
  display_ok d = true.
Proof.
  intros Hne H. unfold display_ok. apply andb_true_iff. split.
  - destruct d; [contradiction | reflexivity].
  - apply forallb_forall. apply List.Forall_forall. exact H.
Qed.

Lemma link_at_inv s t rest :
  link_at s = Some (t, rest) ->
  target_ok t = true
  /\ (s = "[[" ++ t ++ "]]" ++ rest
      \/ exists d, display_ok d = true /\ s = "[[" ++ t ++ "|" ++ d ++ "]]" ++ rest).
Proof.
  destruct s as [|a [|b s1]]; cbn [link_at]; try discriminate.
  destruct (char_eqb_spec a "[") as [-> |]; [|discriminate].
  destruct (char_eqb_spec b "[") as [-> |]; [|discriminate].
  cbn [andb].
  destruct (span_spec (fun c => negb (existsb (char_eqb c) "[]|")) s1) as (E1 & F1 & _).
  destruct (span (fun c => negb (existsb (char_eqb c) "[]|")) s1) as [t0 s2].
  cbn [fst snd] in E1, F1.
  destruct (is_nil t0) eqn:Et; [discriminate|].
  assert (Ht0 : target_ok t0 = true).
  { apply target_class_intro; [|exact F1]. intros ->. discriminate Et. }
  destruct (closes s2) as [r|] eqn:Ec.
  - intros H. inversion H; subst. apply closes_inv in Ec. subst s2.
    split; [exact Ht0|]. left. reflexivity.
  - destruct s2 as [|c s3]; [discriminate|].
    destruct (char_eqb_spec c "|") as [-> |]; [|discriminate].
    destruct (span_spec (fun c => negb (existsb (char_eqb c) "[]")) s3) as (E2 & F2 & _).
    destruct (span (fun c => negb (existsb (char_eqb c) "[]")) s3) as [d s4].
    cbn [fst snd] in E2, F2.
    destruct (is_nil d) eqn:Ed; [discriminate|].
    destruct (closes s4) as [r|] eqn:Ec4; [|discriminate].
    intros H. inversion H; subst. apply closes_inv in Ec4. subst s4.
    split; [exact Ht0|]. right. exists d. split.
    + apply display_class_intro; [|exact F2]. intros ->. discriminate Ed.
    + reflexivity.
Qed.

Lemma link_match_form i s adv m :
  match_at false Pat.link i s adv = Some m ->
  exists t,
    target_ok t = true /\ m_caps m = [(1%nat, t)]
    /\ (s = "[[" ++ t ++ "]]" ++ m_rest m
        \/ exists d, display_ok d = true
                     /\ s = "[[" ++ t ++ "|" ++ d ++ "]]" ++ m_rest m).
Proof.
  unfold match_at, Pat.link.
  set (kf := fun (i' : nat) (s' : str) (g' : caps) =>
               if adv && (i' =? i)%nat then None
               else Some {| m_text := firstn (i' - i) s; m_rest := s'; m_caps := g' |}).
  set (tail := (Opt (Chr "|" ⋅ Plus true (NoneOf "[]")) ⋅ Lit "]]")%re).
  change (rmatch false
            (Lit "[[" ⋅ Grp 1 (Plus false (NoneOf "[]|"))
             ⋅ Opt (Chr "|" ⋅ Plus true (NoneOf "[]")) ⋅ Lit "]]")%re i s [] kf)
    with (rmatch false (Lit "[[") i s []
            (fun i1 s1 g1 =>
               rmatch false (Grp 1 (Plus false (NoneOf "[]|"))) i1 s1 g1
                 (fun i2 s2 g2 => rmatch false tail i2 s2 g2 kf))).
  set (k1 := fun (i1 : nat) (s1 : str) (g1 : caps) =>
               rmatch false (Grp 1 (Plus false (NoneOf "[]|"))) i1 s1 g1
                 (fun i2 s2 g2 => rmatch false tail i2 s2 g2 kf)).
  cbn [rmatch Lit str_of_string chr_eqb]. intros H.
  destruct s as [|a s]; [discriminate H|].
  destruct (char_eqb_spec "[" a) as [<- | _]; [|discriminate H].
  destruct s as [|b s]; [discriminate H|].
  destruct (char_eqb_spec "[" b) as [<- | _]; [|discriminate H].
  unfold k1 in H. apply grp_plus_inv in H.
  destruct H as (t & rest & -> & Hne & Hf & H).
  unfold tail in H. cbn [rmatch Opt Plus Lit str_of_string chr_eqb] in H.
  assert (Ht : target_ok t = true) by (apply target_ok_intro; assumption).
  assert (Hkf : forall i' s' g', kf i' s' g' = Some m -> m_rest m = s' /\ m_caps m = g').
  { intros i' s' g' Hk. unfold kf in Hk. destruct (adv && _); [discriminate Hk|].
    injection Hk as <-. split; reflexivity. }
  exists t. split; [exact Ht|].
  destruct rest as [|x rest]; [discriminate H|].
  destruct (char_eqb_spec "|" x) as [<- | Hbar].
  - change (char_eqb "]" "|") with false in H. cbv iota in H.
    destruct rest as [|z rest]; [discriminate H|].
    destruct (in_class false (NoneOf [ch "["; ch "]"]) z) eqn:Ez; [|discriminate H].
    match type of H with
    | match ?e with Some a => Some a | None => None end = Some m =>
        destruct e as [m'|] eqn:Es; [|discriminate H]
    end.
    injection H as ->.
    apply star_run in Es. destruct Es as (n & Hn & Hrun & Hk).
    destruct (skipn n rest) as [|x1 r1] eqn:E1; [discriminate Hk|].
    destruct (char_eqb_spec "]" x1) as [<- | _]; [|discriminate Hk].
    destruct r1 as [|x2 r2]; [discriminate Hk|].
    destruct (char_eqb_spec "]" x2) as [<- | _]; [|discriminate Hk].
    destruct (Hkf _ _ _ Hk) as [Er Ec]. split; [exact Ec|].
    right. exists (z :: firstn n rest). split.
    + apply display_class_intro; [discriminate|].
      assert (Hd : Forall (fun c => in_class false (NoneOf "[]") c = true) (z :: firstn n rest))
        by (constructor; assumption).
      revert Hd. apply List.Forall_impl. intros c Hc. cbn [in_class chr_eqb] in Hc.
      rewrite existsb_eqb_sym in Hc. exact Hc.
    + rewrite Er. cbn [str_of_string app]. do 2 f_equal. f_equal. f_equal. f_equal.
      rewrite <- (firstn_skipn n rest) at 1. rewrite E1. reflexivity.
  - destruct (char_eqb_spec "]" x) as [<- | _]; [|discriminate H].
    destruct rest as [|x0 rest]; [discriminate H|].
    destruct (char_eqb_spec "]" x0) as [<- | _]; [|discriminate H].
    destruct (Hkf _ _ _ H) as [Er Ec]. split; [exact Ec|].
    left. rewrite Er. reflexivity.
Qed.

Lemma link_at_none s : link_at s = None -> match_at false Pat.link 0 s false = None.
Proof.
  intros H. destruct (match_at false Pat.link 0 s false) as [m|] eqn:E; [|reflexivity].
  apply link_match_form in E. destruct E as (t & Ht & _ & [E | (d & Hd & E)]).
  - rewrite E, (link_at_bare t _ Ht) in H. discriminate H.
  - rewrite E, (link_at_display t d _ Ht Hd) in H. discriminate H.
Qed.

Lemma link_at_search s t rest :
  link_at s = Some (t, rest) ->
  exists m, search_from false Pat.link 0 s false = Some ([], m)
            /\ m_text m <> [] /\ m_rest m = rest /\ m_caps m = [(1%nat, t)]
            /\ (List.length rest < List.length s)%nat.
Proof.
  intros H. apply link_at_inv in H. destruct H as (Ht & [-> | (d & Hd & ->)]).
  - eexists. split; [apply search_here, link_match_bare, Ht|].
    cbn [m_text m_rest m_caps]. split_and!; try reflexivity; [discriminate|].
    rewrite !length_app. cbn [str_of_string List.length]. lia.
  - eexists. split; [apply search_here, link_match_display; assumption|].
    cbn [m_text m_rest m_caps]. split_and!; try reflexivity; [discriminate|].
    rewrite !length_app. cbn [str_of_string List.length]. lia.
Qed.

Lemma re_findall_link_nil : re_findall false Pat.link [] = [].
Proof. reflexivity. Qed.

(** The matches of the pattern for links are the links of the text. *)
Lemma re_findall_targets : forall fuel s,
  (List.length s < fuel)%nat -> re_findall false Pat.link s = targets_from fuel s.
Proof.
  induction fuel as [|fuel IH]; intros s Hs; [lia|].
  cbn [targets_from]. destruct (link_at s) as [[t rest]|] eqn:E.
  - destruct (link_at_search s t rest E) as (m & Hm & Hne & Hr & Hc & Hl).
    rewrite (re_findall_step false Pat.link s [] m eq_refl Hm Hne).
    rewrite Hc, Hr. cbn [group Nat.eqb]. f_equal. apply IH. lia.
  - destruct s as [|c s]; [apply re_findall_link_nil|].
    rewrite re_findall_skip; [|reflexivity|apply link_at_none, E].
    apply IH. cbn [List.length] in Hs. lia.
Qed.

Lemma hd_split_hash t : hd [] (split_char "#" t) = before_hash t.
Proof.
  unfold before_hash. induction t as [|x t IH]; [reflexivity|].
  cbn [split_char span]. destruct (char_eqb x "#"); cbn [negb]; [reflexivity|].
  destruct (split_char "#" t) as [|w ws] eqn:E;
    [exfalso; exact (split_char_nonempty _ _ E)|].
  cbn [hd] in *. destruct (span _ t) as [a b]. cbn [fst] in *. rewrite IH. reflexivity.
Qed.

Lemma lstrip_decomp s :
  exists a, s = a ++ lstrip s /\ Forall (fun c => is_space c = true) a.
Proof.
  induction s as [|c s (a & E & Ha)]; [exists []; split; [reflexivity | constructor]|].
  cbn [lstrip]. destruct (is_space c) eqn:Ec.
  - exists (c :: a). split; [cbn [app]; rewrite <- E; reflexivity | constructor; assumption].
  - exists []. split; [reflexivity | constructor].
Qed.

Lemma rstrip_decomp s :
  exists b, s = rstrip s ++ b /\ Forall (fun c => is_space c = true) b.
Proof.
  unfold rstrip. destruct (lstrip_decomp (rev s)) as (a & E & Ha).
  exists (rev a). split; [|apply Forall_rev, Ha].
  rewrite <- rev_app_distr, <- E, rev_involutive. reflexivity.
Qed.

Lemma strip_stripped_of s : stripped_of s (strip s).
Proof.
  destruct (lstrip_decomp s) as (a & Ea & Ha).
  destruct (rstrip_decomp (lstrip s)) as (b & Eb & Hb).
  exists a, b. split_and!; [|exact Ha|exact Hb|apply strip_is_trimmed].
  unfold strip. rewrite <- Eb. exact Ea.
Qed.

Lemma clean_link_before_hash t :
  clean_link t
  = if is_nil (strip (before_hash t)) then None else Some (strip (before_hash t)).
Proof. unfold clean_link. rewrite hd_split_hash. reflexivity. Qed.

Lemma omap_clean_link ts :
  omap clean_link ts
  = List.filter (fun l => negb (is_nil l)) (List.map (fun t => strip (before_hash t)) ts).
Proof.
  induction ts as [|t ts IH]; [reflexivity|].
  cbn [omap list_omap List.map List.filter]. fold (omap clean_link ts).
  rewrite IH, clean_link_before_hash.
  destruct (is_nil (strip (before_hash t))); reflexivity.
Qed.

(** C10: the strings that [extract_wiki_links] returns are drawn from the
    links of the text, taken from left to right, each a pair of opening
    brackets, a target that runs up to the first bracket or bar, an optional
    bar with a display text, and a pair of closing brackets: of each link
    the target is taken, not the display text, cut at its first [#] and
    freed of the white space at its two ends, and the targets that this
    leaves empty are left out.  No string returned is empty, holds a [#] or
    has white space at either end. *)
Theorem extract_wiki_links_targets (text : str) :
  exists cleaned : list str,
    Forall2 stripped_of (List.map before_hash (wiki_targets text)) cleaned
    /\ extract_wiki_links text = List.filter (fun l => negb (is_nil l)) cleaned
    /\ Forall (fun l => l <> [] /\ ~ In (ch "#") l /\ trimmed l) (extract_wiki_links text).
Proof.
  exists (List.map (fun t => strip (before_hash t)) (wiki_targets text)). split_and!.
  - induction (wiki_targets text) as [|t ts IH]; cbn [List.map]; constructor;
      [apply strip_stripped_of | exact IH].
  - unfold extract_wiki_links, wiki_targets.
    rewrite (re_findall_targets (S (List.length text)) text) by lia.
    apply omap_clean_link.
  - unfold extract_wiki_links.
    induction (re_findall false Pat.link text) as [|m ms IH]; cbn [omap list_omap];
      [constructor|].
    destruct (clean_link m) as [l|] eqn:E; [|exact IH].
    constructor; [|exact IH]. destruct (clean_link_some m l E) as (H1 & H2 & H3).
    split_and!; [exact H1 | exact H2 |]. rewrite <- H3. apply strip_is_trimmed.
Qed.

(** Links with white space of several kinds, an anchor, a display text, an
    empty target, and brackets that open no link. *)
Lemma extract_wiki_links_example :
  extract_wiki_links
    ("See [1], [[The Who|who]], [[ " ++ [160%N] ++ "Blur" ++ [12288%N]
     ++ "#History]], [[#top]], [[a[[Oasis]]")
  = [ "The Who" : str; "Blur" : str; "Oasis" : str ]
  /\ wiki_targets "See [1], [[The Who|who]] and [[Oasis]]"
     = [ "The Who" : str; "Oasis" : str ].
Proof. split; vm_compute; reflexivity. Qed.
